(** * Upload client ([main.go]): progress-counting reader and transfer pipeline

    A shallow embedding of [src/main.go].  Go values are modelled as the
    program has them: [int]/[int64] as [Z] with two's-complement wrap-around,
    [float64] as IEEE-754 binary64 (the Standard Library's executable
    specification [SpecFloat]), byte slices as [list byte], the [error]
    interface as an optional error value and [io.Reader] as a type class. *)

From Stdlib Require Import ZArith List Bool Lia.
From Stdlib Require Strings.String.
From Stdlib Require Import Strings.Byte.
Import String.StringSyntax.
Delimit Scope string_scope with string.
From Stdlib Require Import Floats.SpecFloat.
From Stdlib Require Reals Lra Psatz.
Import ListNotations.

Local Open Scope Z_scope.

Abbreviation string := String.string.

(** ** Machine integers *)

Module Int64.

Definition min_int : Z := - 2 ^ 63.
Definition max_int : Z := 2 ^ 63 - 1.

Definition in_range (z : Z) : Prop := min_int <= z <= max_int.

(** Two's-complement reduction of a mathematical integer to 64 bits. *)
Definition wrap (z : Z) : Z := (z + 2 ^ 63) mod 2 ^ 64 - 2 ^ 63.

(** Go's [+] on [int64]. *)
Definition add (a b : Z) : Z := wrap (a + b).

End Int64.

(** ** [float64] *)

Module Float64.

Definition prec : Z := 53.
Definition emax : Z := 1024.

Definition t := spec_float.

(** The conversion [float64(x)] of an [int64]: round to nearest, ties to
    even. *)
Definition of_int64 (x : Z) : t := binary_normalize prec emax x 0 false.

Definition div (x y : t) : t := SFdiv prec emax x y.
Definition mul (x y : t) : t := SFmul prec emax x y.

Definition leb (x y : t) : bool := SFleb x y.

(** The untyped constant [100] at type [float64]. *)
Definition hundred : t := Eval vm_compute in of_int64 100.

End Float64.

(** ** [error] and [io.Reader] *)

Inductive error : Type :=
| EOF
| ErrUnexpectedEOF
| ErrShortWrite
| ErrInvalidWrite
| ErrOther (msg : string).

Definition is_EOF (e : error) : bool :=
  match e with EOF => true | _ => false end.

(** What one call [Read(p)] hands back: [stored], the contents of [p[:n]]
    after the call, and the pair [(n, err)].  A reader that keeps to
    [io.Reader]'s contract has [0 <= n <= len(p)], so that [stored] has [n]
    bytes; the type does not force it, as Go's does not. *)
Record ReadResult : Type := mkResult {
  stored : list byte;
  n_ : Z;
  err_ : option error
}.

Definition contract (len_p : nat) (r : ReadResult) : Prop :=
  n_ r = Z.of_nat (length (stored r)) /\ (length (stored r) <= len_p)%nat.

(** [io.Reader]: a value of type [R] answers [Read] on a buffer of length
    [len_p] and moves to its next state. *)
Class Reader (R : Type) : Type := Read : R -> nat -> ReadResult * R.

(** A finite source that holds [pending] bytes, in the manner of an open
    file, a response body or [bytes.Reader]: a read on a non-empty buffer
    returns between one byte and [min len(p) remaining] bytes, how many
    being the source's choice ([grant remaining len_p]); once the bytes are
    out it reports [ending] ([EOF] for a stream that ends well, another
    error for one that is cut short), either on the next call (with
    [n = 0]) or, when [eager] is set, together with the last bytes. *)
Record Source : Type := mkSource {
  pending : list byte;
  grant : nat -> nat -> nat;
  eager : bool;
  ending : error
}.

Definition granted (s : Source) (len_p : nat) : nat :=
  Nat.min (Nat.max 1 (grant s (length (pending s)) len_p))
          (Nat.min len_p (length (pending s))).

Definition Source_Read (s : Source) (len_p : nat) : ReadResult * Source :=
  match pending s with
  | [] => (mkResult [] 0 (Some (ending s)), s)
  | _ :: _ =>
      let k := granted s len_p in
      let rest := skipn k (pending s) in
      (mkResult (firstn k (pending s)) (Z.of_nat k)
                (if eager s && (length rest =? 0)%nat
                 then Some (ending s) else None),
       mkSource rest (grant s) (eager s) (ending s))
  end.

#[global] Instance Source_Reader : Reader Source := Source_Read.

(** A source that replays a fixed list of results whatever the buffer; it
    stands for readers that keep to no contract at all, and for streams
    that fail midway. *)
Definition Script : Type := list ReadResult.

Definition Script_Read (s : Script) (len_p : nat) : ReadResult * Script :=
  match s with
  | [] => (mkResult [] 0 (Some EOF), [])
  | r :: s' => (r, s')
  end.

#[global] Instance Script_Reader : Reader Script := Script_Read.

(** ** [ProgressReader] (main.go:173-191) *)

Section ProgressReader.

(** [R] is the wrapped reader, [W] whatever the progress callback acts
    on. *)
Context {R : Type} `{Reader R} {W : Type}.

Record ProgressReader : Type := mkProgressReader {
  Reader_ : R;
  Size : Z;
  read : Z;
  OnProgress : option (Float64.t -> W -> W)
}.

(** [float64(pr.read) / float64(pr.Size) * 100] *)
Definition progress_of (read_ size : Z) : Float64.t :=
  Float64.mul
    (Float64.div (Float64.of_int64 read_) (Float64.of_int64 size))
    Float64.hundred.

Definition ProgressReader_Read (pr : ProgressReader) (len_p : nat) (w : W)
  : ReadResult * ProgressReader * W :=
  let '(res, r') := Read (Reader_ pr) len_p in
  let read' := Int64.add (read pr) (n_ res) in
  let w' :=
    match OnProgress pr with
    | Some f =>
        if 0 <? Size pr then f (progress_of read' (Size pr)) w else w
    | None => w
    end in
  (res, mkProgressReader r' (Size pr) read' (OnProgress pr), w').

End ProgressReader.

Arguments ProgressReader R W : clear implicits.

Section ReadSequences.

Context {R : Type} `{Reader R} {W : Type}.

(** Successive calls of [Read], one per buffer length in [bufs], whatever
    the calls return. *)
Fixpoint reads (pr : ProgressReader R W) (bufs : list nat) (w : W)
  : list ReadResult * ProgressReader R W * W :=
  match bufs with
  | [] => ([], pr, w)
  | len_p :: bufs' =>
      let '(res, pr1, w1) := ProgressReader_Read pr len_p w in
      let '(rs, pr2, w2) := reads pr1 bufs' w1 in
      (res :: rs, pr2, w2)
  end.

(** A caller that drains the reader: it reads until the first call that
    returns an error and hands that error back; [None] when the buffers
    run out first. *)
Fixpoint drain (pr : ProgressReader R W) (bufs : list nat) (w : W)
  : option error * ProgressReader R W * W :=
  match bufs with
  | [] => (None, pr, w)
  | len_p :: bufs' =>
      let '(res, pr1, w1) := ProgressReader_Read pr len_p w in
      match err_ res with
      | Some e => (Some e, pr1, w1)
      | None => drain pr1 bufs' w1
      end
  end.

(** The value of [pr.read] after each of those calls. *)
Fixpoint counts (pr : ProgressReader R W) (bufs : list nat) (w : W)
  : list Z :=
  match bufs with
  | [] => []
  | len_p :: bufs' =>
      let '(_, pr1, w1) := ProgressReader_Read pr len_p w in
      read pr1 :: counts pr1 bufs' w1
  end.

(** The same calls made on the wrapped reader itself. *)
Fixpoint Read_seq (r : R) (bufs : list nat) : list ReadResult * R :=
  match bufs with
  | [] => ([], r)
  | len_p :: bufs' =>
      let '(res, r1) := Read r len_p in
      let '(rs, r2) := Read_seq r1 bufs' in
      (res :: rs, r2)
  end.

End ReadSequences.

Definition Zsum (l : list Z) : Z := fold_right Z.add 0 l.

(** A list that never steps down, for an order given as a boolean test. *)
Fixpoint nondecreasing {A} (leb : A -> A -> bool) (l : list A) : Prop :=
  match l with
  | [] => True
  | x :: l' =>
      match l' with
      | [] => True
      | y :: _ => leb x y = true /\ nondecreasing leb l'
      end
  end.

(** The progress sink that records what it is given, oldest first. *)
Definition record_progress (x : Float64.t) (log : list Float64.t)
  : list Float64.t := log ++ [x].

(** ** The [io] helpers the pipeline calls *)

(** [io.Writer] *)
Class Writer (Wr : Type) : Type :=
  Write : Wr -> list byte -> (Z * option error) * Wr.

Definition eof_to_nil (e : error) : option error :=
  if is_EOF e then None else Some e.

Section Io.

Context {R : Type} `{Reader R}.

(** [io.TeeReader(r, w)] *)
Record teeReader (Wr : Type) : Type := mkTee { tee_r : R; tee_w : Wr }.
Arguments mkTee {Wr}.
Arguments tee_r {Wr}.
Arguments tee_w {Wr}.

Definition teeReader_Read {Wr} `{Writer Wr} (t : teeReader Wr)
           (len_p : nat) : ReadResult * teeReader Wr :=
  let '(res, r') := Read (tee_r t) len_p in
  if 0 <? n_ res then
    let '((n, err), w') := Write (tee_w t) (stored res) in
    match err with
    | Some e => (mkResult (stored res) n (Some e), mkTee r' w')
    | None => (res, mkTee r' w')
    end
  else (res, mkTee r' (tee_w t)).

(** [io.ReadAll]: the loop of [Read]s into the spare capacity of a
    growing slice.  [slack c] is how much more than one byte [append]
    adds to a full slice of capacity [c].  [None] stands for a slice
    expression out of range (a reader outside its contract) or for
    [fuel] running out. *)
Fixpoint ReadAll_loop (slack : nat -> nat) (fuel : nat) (r : R)
         (b : list byte) (cap : nat)
  : option (list byte * option error * R) :=
  match fuel with
  | O => None
  | S fuel' =>
      let len_p := (cap - length b)%nat in
      let '(res, r') := Read r len_p in
      if (n_ res <? 0) || (Z.of_nat len_p <? n_ res) then None
      else
        let b' := b ++ stored res in
        match err_ res with
        | Some e => Some (b', eof_to_nil e, r')
        | None =>
            let cap' := if (length b' =? cap)%nat
                        then (cap + 1 + slack cap)%nat else cap in
            ReadAll_loop slack fuel' r' b' cap'
        end
  end.

Definition ReadAll (slack : nat -> nat) (fuel : nat) (r : R)
  : option (list byte * option error * R) :=
  ReadAll_loop slack fuel r [] 512.

End Io.

Arguments mkTee {R Wr}.
Arguments tee_r {R Wr}.
Arguments tee_w {R Wr}.

#[global] Instance teeReader_Reader {R Wr} `{Reader R} `{Writer Wr}
  : Reader (teeReader (R:=R) Wr) := teeReader_Read.

(** [io.Copy]'s buffer: 32 KiB. *)
Definition copy_buf_len : nat := Z.to_nat 32768.

Section Copy.

Context {R : Type} `{Reader R} {Wr : Type} `{Writer Wr}.

(** [io.Copy(dst, src)] for a source without [WriteTo] and a destination
    without [ReadFrom]: the loop over a 32 KiB buffer.  It returns
    [(written, err)] and the two ends; [None] as in [ReadAll_loop]. *)
Fixpoint Copy_loop (fuel : nat) (dst : Wr) (src : R) (written : Z)
  : option (Z * option error * Wr * R) :=
  match fuel with
  | O => None
  | S fuel' =>
      let '(res, src') := Read src copy_buf_len in
      let nr := n_ res in
      if Z.of_nat copy_buf_len <? nr then None
      else if 0 <? nr then
        let '((nw0, ew0), dst') := Write dst (stored res) in
        let '(nw, ew) :=
          if (nw0 <? 0) || (nr <? nw0)
          then (0, match ew0 with
                   | None => Some ErrInvalidWrite
                   | Some e => Some e
                   end)
          else (nw0, ew0) in
        let written' := Int64.add written nw in
        match ew with
        | Some e => Some (written', Some e, dst', src')
        | None =>
            if negb (nr =? nw)
            then Some (written', Some ErrShortWrite, dst', src')
            else
              match err_ res with
              | Some e => Some (written', eof_to_nil e, dst', src')
              | None => Copy_loop fuel' dst' src' written'
              end
        end
      else
        match err_ res with
        | Some e => Some (written, eof_to_nil e, dst, src')
        | None => Copy_loop fuel' dst src' written
        end
  end.

Definition Copy (fuel : nat) (dst : Wr) (src : R)
  : option (Z * option error * Wr * R) :=
  Copy_loop fuel dst src 0.

End Copy.

(** ** Bytes and text *)

Definition bytes_of (s : string) : list byte := String.list_byte_of_string s.
Arguments bytes_of s%_string.

Definition CR : byte := x0d.
Definition LF : byte := x0a.
Definition CRLF : list byte := [CR; LF].
Definition dquote : byte := x22.
Definition backslash : byte := x5c.
Definition slash : byte := x2f.

Definition byte_eqb (a b : byte) : bool := Byte.eqb a b.

(** [filepath.Base] on a system whose separator is [/]. *)
Fixpoint drop_while (f : byte -> bool) (l : list byte) : list byte :=
  match l with
  | [] => []
  | x :: l' => if f x then drop_while f l' else l
  end.

Fixpoint take_while (f : byte -> bool) (l : list byte) : list byte :=
  match l with
  | [] => []
  | x :: l' => if f x then x :: take_while f l' else []
  end.

Definition is_slash (b : byte) : bool := byte_eqb b slash.

Definition Base (path : list byte) : list byte :=
  match path with
  | [] => bytes_of "."
  | _ =>
      let stripped := drop_while is_slash (rev path) in
      match rev (take_while (fun b => negb (is_slash b)) stripped) with
      | [] => [slash]
      | name => name
      end
  end.

(** ** [mime/multipart.Writer], as the program uses it

    The package is part of Go's standard library.  The definitions give
    what the calls made by [main] ([NewWriter], [CreateFormFile], the
    writes to the part, [Close], [FormDataContentType]) put into the
    buffer. *)

Module multipart.

(** The writer over a [bytes.Buffer]: what the buffer holds, the boundary
    and whether a part has been opened. *)
Record Writer : Type := mkWriter {
  w : list byte;
  boundary : list byte;
  lastpart : bool
}.

(** [NewWriter]; the boundary is the writer's random choice. *)
Definition NewWriter (random_boundary : list byte) : Writer :=
  mkWriter [] random_boundary false.

(** [escapeQuotes]: a backslash before every backslash and every double
    quote, and [%0D], [%0A] for a carriage return and a line feed (the
    replacer of current releases; older ones left the line breaks as
    they were). *)
Definition escapeQuotes (s : list byte) : list byte :=
  flat_map (fun b => if byte_eqb b backslash || byte_eqb b dquote
                     then [backslash; b]
                     else if byte_eqb b CR then bytes_of "%0D"
                     else if byte_eqb b LF then bytes_of "%0A"
                     else [b]) s.

Definition content_disposition (fieldname filename : list byte)
  : list byte :=
  bytes_of "form-data; name=" ++ [dquote] ++ escapeQuotes fieldname
    ++ [dquote] ++ bytes_of "; filename=" ++ [dquote]
    ++ escapeQuotes filename ++ [dquote].

(** [CreateFormFile], through [CreatePart]: the delimiter line, the two
    header lines in sorted order, and the empty line.  Writes to a
    [bytes.Buffer] do not fail, so neither does this call. *)
Definition CreateFormFile (mw : Writer) (fieldname filename : list byte)
  : error + Writer :=
  let delim := (if lastpart mw then CRLF else [])
                 ++ bytes_of "--" ++ boundary mw ++ CRLF in
  let header :=
    bytes_of "Content-Disposition: "
      ++ content_disposition fieldname filename ++ CRLF
      ++ bytes_of "Content-Type: application/octet-stream" ++ CRLF
      ++ CRLF in
  inr (mkWriter (w mw ++ delim ++ header) (boundary mw) true).

(** [part.Write] *)
Definition part_Write (mw : Writer) (d : list byte)
  : (Z * option error) * Writer :=
  ((Z.of_nat (length d), None),
   mkWriter (w mw ++ d) (boundary mw) (lastpart mw)).

(** [Close]: the closing delimiter. *)
Definition Close (mw : Writer) : Writer :=
  mkWriter (w mw ++ CRLF ++ bytes_of "--" ++ boundary mw
              ++ bytes_of "--" ++ CRLF)
           (boundary mw) false.

(** [FormDataContentType], for a boundary that needs no quoting. *)
Definition FormDataContentType (mw : Writer) : list byte :=
  bytes_of "multipart/form-data; boundary=" ++ boundary mw.

End multipart.

#[global] Instance part_Writer : Writer multipart.Writer :=
  multipart.part_Write.

(** ** The progress bar (package [progressbar]), as far as the pipeline
    depends on it

    The package is a third-party library; its drawing on standard error is
    left out. *)

Module progressbar.

(** Of the bar's state the model keeps its maximum and the running total
    of what [Add] was given.  Whether a call of [Add] reports an error is
    the library's affair: [refuses total num] is the error it answers
    with, if any. *)
Record ProgressBar : Type := mkBar {
  max : Z;
  total : Z;
  refuses : Z -> Z -> option error
}.

(** [NewOptions64(max, ...)] *)
Definition NewOptions64 (max_ : Z) (refuses_ : Z -> Z -> option error)
  : ProgressBar :=
  mkBar max_ 0 refuses_.

Definition Add (bar : ProgressBar) (num : Z)
  : option error * ProgressBar :=
  (refuses bar (total bar) num,
   mkBar (max bar) (Int64.add (total bar) num) (refuses bar)).

(** [ProgressBar.Write]: [n = len(b)], [err = p.Add(n)]. *)
Definition Bar_Write (bar : ProgressBar) (b : list byte)
  : (Z * option error) * ProgressBar :=
  let n := Z.of_nat (length b) in
  let '(err, bar') := Add bar n in
  ((n, err), bar').

(** [progressbar.Reader] and its [Read]: the wrapped reader's result,
    with [n] added to the bar and the outcome of [Add] dropped. *)
Record Reader_ (R : Type) : Type := mkReader { inner : R; bar : ProgressBar }.
Arguments mkReader {R}.
Arguments inner {R}.
Arguments bar {R}.

Definition NewReader {R} (r : R) (b : ProgressBar) : Reader_ R :=
  mkReader r b.

Definition Reader_Read {R} `{Reader R} (r : Reader_ R) (len_p : nat)
  : ReadResult * Reader_ R :=
  let '(res, r') := Read (inner r) len_p in
  let '(_, bar') := Add (bar r) (n_ res) in
  (res, mkReader r' bar').

End progressbar.

#[global] Instance Bar_Writer : Writer progressbar.ProgressBar :=
  progressbar.Bar_Write.

#[global] Instance pbReader_Reader {R} `{Reader R}
  : Reader (progressbar.Reader_ R) := progressbar.Reader_Read.

(** ** The process and its surroundings *)

Inductive Handle : Type := HFile | HBody.

Definition Handle_eqb (a b : Handle) : bool :=
  match a, b with
  | HFile, HFile | HBody, HBody => true
  | _, _ => false
  end.

Record File : Type := mkFile {
  Stat : error + Z;
  contents : Source
}.

Record Request : Type := mkRequest {
  Method : list byte;
  URL : list byte;
  ContentType : list byte;
  sent_body : list byte
}.

Record Response : Type := mkResponse {
  StatusCode : Z;
  ContentLength : Z;
  Body : Source
}.

(** What [flag.Parse] makes of the command line: it returns, with the
    two flags set from it; or it prints the usage and ends the process
    itself, with status 0 when asked for help and 2 for a command line it
    cannot read. *)
Inductive Parsed : Type := ParseOK | ParseHelp | ParseFails.

(** Everything [main] takes from outside: the command line as
    [flag.Parse] reads it, the file system, the boundary drawn by
    [multipart.NewWriter], the errors the progress bar reports, the URL
    check of [http.NewRequest], the HTTP exchange and the allocator's
    growth policy. *)
Record Env : Type := mkEnv {
  flag_Parse : Parsed;
  flag_file : list byte;
  flag_url : list byte;
  os_Open : list byte -> error + File;
  randomBoundary : list byte;
  bar_refuses : Z -> Z -> option error;
  NewRequest_error : list byte -> option error;
  client_Do : Request -> error + Response;
  slack : nat -> nat
}.

(** What [main] prints on standard output: one constructor for each print
    statement, in source order, carrying the values the statement is given.
    The wording of the messages and the rendering of sizes are left
    out. *)
Inductive Output : Type :=
| OutMissingArgs
| OutCannotOpen (e : error)
| OutCannotStat (e : error)
| OutFile (name : list byte)
| OutSize (size : Z)
| OutTarget (url : list byte)
| OutCreateFieldFailed (e : error)
| OutReadFileFailed (e : error)
| OutConnecting
| OutCreateRequestFailed (e : error)
| OutSendFailed (e : error)
| OutReceiving
| OutReadResponseFailed (e : error)
| OutStatus (code : Z)
| OutUploadSucceeded
| OutUploadFailed
| OutServerReturned (body : list byte).

(** The calls that reach outside the process. *)
Inductive Call : Type :=
| CallUsage
| CallOpen (path : list byte)
| CallStat
| CallCopy
| CallNewRequest (url : list byte)
| CallDo (req : Request)
| CallReadAll (metered : bool)
| CallClose (h : Handle)
| CallExit (code : Z).

Record Proc : Type := mkProc {
  stdout : list Output;
  calls : list Call;
  held : list Handle;
  deferred : list Handle;
  upload_bar : option progressbar.ProgressBar;
  download_bar : option progressbar.ProgressBar;
  exit_status : option Z
}.

Definition start : Proc := mkProc [] [] [] [] None None None.

(** A computation of the process: it yields a value, or the process has
    terminated ([None]). *)
Definition M (A : Type) : Type := Proc -> option A * Proc.

Definition ret {A} (a : A) : M A := fun p => (Some a, p).

Definition bind {A B} (m : M A) (k : A -> M B) : M B :=
  fun p => match m p with
           | (Some a, p') => k a p'
           | (None, p') => (None, p')
           end.

Notation "x <- m ;; k" := (bind m (fun x => k))
  (at level 61, m at next level, right associativity).
Notation "m ;; k" := (bind m (fun _ => k))
  (at level 61, right associativity).

Definition print (o : Output) : M unit :=
  fun p => (Some tt, mkProc (stdout p ++ [o]) (calls p) (held p) (deferred p)
                            (upload_bar p) (download_bar p) (exit_status p)).

Definition call (c : Call) : M unit :=
  fun p => (Some tt, mkProc (stdout p) (calls p ++ [c]) (held p) (deferred p)
                            (upload_bar p) (download_bar p) (exit_status p)).

Definition acquire (h : Handle) : M unit :=
  fun p => (Some tt, mkProc (stdout p) (calls p) (h :: held p) (deferred p)
                            (upload_bar p) (download_bar p) (exit_status p)).

(** [defer x.Close()] *)
Definition defer_Close (h : Handle) : M unit :=
  fun p => (Some tt, mkProc (stdout p) (calls p) (held p) (h :: deferred p)
                            (upload_bar p) (download_bar p) (exit_status p)).

Definition set_upload_bar (b : progressbar.ProgressBar) : M unit :=
  fun p => (Some tt, mkProc (stdout p) (calls p) (held p) (deferred p)
                            (Some b) (download_bar p) (exit_status p)).

Definition set_download_bar (b : progressbar.ProgressBar) : M unit :=
  fun p => (Some tt, mkProc (stdout p) (calls p) (held p) (deferred p)
                            (upload_bar p) (Some b) (exit_status p)).

Definition release (h : Handle) (hs : list Handle) : list Handle :=
  filter (fun h' => negb (Handle_eqb h h')) hs.

(** The deferred calls, last registered first. *)
Fixpoint run_deferred (ds : list Handle) (p : Proc) : Proc :=
  match ds with
  | [] => p
  | h :: ds' =>
      run_deferred ds'
        (mkProc (stdout p) (calls p ++ [CallClose h]) (release h (held p))
                ds' (upload_bar p) (download_bar p) (exit_status p))
  end.

(** The end of the process.  What is still in [held] then was never
    closed by the program and is left for the system to take back. *)
Definition terminate (code : Z) (p : Proc) : Proc :=
  mkProc (stdout p) (calls p ++ [CallExit code]) (held p) (deferred p)
         (upload_bar p) (download_bar p) (Some code).

(** [os.Exit(code)]: the process ends at once; deferred calls do not run. *)
Definition os_Exit {A} (code : Z) : M A :=
  fun p => (None, terminate code p).

(** A run-time panic: deferred calls run, then the process ends with
    status 2. *)
Definition panic {A} : M A :=
  fun p => (None, terminate 2 (run_deferred (deferred p) p)).

(** [x, err := f(); if err != nil { fmt.Printf(msg, err); os.Exit(1) }] *)
Definition try {A} (r : error + A) (msg : error -> Output) : M A :=
  match r with
  | inl e => print (msg e) ;; os_Exit 1
  | inr a => ret a
  end.

Definition check (err : option error) (msg : error -> Output) : M unit :=
  match err with
  | Some e => print (msg e) ;; os_Exit 1
  | None => ret tt
  end.

Definition or_panic {A} (r : option A) : M A :=
  match r with
  | Some a => ret a
  | None => panic
  end.

Definition is_empty (s : list byte) : bool :=
  match s with [] => true | _ => false end.

Definition StatusOK : Z := 200.

(** Lines 120-139 of [main]: the response body, through a metered reader
    when the length is known. *)
Definition receive (env : Env) (resp : Response)
  : M (list byte * option error) :=
  let contentLength := ContentLength resp in
  let fuel := S (length (pending (Body resp))) in
  if 0 <? contentLength then
    let bar2 := progressbar.NewOptions64 contentLength (bar_refuses env) in
    let respBodyReader := progressbar.NewReader (Body resp) bar2 in
    call (CallReadAll true) ;;
    r <- or_panic (ReadAll (slack env) fuel respBodyReader) ;;
    let '(responseBody, err, rd) := r in
    set_download_bar (progressbar.bar rd) ;;
    ret (responseBody, err)
  else
    call (CallReadAll false) ;;
    r <- or_panic (ReadAll (slack env) fuel (Body resp)) ;;
    let '(responseBody, err, _) := r in
    ret (responseBody, err).

(** The end of [main] (lines 146-154): the report. *)
Definition report (resp : Response) (responseBody : list byte) : M unit :=
  print (OutStatus (StatusCode resp)) ;;
  (if StatusCode resp =? StatusOK
   then print OutUploadSucceeded
   else print OutUploadFailed) ;;
  print (OutServerReturned responseBody).

(** [main] from the return of [flag.Parse] on (lines 22-155). *)
Definition transfer (env : Env) : M unit :=
  let filePath := flag_file env in
  let serverURL := flag_url env in
  if is_empty filePath || is_empty serverURL then
    print OutMissingArgs ;; call CallUsage ;; os_Exit 1
  else
    call (CallOpen filePath) ;;
    file <- try (os_Open env filePath) OutCannotOpen ;;
    acquire HFile ;;
    defer_Close HFile ;;
    call CallStat ;;
    fileSize <- try (Stat file) OutCannotStat ;;
    let fileName := Base filePath in
    print (OutFile fileName) ;;
    print (OutSize fileSize) ;;
    print (OutTarget serverURL) ;;
    let writer := multipart.NewWriter (randomBoundary env) in
    part <- try (multipart.CreateFormFile writer (bytes_of "file") fileName)
                OutCreateFieldFailed ;;
    let bar := progressbar.NewOptions64 fileSize (bar_refuses env) in
    let teeReader := mkTee (contents file) bar in
    call CallCopy ;;
    r <- or_panic (Copy (S (length (pending (contents file)))) part
                        teeReader) ;;
    let '(_, err, part', tee') := r in
    set_upload_bar (tee_w tee') ;;
    check err OutReadFileFailed ;;
    let writer' := multipart.Close part' in
    print OutConnecting ;;
    call (CallNewRequest serverURL) ;;
    check (NewRequest_error env serverURL) OutCreateRequestFailed ;;
    let req := mkRequest (bytes_of "POST") serverURL
                         (multipart.FormDataContentType writer')
                         (multipart.w writer') in
    call (CallDo req) ;;
    resp <- try (client_Do env req) OutSendFailed ;;
    acquire HBody ;;
    defer_Close HBody ;;
    print OutReceiving ;;
    rb <- receive env resp ;;
    let '(responseBody, err) := rb in
    check err OutReadResponseFailed ;;
    report resp responseBody.

(** [main] (lines 17-155). *)
Definition main (env : Env) : M unit :=
  match flag_Parse env with
  | ParseOK => transfer env
  | ParseHelp => call CallUsage ;; os_Exit 0
  | ParseFails => call CallUsage ;; os_Exit 2
  end.

(** A whole run: [main], and when it returns, the deferred calls and exit
    status 0. *)
Definition run (env : Env) : Proc :=
  match main env start with
  | (Some _, p) => terminate 0 (run_deferred (deferred p) p)
  | (None, p) => p
  end.

(** ** Reading a run *)

(** A bar that never answers [Add] with an error. *)
Definition accepts_all (bar : progressbar.ProgressBar) : Prop :=
  forall t n, progressbar.refuses bar t n = None.

(** The steps of the pipeline that can fail, and the step each failure
    message of [main] belongs to. *)
Inductive Step : Type := Opening | Encoding | Sending | Receiving.

Definition failure_of (o : Output) : option Step :=
  match o with
  | OutCannotOpen _ | OutCannotStat _ => Some Opening
  | OutCreateFieldFailed _ | OutReadFileFailed _ => Some Encoding
  | OutCreateRequestFailed _ | OutSendFailed _ => Some Sending
  | OutReadResponseFailed _ => Some Receiving
  | _ => None
  end.

Fixpoint failed_step (out : list Output) : option Step :=
  match out with
  | [] => None
  | o :: out' =>
      match failure_of o with
      | Some st => Some st
      | None => failed_step out'
      end
  end.

(** The Reporting step has been reached when the status line is out. *)
Definition is_status (o : Output) : bool :=
  match o with OutStatus _ => true | _ => false end.

Definition reached_reporting (p : Proc) : bool :=
  existsb is_status (stdout p).

Definition is_Do (c : Call) : bool :=
  match c with CallDo _ => true | _ => false end.

Definition is_ReadAll (c : Call) : bool :=
  match c with CallReadAll _ => true | _ => false end.

Definition requests_sent (p : Proc) : nat :=
  length (filter is_Do (calls p)).

(** The successful range of HTTP status codes, 2xx, in the words of the
    specification. *)
Definition in_successful_range (code : Z) : bool :=
  (200 <=? code) && (code <=? 299).

(** ** A reference receiver of [multipart/form-data]

    In the words of the specification: a receiver that takes the boundary
    from the [Content-Type] header, splits the body at the delimiter lines
    and reads each part's [Content-Disposition]. *)

Module receiver.

Record Part : Type := mkPart {
  name : list byte;
  filename : option (list byte);
  content : list byte
}.

(** [strip_prefix p l]: what follows [p] at the front of [l]. *)
Fixpoint strip_prefix (p l : list byte) : option (list byte) :=
  match p, l with
  | [], _ => Some l
  | x :: p', y :: l' => if byte_eqb x y then strip_prefix p' l' else None
  | _ :: _, [] => None
  end.

(** [split_at d l]: [l] cut at the first occurrence of [d]. *)
Fixpoint split_at (d l : list byte) : option (list byte * list byte) :=
  match strip_prefix d l with
  | Some rest => Some ([], rest)
  | None =>
      match l with
      | [] => None
      | x :: l' =>
          match split_at d l' with
          | Some (a, b) => Some (x :: a, b)
          | None => None
          end
      end
  end.

(** A quoted string, from just after its opening quote: the text up to
    the closing quote, with every backslash pair read as the byte it
    protects. *)
Fixpoint unquote (l : list byte) : option (list byte * list byte) :=
  match l with
  | [] => None
  | x :: l' =>
      if byte_eqb x dquote then Some ([], l')
      else if byte_eqb x backslash then
        match l' with
        | [] => None
        | y :: l'' =>
            match unquote l'' with
            | Some (s, rest) => Some (y :: s, rest)
            | None => None
            end
        end
      else
        match unquote l' with
        | Some (s, rest) => Some (x :: s, rest)
        | None => None
        end
  end.

(** The value of a [Content-Disposition] header of a form part. *)
Definition disposition (v : list byte)
  : option (list byte * option (list byte)) :=
  match strip_prefix (bytes_of "form-data; name=" ++ [dquote]) v with
  | None => None
  | Some v1 =>
      match unquote v1 with
      | None => None
      | Some (nm, []) => Some (nm, None)
      | Some (nm, v2) =>
          match strip_prefix (bytes_of "; filename=" ++ [dquote]) v2 with
          | None => None
          | Some v3 =>
              match unquote v3 with
              | Some (fn, []) => Some (nm, Some fn)
              | _ => None
              end
          end
      end
  end.

(** The header lines of a part, up to and including the empty line. *)
Fixpoint header_lines (fuel : nat) (l : list byte)
  : option (list (list byte) * list byte) :=
  match fuel with
  | O => None
  | S fuel' =>
      match split_at CRLF l with
      | None => None
      | Some ([], rest) => Some ([], rest)
      | Some (line, rest) =>
          match header_lines fuel' rest with
          | Some (ls, rest') => Some (line :: ls, rest')
          | None => None
          end
      end
  end.

Fixpoint find_disposition (ls : list (list byte))
  : option (list byte * option (list byte)) :=
  match ls with
  | [] => None
  | line :: ls' =>
      match strip_prefix (bytes_of "Content-Disposition: ") line with
      | Some v => disposition v
      | None => find_disposition ls'
      end
  end.

(** The parts that follow a delimiter, [l] being what comes right after
    [--boundary]; [delim] is [CRLF--boundary].  The line break that ends
    the headers of a part may itself open the next delimiter (a part
    without a body), so the delimiter is looked for from that line break
    on, and the content of the part is what lies between the line break
    and the delimiter. *)
Fixpoint parts (fuel : nat) (delim l : list byte) : option (list Part) :=
  match fuel with
  | O => None
  | S fuel' =>
      match strip_prefix (bytes_of "--") l with
      | Some _ => Some []
      | None =>
          match strip_prefix CRLF l with
          | None => None
          | Some l1 =>
              match header_lines (length l1) l1 with
              | None => None
              | Some (hs, l2) =>
                  match find_disposition hs, split_at delim (CRLF ++ l2) with
                  | Some (nm, fn), Some (c, l3) =>
                      match parts fuel' delim l3 with
                      | Some ps => Some (mkPart nm fn (skipn 2 c) :: ps)
                      | None => None
                      end
                  | _, _ => None
                  end
              end
          end
      end
  end.

Definition decode (content_type body : list byte) : option (list Part) :=
  match strip_prefix (bytes_of "multipart/form-data; boundary=")
                     content_type with
  | None => None
  | Some b =>
      match strip_prefix (bytes_of "--" ++ b) body with
      | None => None
      | Some l => parts (length body) (CRLF ++ bytes_of "--" ++ b) l
      end
  end.

End receiver.

(** [d] occurs somewhere in [l]. *)
Definition occurs (d l : list byte) : Prop :=
  exists a b, l = a ++ d ++ b.

(** What [multipart.NewWriter] draws for a boundary: thirty random bytes
    in hexadecimal, so sixty digits. *)
Definition is_hex_digit (c : byte) : bool :=
  let n := Byte.to_N c in
  ((48 <=? n) && (n <=? 57) || (97 <=? n) && (n <=? 102))%N.

Definition random_boundary (b : list byte) : Prop :=
  length b = 60%nat /\ forallb is_hex_digit b = true.

(** ** Sample surroundings *)

Definition whole_buffer : nat -> nat -> nat := fun _ len_p => len_p.

Definition sample_boundary : list byte := repeat x30 60.

Definition sample_source (data : list byte) : Source :=
  mkSource data whole_buffer false EOF.

Definition sample_file (data : list byte) : File :=
  mkFile (inr (Z.of_nat (length data))) (sample_source data).

Definition reply (code len : Z) (body : list byte)
  : Request -> error + Response :=
  fun _ => inr (mkResponse code len (sample_source body)).

Definition refuse : Request -> error + Response :=
  fun _ => inl (ErrOther "connection refused"%string).

Definition sample_env (path data : list byte)
           (answer : Request -> error + Response) : Env :=
  mkEnv ParseOK path (bytes_of "http://example.test/upload")
        (fun _ => inr (sample_file data)) sample_boundary
        (fun _ _ => None) (fun _ => None) answer (fun c => c).

Definition sample_path : list byte := bytes_of "/tmp/backup.tar".
Definition sample_data : list byte := [x00; xff; x0d; x0a; x2d; x2d].

(** A file whose bytes hold the delimiter line, and a path whose base name
    holds a line break. *)
Definition clashing_data : list byte :=
  bytes_of "tail" ++ CRLF ++ bytes_of "--" ++ sample_boundary
    ++ bytes_of "--" ++ CRLF.

Definition broken_path : list byte :=
  bytes_of "/tmp/a" ++ CRLF ++ bytes_of "b".

(** A file that begins with the two dashes and the boundary. *)
Definition leading_data : list byte :=
  bytes_of "--" ++ sample_boundary ++ bytes_of "-- and more".

(** The body that [CreateFormFile], the copied bytes and [Close] leave in
    the buffer, written out. *)
Definition form_file_body (b fn data : list byte) : list byte :=
  (bytes_of "--" ++ b) ++ CRLF
    ++ (bytes_of "Content-Disposition: "
          ++ multipart.content_disposition (bytes_of "file") fn) ++ CRLF
    ++ bytes_of "Content-Type: application/octet-stream" ++ CRLF
    ++ CRLF
    ++ data ++ (CRLF ++ bytes_of "--" ++ b) ++ bytes_of "--" ++ CRLF.

Definition sample_request : Request :=
  mkRequest (bytes_of "POST") (bytes_of "http://example.test/upload")
            (bytes_of "multipart/form-data; boundary=" ++ sample_boundary)
            (form_file_body sample_boundary (bytes_of "backup.tar")
                            sample_data).

(** ** Rounding, for reasoning about [float64]

    The real number a finite float stands for is its mantissa times a
    power of two; [RN x v] says that [v] is [x] rounded to the nearest
    number with 53 significant bits, ties going to the even mantissa. *)

Module Rounding.

Import Reals.
Local Open Scope Z_scope.

Definition bpow (e : Z) : R := powerRZ 2 e.

(** Where a real sits between two neighbours of the grid [bpow e]. *)
Definition inb (x : R) (m e : Z) (l : location) : Prop :=
  match l with
  | loc_Exact => x = (IZR m * bpow e)%R
  | loc_Inexact Lt => (IZR m * bpow e < x < (IZR m + /2) * bpow e)%R
  | loc_Inexact Eq => x = ((IZR m + /2) * bpow e)%R
  | loc_Inexact Gt => ((IZR m + /2) * bpow e < x < (IZR m + 1) * bpow e)%R
  end.

(** Round to nearest, ties to even, of [x] on the grid of step [g]. *)
Definition rne (x g : R) (m1 m2 : Z) : Prop :=
  (IZR m1 * g <= x < (IZR m1 + 1) * g)%R
  /\ ((x < (IZR m1 + /2) * g)%R /\ m2 = m1
      \/ ((IZR m1 + /2) * g < x)%R /\ m2 = m1 + 1
      \/ x = ((IZR m1 + /2) * g)%R
         /\ m2 = if Z.even m1 then m1 else m1 + 1).

(** [v] is [x] rounded to 53 significant bits. *)
Definition RN (x v : R) : Prop :=
  exists k m1 m2,
    2 ^ 52 <= m1 < 2 ^ 53
    /\ rne x (bpow (k - 53)) m1 m2
    /\ v = (IZR m2 * bpow (k - 53))%R.

End Rounding.

(** ** [formatBytes] (main.go:160-171) *)

(** [const unit = 1024] *)
Definition unit_ : Z := 1024.

(** [int64] multiplication. *)
Definition mul64 (a b : Z) : Z := Int64.wrap (a * b).

(** What [formatBytes] hands to [fmt.Sprintf]: the format ["%d B"] with
    the count, or the format ["%.1f %cB"] with the quotient and the letter
    of the unit.  The rendering of the number in decimal is [fmt]'s. *)
Inductive Formatted : Type :=
| Plain (n : Z)
| Scaled (x : Float64.t) (c : byte).

(** [s[i]]; [None] stands for the run-time panic of an index out of
    range. *)
Definition index (s : list byte) (i : Z) : option byte :=
  if i <? 0 then None else nth_error s (Z.to_nat i).

(** [for n := bytes / unit; n >= unit; n /= unit { div *= unit; exp++ }],
    entered with the current [n], [div] and [exp]. *)
Fixpoint formatBytes_loop (fuel : nat) (n div exp : Z) : option (Z * Z) :=
  if unit_ <=? n then
    match fuel with
    | O => None
    | S fuel' =>
        formatBytes_loop fuel' (Z.quot n unit_) (mul64 div unit_)
                         (Int64.add exp 1)
    end
  else Some (div, exp).

(** [formatBytes].  Each turn of the loop takes ten bits off [n], so the
    64 turns allowed here are more than an [int64] can need. *)
Definition formatBytes (bytes : Z) : option Formatted :=
  if bytes <? unit_ then Some (Plain bytes)
  else
    match formatBytes_loop 64 (Z.quot bytes unit_) unit_ 0 with
    | None => None
    | Some (div, exp) =>
        match index (bytes_of "KMGTPE") exp with
        | None => None
        | Some c =>
            Some (Scaled (Float64.div (Float64.of_int64 bytes)
                                      (Float64.of_int64 div)) c)
        end
    end.

(** The numbers 1 and 1024 as [float64]. *)
Definition float_1 : Float64.t := Eval vm_compute in Float64.of_int64 1.
Definition float_1024 : Float64.t :=
  Eval vm_compute in Float64.of_int64 1024.

(** ** More on reading a run *)

(** A bar that never answers [Add] with [io.EOF]. *)
Definition no_EOF (refuses : Z -> Z -> option error) : Prop :=
  forall t n, refuses t n <> Some EOF.

Definition is_Close (c : Call) : bool :=
  match c with CallClose _ => true | _ => false end.

Definition is_Exit (c : Call) : bool :=
  match c with CallExit _ => true | _ => false end.

(** The calls of a run apart from the closing of handles and the exit:
    the work of the pipeline. *)
Definition work (p : Proc) : list Call :=
  filter (fun c => negb (is_Close c || is_Exit c)) (calls p).

(** The work of a run that goes all the way. *)
Definition pipeline (env : Env) (req : Request) (metered : bool)
  : list Call :=
  [CallOpen (flag_file env); CallStat; CallCopy;
   CallNewRequest (flag_url env); CallDo req; CallReadAll metered].

(** A server whose answer breaks off after [body]. *)
Definition cut_short (code len : Z) (body : list byte)
  : Request -> error + Response :=
  fun _ => inr (mkResponse code len
                  (mkSource body whole_buffer false ErrUnexpectedEOF)).

(** A request that is never sent. *)
Definition no_request : Request := mkRequest [] [] [] [].

(** The request for a file, written out: the POST to the URL with the
    complete form as its body. *)
Definition request_for (env : Env) (file : File) : Request :=
  mkRequest (bytes_of "POST") (flag_url env)
            (bytes_of "multipart/form-data; boundary=" ++ randomBoundary env)
            (form_file_body (randomBoundary env) (Base (flag_file env))
                            (pending (contents file))).

(** In the words of the specification: the first of the steps 1-4 that
    the surroundings make fail, read off the surroundings alone.  The
    file cannot be opened or its size cannot be had (Opening); the file
    breaks off before its end (Encoding); the URL is refused or the
    request gets no response (Sending); the response body breaks off
    (Receiving).  The status code of the response plays no part. *)
Definition first_failure (env : Env) : option Step :=
  match os_Open env (flag_file env) with
  | inl _ => Some Opening
  | inr file =>
      match Stat file with
      | inl _ => Some Opening
      | inr _ =>
          if is_EOF (ending (contents file)) then
            match NewRequest_error env (flag_url env) with
            | Some _ => Some Sending
            | None =>
                match client_Do env (request_for env file) with
                | inl _ => Some Sending
                | inr resp =>
                    if is_EOF (ending (Body resp)) then None
                    else Some Receiving
                end
            end
          else Some Encoding
      end
  end.

(** ** The backup script ([save.sh])

    The script runs under [set -e].  A command that fails ends the script
    with the command's status, unless it is the condition of an [if], a
    command of a pipeline other than the last, or a command substitution
    in the argument of [local] or of another command.  Writing a message
    to standard output ([print_msg]) is taken to succeed, and a command
    that is run more than once in a function to end with the same status
    each time. *)

Module save_sh.

(** The messages of [print_msg], each with the line of the script that
    prints it; the colour is left out. *)
Inductive Msg : Type :=
| MsgNotInstalled    (* 34 *)
| MsgNoSpace         (* 46 *)
| MsgDataSize        (* 47 *)
| MsgAvailable       (* 48 *)
| MsgRequired        (* 49 *)
| MsgSpaceChecked    (* 52 *)
| MsgPreCheck        (* 57 *)
| MsgNotRunning      (* 67 *)
| MsgNoDataDir       (* 73 *)
| MsgPreChecked      (* 80 *)
| MsgMetadata        (* 93 *)
| MsgContainerConfig (* 96 *)
| MsgSecrets         (* 101 *)
| MsgSecretsSaved    (* 104 *)
| MsgNoSecrets       (* 106 *)
| MsgConfig          (* 110 *)
| MsgConfigSaved     (* 113 *)
| MsgAppBackup       (* 123 *)
| MsgMaintenance     (* 126 *)
| MsgCreating        (* 130 *)
| MsgCreated         (* 143 *)
| MsgBackupSize      (* 150 *)
| MsgNoBackupFile    (* 152 *)
| MsgBackupData      (* 161 *)
| MsgStopping        (* 164 *)
| MsgCopying         (* 171 *)
| MsgStartTime       (* 172, 420 *)
| MsgEndTime         (* 184 *)
| MsgCopied          (* 185 *)
| MsgStarting        (* 188 *)
| MsgStarted         (* 196 *)
| MsgStartDoubtful   (* 198 *)
| MsgRule            (* 418, 421, 447, 452 *)
| MsgTitle           (* 419 *)
| MsgAskArchive      (* 434 *)
| MsgArchiveAt       (* 440 *)
| MsgDone            (* 448 *)
| MsgElapsed         (* 449 *)
| MsgBackupDir       (* 450 *)
| MsgLogFile         (* 451 *)
| MsgDiskUsage       (* 455 *).

(** *** The script as a process *)

(** The script's functions that are called from [main]. *)
Inductive Fn : Type :=
| fn_pre_backup_check | fn_create_backup_dir | fn_backup_metadata
| fn_create_gitlab_backup | fn_backup_data_directories
| fn_generate_recovery_guide | fn_create_archive | fn_cleanup_old_backups
| fn_generate_summary.

(** The commands that are run; [call f] is a call of a function of the
    script taken as a whole, whose status is not zero when the script
    does not get past it. *)
Inductive Cmd : Type :=
| command_v (name : string) | docker_ps | grep | du | awk | df | bc
| docker_inspect | docker_logs_500 | test_secrets | cat_secrets
| cp_config | cat_manifest | docker_images
| deploy_page_up | gitlab_backup_create | tee | newest_backup_file
| basename | cp_backup | ls_backup | deploy_page_down
| docker_stop | sleep (seconds : Z) | date | rsync | docker_start
| docker_logs
| call (f : Fn) | redirect_output | read_choice.

Arguments command_v name%_string.

Record Shell : Type := mkShell {
  ran : list Cmd;
  said : list Msg;
  exited : option Z
}.

Definition begin : Shell := mkShell [] [] None.

(** A piece of script: it yields a value, or the script has exited
    ([None]). *)
Definition Sh (A : Type) : Type := Shell -> option A * Shell.

Definition ret {A} (a : A) : Sh A := fun s => (Some a, s).

Definition bind {A B} (m : Sh A) (k : A -> Sh B) : Sh B :=
  fun s => match m s with
           | (Some a, s') => k a s'
           | (None, s') => (None, s')
           end.

Declare Scope sh_scope.
Delimit Scope sh_scope with sh.
Notation "x <- m ;; k" := (bind m (fun x => k))
  (at level 61, m at next level, right associativity) : sh_scope.
Notation "m ;; k" := (bind m (fun _ => k))
  (at level 61, right associativity) : sh_scope.
Local Open Scope sh_scope.

Definition print_msg (m : Msg) : Sh unit :=
  fun s => (Some tt, mkShell (ran s) (said s ++ [m]) (exited s)).

Definition exit {A} (code : Z) : Sh A :=
  fun s => (None, mkShell (ran s) (said s) (Some code)).

(** Running a command gives its status; [st] is the status each command
    ends with. *)
Definition exec (st : Cmd -> Z) (c : Cmd) : Sh Z :=
  fun s => (Some (st c), mkShell (ran s ++ [c]) (said s) (exited s)).

(** [set -e] *)
Definition errexit (code : Z) : Sh unit :=
  if code =? 0 then ret tt else exit code.

(** A command on a line of its own. *)
Definition simple (st : Cmd -> Z) (c : Cmd) : Sh unit :=
  code <- exec st c ;; errexit code.

(** [c1 | c2]: the status is that of [c2]. *)
Definition pipe (st : Cmd -> Z) (c1 c2 : Cmd) : Sh Z :=
  exec st c1 ;; exec st c2.

(** [$(c)] in the argument of [local] or of a command: the status of [c]
    is dropped. *)
Definition substitution (st : Cmd -> Z) (c : Cmd) : Sh unit :=
  exec st c ;; ret tt.

(** *** [check_command] (save.sh:32-37) *)
Definition check_command (st : Cmd -> Z) (name : string) : Sh unit :=
  found <- exec st (command_v name) ;;
  if negb (found =? 0) then print_msg MsgNotInstalled ;; exit 1
  else ret tt.

Arguments check_command st name%_string.

(** *** [check_disk_space] (save.sh:40-53)

    [data_size] and [available_space] are the numbers that [du] and [df]
    print. *)

(** [$((data_size * 120 / 100))]: shell arithmetic is that of 64-bit
    signed integers; the product wraps around and the division
    truncates. *)
Definition required_space (data_size : Z) : Z :=
  Z.quot (Int64.wrap (data_size * 120)) 100.

Definition check_disk_space (st : Cmd -> Z) (data_size available_space : Z)
  : Sh unit :=
  pipe st du awk ;;
  pipe st df awk ;;
  if available_space <? required_space data_size then
    print_msg MsgNoSpace ;;
    substitution st bc ;;
    print_msg MsgDataSize ;;
    substitution st bc ;;
    print_msg MsgAvailable ;;
    substitution st bc ;;
    print_msg MsgRequired ;;
    exit 1
  else print_msg MsgSpaceChecked.

(** *** [pre_backup_check] (save.sh:56-81)

    [has_data_dir] tells whether the data directory exists. *)
Definition pre_backup_check (st : Cmd -> Z) (has_data_dir : bool)
           (data_size available_space : Z) : Sh unit :=
  print_msg MsgPreCheck ;;
  check_command st "docker" ;;
  check_command st "rsync" ;;
  check_command st "tar" ;;
  check_command st "du" ;;
  running <- pipe st docker_ps grep ;;
  (if negb (running =? 0) then print_msg MsgNotRunning ;; exit 1
   else ret tt) ;;
  (if negb has_data_dir then print_msg MsgNoDataDir ;; exit 1
   else ret tt) ;;
  check_disk_space st data_size available_space ;;
  print_msg MsgPreChecked.

(** *** [backup_metadata] (save.sh:92-119)

    [has_config] tells whether [gitlab.rb] exists in the data
    directory. *)
Definition backup_metadata (st : Cmd -> Z) (has_config : bool) : Sh unit :=
  print_msg MsgMetadata ;;
  print_msg MsgContainerConfig ;;
  simple st docker_inspect ;;
  simple st docker_logs_500 ;;
  print_msg MsgSecrets ;;
  has_secrets <- exec st test_secrets ;;
  (if has_secrets =? 0 then
     simple st cat_secrets ;;
     print_msg MsgSecretsSaved
   else print_msg MsgNoSecrets) ;;
  print_msg MsgConfig ;;
  (if has_config then
     simple st cp_config ;;
     print_msg MsgConfigSaved
   else ret tt) ;;
  exec st cat_manifest ;;
  listed <- pipe st docker_images grep ;;
  errexit listed.

(** *** [create_gitlab_backup] (save.sh:122-157)

    [found] tells whether the listing of backup files in the container
    printed a name. *)
Definition create_gitlab_backup (st : Cmd -> Z) (found : bool) : Sh unit :=
  print_msg MsgAppBackup ;;
  print_msg MsgMaintenance ;;
  simple st deploy_page_up ;;
  print_msg MsgCreating ;;
  code <- pipe st gitlab_backup_create tee ;;
  errexit code ;;
  substitution st newest_backup_file ;;
  (if found then
     substitution st basename ;;
     print_msg MsgCreated ;;
     simple st cp_backup ;;
     pipe st ls_backup awk ;;
     print_msg MsgBackupSize
   else
     print_msg MsgNoBackupFile) ;;
  simple st deploy_page_down.

(** *** [backup_data_directories] (save.sh:160-201) *)
Definition backup_data_directories (st : Cmd -> Z) : Sh unit :=
  print_msg MsgBackupData ;;
  print_msg MsgStopping ;;
  simple st docker_stop ;;
  simple st (sleep 30) ;;
  print_msg MsgCopying ;;
  substitution st date ;;
  print_msg MsgStartTime ;;
  code <- pipe st rsync tee ;;
  errexit code ;;
  substitution st date ;;
  print_msg MsgEndTime ;;
  print_msg MsgCopied ;;
  print_msg MsgStarting ;;
  simple st docker_start ;;
  simple st (sleep 10) ;;
  running <- pipe st docker_ps grep ;;
  if running =? 0 then print_msg MsgStarted
  else print_msg MsgStartDoubtful ;; simple st docker_logs.

(** *** [main] (save.sh:417-457)

    [answer] is what [read] leaves in [compress_choice]. *)

(** [${compress_choice:-n}] *)
Definition or_default (answer : list byte) : list byte :=
  match answer with
  | [] => bytes_of "n"
  | _ => answer
  end.

(** [[[ $compress_choice =~ ^[Yy]$ ]]] *)
Definition matches_Yy (s : list byte) : bool :=
  match s with
  | [c] => byte_eqb c "Y"%byte || byte_eqb c "y"%byte
  | _ => false
  end.

Definition main (st : Cmd -> Z) (answer : list byte) : Sh unit :=
  print_msg MsgRule ;;
  print_msg MsgTitle ;;
  substitution st date ;;
  print_msg MsgStartTime ;;
  print_msg MsgRule ;;
  simple st (call fn_pre_backup_check) ;;
  simple st (call fn_create_backup_dir) ;;
  simple st redirect_output ;;
  simple st (call fn_backup_metadata) ;;
  simple st (call fn_create_gitlab_backup) ;;
  simple st (call fn_backup_data_directories) ;;
  simple st (call fn_generate_recovery_guide) ;;
  print_msg MsgAskArchive ;;
  simple st read_choice ;;
  let compress_choice := or_default answer in
  (if matches_Yy compress_choice then
     simple st (call fn_create_archive) ;;
     print_msg MsgArchiveAt
   else ret tt) ;;
  simple st (call fn_cleanup_old_backups) ;;
  simple st (call fn_generate_summary) ;;
  print_msg MsgRule ;;
  print_msg MsgDone ;;
  print_msg MsgElapsed ;;
  print_msg MsgBackupDir ;;
  print_msg MsgLogFile ;;
  print_msg MsgRule ;;
  print_msg MsgDiskUsage ;;
  simple st df.

(** A run from the start: what has been run and said, and the status
    the script has exited with, if it has. *)
Definition outcome (body : Sh unit) : Shell := snd (body begin).

(** Whether the piece of script came to its end. *)
Definition completes (body : Sh unit) : bool :=
  match fst (body begin) with Some _ => true | None => false end.

(** The steps of [main] up to the question about the archive have all
    gone through. *)
Definition backups_done (st : Cmd -> Z) : Prop :=
  st (call fn_pre_backup_check) = 0
  /\ st (call fn_create_backup_dir) = 0
  /\ st redirect_output = 0
  /\ st (call fn_backup_metadata) = 0
  /\ st (call fn_create_gitlab_backup) = 0
  /\ st (call fn_backup_data_directories) = 0
  /\ st (call fn_generate_recovery_guide) = 0.

(** Sample statuses: every command succeeds; every command succeeds but
    for [read], which times out (142). *)
Definition all_succeed : Cmd -> Z := fun _ => 0.

Definition read_times_out : Cmd -> Z :=
  fun c => match c with read_choice => 142 | _ => 0 end.

End save_sh.

(** * Properties *)

(** ** 64-bit arithmetic *)

Ltac int64_lia :=
  unfold Int64.in_range, Int64.min_int, Int64.max_int in *; lia.

Lemma wrap_in_range z : Int64.in_range (Int64.wrap z).
Proof.
  unfold Int64.in_range, Int64.wrap, Int64.min_int, Int64.max_int.
  pose proof (Z.mod_pos_bound (z + 2 ^ 63) (2 ^ 64) ltac:(lia)). lia.
Qed.

Lemma wrap_small z : Int64.in_range z -> Int64.wrap z = z.
Proof.
  unfold Int64.in_range, Int64.wrap, Int64.min_int, Int64.max_int.
  intros Hz. rewrite Z.mod_small; lia.
Qed.

Lemma add_small a b : Int64.in_range (a + b) -> Int64.add a b = a + b.
Proof. apply wrap_small. Qed.

(** ** One call of [ProgressReader.Read] *)

Section ReadOnce.

Context {R : Type} `{Reader R} {W : Type}.
Implicit Types (pr : ProgressReader R W) (w : W).

(** The three components of a call, spelled out. *)
Lemma Read_result pr len_p w :
  fst (fst (ProgressReader_Read pr len_p w)) = fst (Read (Reader_ pr) len_p).
Proof.
  unfold ProgressReader_Read. destruct (Read (Reader_ pr) len_p); reflexivity.
Qed.

Lemma Read_state pr len_p w :
  snd (fst (ProgressReader_Read pr len_p w)) =
  mkProgressReader (snd (Read (Reader_ pr) len_p)) (Size pr)
    (Int64.add (read pr) (n_ (fst (Read (Reader_ pr) len_p))))
    (OnProgress pr).
Proof.
  unfold ProgressReader_Read. destruct (Read (Reader_ pr) len_p); reflexivity.
Qed.

Lemma Read_sink pr len_p w :
  snd (ProgressReader_Read pr len_p w) =
  match OnProgress pr with
  | Some f =>
      if 0 <? Size pr
      then f (progress_of
                (Int64.add (read pr) (n_ (fst (Read (Reader_ pr) len_p))))
                (Size pr)) w
      else w
  | None => w
  end.
Proof.
  unfold ProgressReader_Read. destruct (Read (Reader_ pr) len_p); reflexivity.
Qed.

(** Claim C7.  A call of [ProgressReader.Read] hands back exactly what the
    one call of the wrapped reader's [Read] returned (bytes, [n] and
    status, end of stream and failures included) and leaves the wrapped
    reader where that single call left it; the count becomes the old
    count plus [n] in [int64] arithmetic (the plain sum whenever that
    fits); and the sink is changed by exactly one update carrying
    [float64(read)/float64(Size)*100] when a callback is set and
    [Size > 0], and is untouched otherwise. *)
Theorem C7_Read_delegates_counts_emits pr len_p w :
  let inner := Read (Reader_ pr) len_p in
  let out := ProgressReader_Read pr len_p w in
  let pr' := snd (fst out) in
  fst (fst out) = fst inner
  /\ Reader_ pr' = snd inner
  /\ Size pr' = Size pr
  /\ OnProgress pr' = OnProgress pr
  /\ read pr' = Int64.add (read pr) (n_ (fst inner))
  /\ (Int64.in_range (read pr + n_ (fst inner)) ->
      read pr' = read pr + n_ (fst inner))
  /\ snd out =
     match OnProgress pr with
     | Some f =>
         if 0 <? Size pr
         then f (Float64.mul
                   (Float64.div (Float64.of_int64 (read pr'))
                                (Float64.of_int64 (Size pr)))
                   (Float64.of_int64 100)) w
         else w
     | None => w
     end.
Proof.
  cbv zeta. rewrite Read_result, Read_state, Read_sink.
  cbn [Reader_ Size OnProgress read].
  repeat split; try reflexivity.
  intros Hr. now apply add_small.
Qed.

(** Claim C10.  When the wrapped reader returns [n > 0] together with an
    error, the [n] bytes are still counted, the callback (if set, with
    [Size > 0]) still runs for that read, and the caller gets the same
    [n] and the same error. *)
Theorem C10_counts_bytes_of_failing_read pr len_p w res r' e :
  Read (Reader_ pr) len_p = (res, r') ->
  0 < n_ res ->
  err_ res = Some e ->
  let out := ProgressReader_Read pr len_p w in
  let pr' := snd (fst out) in
  fst (fst out) = res
  /\ err_ (fst (fst out)) = Some e
  /\ read pr' = Int64.add (read pr) (n_ res)
  /\ (Int64.in_range (read pr + n_ res) -> read pr < read pr')
  /\ (forall f, OnProgress pr = Some f -> 0 < Size pr ->
      snd out = f (progress_of (read pr') (Size pr)) w).
Proof.
  intros Hread Hn He. cbv zeta.
  rewrite Read_result, Read_state, Read_sink, Hread. cbn.
  repeat split; auto.
  - intros Hr. rewrite add_small by exact Hr. lia.
  - intros f Hf Hs. rewrite Hf.
    destruct (Z.ltb_spec 0 (Size pr)); [reflexivity | lia].
Qed.

End ReadOnce.

(** ** Sequences of calls *)

Lemma Zsum_cons (n : Z) (ns : list Z) : Zsum (n :: ns) = n + Zsum ns.
Proof. reflexivity. Qed.

Lemma Zsum_nonneg (ns : list Z) : Forall (fun n => 0 <= n) ns -> 0 <= Zsum ns.
Proof.
  induction 1 as [|n ns Hn _ IH]; [reflexivity|]. rewrite Zsum_cons. lia.
Qed.

Lemma fold_add_exact (ns : list Z) (r0 : Z) :
  Forall (fun n => 0 <= n) ns -> 0 <= r0 ->
  r0 + Zsum ns <= Int64.max_int ->
  fold_left Int64.add ns r0 = r0 + Zsum ns.
Proof.
  revert r0. induction ns as [|n ns IH]; intros r0 Hns Hr0 Hmax.
  - cbn. lia.
  - inversion Hns as [|? ? Hn Hns']; subst.
    rewrite Zsum_cons in *. pose proof (Zsum_nonneg ns Hns').
    cbn [fold_left]. rewrite add_small.
    + rewrite IH; auto; lia.
    + int64_lia.
Qed.

Section ReadMany.

Context {R : Type} `{Reader R} {W : Type}.
Implicit Types (pr : ProgressReader R W) (w : W).

Lemma reads_step pr len_p bufs w :
  reads pr (len_p :: bufs) w =
  let out := ProgressReader_Read pr len_p w in
  let rest := reads (snd (fst out)) bufs (snd out) in
  (fst (fst out) :: fst (fst rest), snd (fst rest), snd rest).
Proof.
  cbn [reads]. destruct (ProgressReader_Read pr len_p w) as [[res pr1] w1].
  cbn. destruct (reads pr1 bufs w1) as [[rs pr2] w2]. reflexivity.
Qed.

Lemma counts_step pr len_p bufs w :
  counts pr (len_p :: bufs) w =
  let out := ProgressReader_Read pr len_p w in
  read (snd (fst out)) :: counts (snd (fst out)) bufs (snd out).
Proof.
  cbn [counts]. destruct (ProgressReader_Read pr len_p w) as [[res pr1] w1].
  reflexivity.
Qed.

Lemma Read_seq_step (r : R) len_p bufs :
  Read_seq r (len_p :: bufs) =
  let out := Read r len_p in
  let rest := Read_seq (snd out) bufs in
  (fst out :: fst rest, snd rest).
Proof.
  cbn [Read_seq]. destruct (Read r len_p) as [res r1]. cbn.
  destruct (Read_seq r1 bufs). reflexivity.
Qed.

(** The wrapper is transparent: callers see the results of the wrapped
    reader, which is advanced by the same calls. *)
Lemma reads_transparent pr bufs w :
  fst (fst (reads pr bufs w)) = fst (Read_seq (Reader_ pr) bufs)
  /\ Reader_ (snd (fst (reads pr bufs w))) = snd (Read_seq (Reader_ pr) bufs).
Proof.
  revert pr w. induction bufs as [|len_p bufs IH]; intros pr w.
  - split; reflexivity.
  - rewrite reads_step, Read_seq_step. cbv zeta. cbn [fst snd].
    rewrite Read_result.
    specialize (IH (snd (fst (ProgressReader_Read pr len_p w)))
                   (snd (ProgressReader_Read pr len_p w))).
    rewrite Read_state in IH at 2 4. cbn [Reader_] in IH.
    destruct IH as [IH1 IH2]. rewrite IH1, IH2. split; reflexivity.
Qed.

Lemma reads_fields pr bufs w :
  Size (snd (fst (reads pr bufs w))) = Size pr
  /\ OnProgress (snd (fst (reads pr bufs w))) = OnProgress pr.
Proof.
  revert pr w. induction bufs as [|len_p bufs IH]; intros pr w.
  - split; reflexivity.
  - rewrite reads_step. cbv zeta. cbn [fst snd].
    destruct (IH (snd (fst (ProgressReader_Read pr len_p w)))
                 (snd (ProgressReader_Read pr len_p w))) as [IH1 IH2].
    rewrite IH1, IH2, Read_state. split; reflexivity.
Qed.

(** The count after a sequence of calls is the starting count with every
    returned [n] added, in [int64] arithmetic. *)
Lemma reads_count pr bufs w :
  read (snd (fst (reads pr bufs w))) =
  fold_left Int64.add (map n_ (fst (fst (reads pr bufs w)))) (read pr).
Proof.
  revert pr w. induction bufs as [|len_p bufs IH]; intros pr w.
  - reflexivity.
  - rewrite reads_step. cbv zeta. cbn [fst snd map fold_left].
    rewrite IH. f_equal. rewrite Read_state, Read_result. reflexivity.
Qed.

Lemma reads_silent pr bufs w :
  Size pr <= 0 -> snd (reads pr bufs w) = w.
Proof.
  revert pr w. induction bufs as [|len_p bufs IH]; intros pr w Hs.
  - reflexivity.
  - rewrite reads_step. cbv zeta. cbn [snd].
    rewrite IH by (rewrite Read_state; exact Hs).
    rewrite Read_sink.
    destruct (OnProgress pr); [|reflexivity].
    destruct (Z.ltb_spec 0 (Size pr)); [lia | reflexivity].
Qed.

(** Claim C8.  With [Size <= 0] no read ever reaches the progress sink,
    whatever callback is installed, while the count still takes in every
    [n] the wrapped reader returns: it is the starting count plus their
    sum (in [int64] arithmetic, and exactly so while the sum fits), and
    the caller sees the wrapped reader's results unchanged. *)
Theorem C8_unknown_size_is_silent_but_counts pr bufs w :
  Size pr <= 0 ->
  let out := reads pr bufs w in
  let rs := fst (fst out) in
  snd out = w
  /\ rs = fst (Read_seq (Reader_ pr) bufs)
  /\ read (snd (fst out)) = fold_left Int64.add (map n_ rs) (read pr)
  /\ (Forall (fun n => 0 <= n) (map n_ rs) -> 0 <= read pr ->
      read pr + Zsum (map n_ rs) <= Int64.max_int ->
      read (snd (fst out)) = read pr + Zsum (map n_ rs)).
Proof.
  intros Hs. cbv zeta. split; [now apply reads_silent|].
  split; [apply reads_transparent|].
  split; [apply reads_count|].
  intros Hn H0 Hmax. rewrite reads_count. now apply fold_add_exact.
Qed.

End ReadMany.

(** ** Draining a finite source *)

Lemma granted_bounds (s : Source) (len_p : nat) :
  pending s <> [] -> (0 < len_p)%nat ->
  (1 <= granted s len_p <= Nat.min len_p (length (pending s)))%nat.
Proof.
  intros Hne Hp. unfold granted.
  assert (0 < length (pending s))%nat.
  { destruct (pending s); [congruence | cbn; lia]. }
  lia.
Qed.

Lemma Source_Read_empty (s : Source) (len_p : nat) :
  pending s = [] ->
  Read s len_p = (mkResult [] 0 (Some (ending s)), s).
Proof.
  intros He. unfold Read, Source_Reader, Source_Read. rewrite He. reflexivity.
Qed.

Lemma Source_Read_some (s : Source) (len_p : nat) :
  pending s <> [] ->
  Read s len_p =
  (mkResult (firstn (granted s len_p) (pending s))
            (Z.of_nat (granted s len_p))
            (if eager s && (length (skipn (granted s len_p) (pending s)) =? 0)%nat
             then Some (ending s) else None),
   mkSource (skipn (granted s len_p) (pending s)) (grant s) (eager s)
            (ending s)).
Proof.
  intros Hne. unfold Read, Source_Reader, Source_Read.
  destruct (pending s) eqn:E; [congruence | reflexivity].
Qed.

(** A [Source] keeps to [io.Reader]'s contract. *)
Lemma Source_contract (s : Source) (len_p : nat) :
  contract len_p (fst (Read s len_p)).
Proof.
  destruct (pending s) eqn:E.
  - rewrite Source_Read_empty by exact E. split; cbn; lia.
  - assert (Hne : pending s <> []) by (rewrite E; discriminate).
    rewrite Source_Read_some by exact Hne. cbn [fst].
    unfold contract. cbn [n_ stored]. rewrite length_firstn.
    unfold granted. split; lia.
Qed.

Section Drain.

Context {W : Type}.
Implicit Types (pr : ProgressReader Source W) (w : W).

Lemma drain_step pr len_p bufs w :
  drain pr (len_p :: bufs) w =
  let out := ProgressReader_Read pr len_p w in
  match err_ (fst (fst out)) with
  | Some e => (Some e, snd (fst out), snd out)
  | None => drain (snd (fst out)) bufs (snd out)
  end.
Proof.
  cbn [drain]. destruct (ProgressReader_Read pr len_p w) as [[res pr1] w1].
  reflexivity.
Qed.

(** Draining from any starting count: the source's own final status comes
    back, nothing is left pending and the count has grown by the number
    of bytes the source held. *)
Lemma drain_Source pr bufs w :
  0 <= read pr ->
  read pr + Z.of_nat (length (pending (Reader_ pr))) <= Int64.max_int ->
  Forall (fun b => (0 < b)%nat) bufs ->
  (length (pending (Reader_ pr)) < length bufs)%nat ->
  let out := drain pr bufs w in
  fst (fst out) = Some (ending (Reader_ pr))
  /\ read (snd (fst out)) =
     read pr + Z.of_nat (length (pending (Reader_ pr)))
  /\ pending (Reader_ (snd (fst out))) = [].
Proof.
  revert pr w. induction bufs as [|len_p bufs IH]; intros pr w H0 Hmax Hpos Hlen.
  - cbn in Hlen. lia.
  - inversion Hpos as [|? ? Hp Hpos']; subst.
    rewrite drain_step. cbv zeta. rewrite Read_result, Read_state, Read_sink.
    destruct (pending (Reader_ pr)) eqn:E.
    + rewrite Source_Read_empty by exact E. cbn.
      rewrite E. cbn. rewrite add_small.
      * repeat split; lia.
      * cbn [length] in Hmax. int64_lia.
    + assert (Hne : pending (Reader_ pr) <> []) by (rewrite E; discriminate).
      pose proof (granted_bounds (Reader_ pr) len_p Hne Hp) as Hk.
      rewrite Source_Read_some by exact Hne. rewrite <- E in *.
      set (k := granted (Reader_ pr) len_p) in *.
      cbn [fst snd err_ n_].
      assert (Hskip : length (skipn k (pending (Reader_ pr))) =
                      (length (pending (Reader_ pr)) - k)%nat)
        by apply length_skipn.
      assert (Hadd : Int64.add (read pr) (Z.of_nat k) = read pr + Z.of_nat k).
      { apply add_small. int64_lia. }
      destruct (eager (Reader_ pr)
                && (length (skipn k (pending (Reader_ pr))) =? 0)%nat) eqn:Ee.
      * apply andb_prop in Ee. destruct Ee as [_ Ee].
        apply Nat.eqb_eq in Ee. cbn [fst snd read Reader_ pending].
        rewrite Hadd. repeat split.
        -- lia.
        -- destruct (skipn k (pending (Reader_ pr))); [reflexivity | discriminate].
      * rewrite Hadd.
        match goal with
        | |- context [drain ?p bufs ?w'] => specialize (IH p w')
        end.
        cbn [read Reader_ pending ending] in IH.
        rewrite Hskip in IH.
        destruct IH as (I1 & I2 & I3); try assumption; try lia.
        { cbn [length] in Hlen. lia. }
        repeat split; try assumption. rewrite I2. lia.
Qed.

(** Claim C4.  A source that holds [S] bytes and ends with [EOF], drained
    through a [ProgressReader] that starts at zero, leaves [read = S]:
    for every content, every way the source splits its bytes over the
    calls, and every choice of (non-empty) buffers by the caller that is
    long enough to reach the end. *)
Theorem C4_drained_count_is_source_size
        (data : list byte) (g : nat -> nat -> nat) (eg : bool) (size : Z)
        (cb : option (Float64.t -> W -> W)) (bufs : list nat) w :
  Z.of_nat (length data) <= Int64.max_int ->
  Forall (fun b => (0 < b)%nat) bufs ->
  (length data < length bufs)%nat ->
  let out := drain (mkProgressReader (mkSource data g eg EOF) size 0 cb)
                   bufs w in
  fst (fst out) = Some EOF
  /\ read (snd (fst out)) = Z.of_nat (length data)
  /\ pending (Reader_ (snd (fst out))) = [].
Proof.
  intros Hmax Hpos Hlen.
  apply (drain_Source (mkProgressReader (mkSource data g eg EOF) size 0 cb));
    cbn [read Reader_ pending]; auto; lia.
Qed.

End Drain.

(** ** [io.ReadAll] and [io.Copy] on finite sources *)

Lemma copy_buf_len_pos : (0 < copy_buf_len)%nat.
Proof. unfold copy_buf_len. lia. Qed.

Lemma Source_Read_in_buffer (s : Source) (len_p : nat) :
  0 <= n_ (fst (Read s len_p)) <= Z.of_nat len_p.
Proof.
  destruct (Source_contract s len_p) as [Hn Hl]. rewrite Hn. lia.
Qed.

Section ReadAllSource.

Variable slack_ : nat -> nat.

(** Reading a finite source to its end returns all its bytes after what
    the slice already held, and the source's final status with [EOF]
    turned into [nil]. *)
Lemma ReadAll_loop_Source (fuel : nat) (s : Source) (b : list byte)
      (cap : nat) :
  (length (pending s) < fuel)%nat ->
  (length b < cap)%nat ->
  ReadAll_loop slack_ fuel s b cap =
  Some (b ++ pending s, eof_to_nil (ending s),
        mkSource [] (grant s) (eager s) (ending s)).
Proof.
  revert s b cap. induction fuel as [|fuel IH]; intros s b cap Hf Hc; [lia|].
  cbn [ReadAll_loop].
  pose proof (Source_Read_in_buffer s (cap - length b)) as Hin.
  destruct (pending s) eqn:E.
  - rewrite Source_Read_empty in * by exact E. cbn.
    replace (Z.of_nat (cap - length b) <? 0) with false
      by (symmetry; apply Z.ltb_ge; lia).
    rewrite app_nil_r. destruct s; cbn in *; subst; reflexivity.
  - assert (Hne : pending s <> []) by (rewrite E; discriminate).
    pose proof (granted_bounds s (cap - length b) Hne ltac:(lia)) as Hk.
    rewrite Source_Read_some in * by exact Hne. rewrite <- E in *.
    set (k := granted s (cap - length b)) in *. cbn [fst snd n_ err_ stored] in *.
    destruct ((Z.of_nat k <? 0) || (Z.of_nat (cap - length b) <? Z.of_nat k)) eqn:Eb.
    { apply orb_prop in Eb. destruct Eb as [Eb|Eb]; apply Z.ltb_lt in Eb; lia. }
    assert (Hskip : length (skipn k (pending s)) = (length (pending s) - k)%nat)
      by apply length_skipn.
    assert (Hcat : (b ++ firstn k (pending s)) ++ skipn k (pending s)
                   = b ++ pending s).
    { rewrite <- app_assoc, firstn_skipn. reflexivity. }
    destruct (eager s && (length (skipn k (pending s)) =? 0)%nat) eqn:Ee.
    + apply andb_prop in Ee. destruct Ee as [_ Ee]. apply Nat.eqb_eq in Ee.
      destruct (skipn k (pending s)) eqn:Es; [|discriminate].
      rewrite app_nil_r in Hcat. rewrite Hcat. reflexivity.
    + rewrite IH.
      * cbn [pending grant eager ending]. rewrite Hcat. reflexivity.
      * cbn [pending]. lia.
      * rewrite length_app, length_firstn.
        destruct (Nat.eqb_spec
                    (length b + Nat.min k (length (pending s))) cap); lia.
Qed.

(** The same through [progressbar.Reader]: same bytes, same status, and
    the bar has been given every byte. *)
Lemma ReadAll_loop_metered (fuel : nat) (s : Source)
      (bar : progressbar.ProgressBar) (b : list byte) (cap : nat) :
  (length (pending s) < fuel)%nat ->
  (length b < cap)%nat ->
  exists bar',
    ReadAll_loop slack_ fuel (progressbar.NewReader s bar) b cap =
    Some (b ++ pending s, eof_to_nil (ending s),
          progressbar.mkReader
            (mkSource [] (grant s) (eager s) (ending s)) bar')
    /\ progressbar.max bar' = progressbar.max bar
    /\ (0 <= progressbar.total bar ->
        progressbar.total bar + Z.of_nat (length (pending s))
        <= Int64.max_int ->
        progressbar.total bar' =
        progressbar.total bar + Z.of_nat (length (pending s))).
Proof.
  revert s bar b cap.
  induction fuel as [|fuel IH]; intros s bar b cap Hf Hc; [lia|].
  cbn [ReadAll_loop]. unfold progressbar.NewReader.
  unfold Read at 1, pbReader_Reader, progressbar.Reader_Read.
  cbn [progressbar.inner progressbar.bar].
  pose proof (Source_Read_in_buffer s (cap - length b)) as Hin.
  destruct (pending s) eqn:E.
  - rewrite Source_Read_empty in * by exact E.
    cbn [progressbar.Add fst snd n_ err_ stored].
    cbn [orb Z.ltb Z.compare].
    replace (Z.of_nat (cap - length b) <? 0) with false
      by (symmetry; apply Z.ltb_ge; lia).
    eexists. split; [|split].
    + rewrite app_nil_r. destruct s; cbn in *; subst; reflexivity.
    + reflexivity.
    + cbn [progressbar.total length Z.of_nat]. intros H0 Hmax.
      rewrite add_small by int64_lia. reflexivity.
  - assert (Hne : pending s <> []) by (rewrite E; discriminate).
    pose proof (granted_bounds s (cap - length b) Hne ltac:(lia)) as Hk.
    rewrite Source_Read_some in * by exact Hne. rewrite <- E in *.
    set (k := granted s (cap - length b)) in *.
    cbn [progressbar.Add fst snd n_ err_ stored] in *.
    destruct ((Z.of_nat k <? 0) || (Z.of_nat (cap - length b) <? Z.of_nat k)) eqn:Eb.
    { apply orb_prop in Eb. destruct Eb as [Eb|Eb]; apply Z.ltb_lt in Eb; lia. }
    assert (Hskip : length (skipn k (pending s)) = (length (pending s) - k)%nat)
      by apply length_skipn.
    assert (Hcat : (b ++ firstn k (pending s)) ++ skipn k (pending s)
                   = b ++ pending s).
    { rewrite <- app_assoc, firstn_skipn. reflexivity. }
    destruct (eager s && (length (skipn k (pending s)) =? 0)%nat) eqn:Ee.
    + apply andb_prop in Ee. destruct Ee as [_ Ee]. apply Nat.eqb_eq in Ee.
      destruct (skipn k (pending s)) eqn:Es; [|discriminate].
      rewrite app_nil_r in Hcat. rewrite Hcat.
      cbn [length] in Hskip.
      eexists. split; [reflexivity|]. split; [reflexivity|].
      cbn [progressbar.total]. intros H0 Hmax.
      rewrite add_small by int64_lia. lia.
    + change (progressbar.mkReader ?r ?br) with (progressbar.NewReader r br).
      match goal with
      | |- context [ReadAll_loop slack_ fuel (progressbar.NewReader ?s' ?b') ?bs ?c] =>
          destruct (IH s' b' bs c) as (bar' & Hrun & Hmx & Htot)
      end.
      * cbn [pending]. lia.
      * rewrite length_app, length_firstn.
        destruct (Nat.eqb_spec
                    (length b + Nat.min k (length (pending s))) cap); lia.
      * exists bar'.
        cbn [pending grant eager ending progressbar.max
               progressbar.total] in *.
        split; [|split; [exact Hmx|]].
        -- etransitivity; [exact Hrun|]. rewrite Hcat. reflexivity.
        -- intros H0 Hmax. rewrite add_small in Htot by int64_lia.
           rewrite Htot; lia.
Qed.

End ReadAllSource.

Lemma tee_Read (s : Source) (bar : progressbar.ProgressBar) (len_p : nat) :
  Read (mkTee s bar) len_p =
  let res := fst (Read s len_p) in
  let s' := snd (Read s len_p) in
  if 0 <? n_ res then
    let bar' := snd (progressbar.Add bar (Z.of_nat (length (stored res)))) in
    match progressbar.refuses bar (progressbar.total bar)
                              (Z.of_nat (length (stored res))) with
    | Some e => (mkResult (stored res) (Z.of_nat (length (stored res)))
                          (Some e), mkTee s' bar')
    | None => (res, mkTee s' bar')
    end
  else (res, mkTee s' bar).
Proof.
  unfold Read at 1, teeReader_Reader, teeReader_Read. cbn [tee_r tee_w].
  destruct (Read s len_p) as [res s']. cbn [fst snd].
  destruct (0 <? n_ res); [|reflexivity].
  unfold Write, Bar_Writer, progressbar.Bar_Write, progressbar.Add.
  cbn [fst snd].
  destruct (progressbar.refuses bar (progressbar.total bar)
                                (Z.of_nat (length (stored res)))); reflexivity.
Qed.

(** [io.Copy] from a finite source, teed into a progress bar, to a part of
    the multipart writer: the loop always comes to an end; and when the
    bar accepts every write, the part has received exactly the source's
    bytes and the error is the source's final status ([EOF] as [nil]). *)
Lemma Copy_loop_tee (fuel : nat) (part : multipart.Writer) (s : Source)
      (bar : progressbar.ProgressBar) (written : Z) :
  (length (pending s) < fuel)%nat ->
  exists written' err part' tee',
    Copy_loop fuel part (mkTee s bar) written
    = Some (written', err, part', tee')
    /\ (accepts_all bar ->
        err = eof_to_nil (ending s)
        /\ part' = multipart.mkWriter (multipart.w part ++ pending s)
                     (multipart.boundary part) (multipart.lastpart part)).
Proof.
  revert part s bar written.
  induction fuel as [|fuel IH]; intros part s bar written Hf; [lia|].
  cbn [Copy_loop]. rewrite tee_Read. cbv zeta.
  pose proof (Source_Read_in_buffer s copy_buf_len) as Hin.
  pose proof (Source_contract s copy_buf_len) as [Hc1 Hc2].
  destruct (pending s) eqn:E.
  - rewrite Source_Read_empty in * by exact E. cbn [fst snd n_ err_ stored].
    replace (0 <? 0) with false by reflexivity.
    cbn [n_ err_]. replace (Z.of_nat copy_buf_len <? 0) with false
      by (symmetry; apply Z.ltb_ge; lia).
    replace (0 <? 0) with false by reflexivity.
    do 4 eexists. split; [reflexivity|]. intros _. rewrite app_nil_r.
    split; [reflexivity | destruct part; reflexivity].
  - assert (Hne : pending s <> []) by (rewrite E; discriminate).
    pose proof (granted_bounds s copy_buf_len Hne copy_buf_len_pos) as Hk.
    rewrite Source_Read_some in * by exact Hne. rewrite <- E in *.
    set (k := granted s copy_buf_len) in *.
    cbn [fst snd n_ err_ stored] in *.
    assert (Hpos : (0 <? Z.of_nat k) = true) by (apply Z.ltb_lt; lia).
    assert (Hbig : (Z.of_nat copy_buf_len <? Z.of_nat k) = false)
      by (apply Z.ltb_ge; lia).
    rewrite Hpos. rewrite <- Hc1.
    assert (Hskip : length (skipn k (pending s)) = (length (pending s) - k)%nat)
      by apply length_skipn.
    assert (Hw : Write part (firstn k (pending s)) =
                 ((Z.of_nat k, None),
                  multipart.mkWriter (multipart.w part ++ firstn k (pending s))
                    (multipart.boundary part) (multipart.lastpart part))).
    { unfold Write, part_Writer, multipart.part_Write. rewrite <- Hc1.
      reflexivity. }
    assert (Hchk : (Z.of_nat k <? 0) || (Z.of_nat k <? Z.of_nat k) = false).
    { apply orb_false_intro; apply Z.ltb_ge; lia. }
    assert (Heq : negb (Z.of_nat k =? Z.of_nat k) = false)
      by (rewrite Z.eqb_refl; reflexivity).
    destruct (progressbar.refuses bar (progressbar.total bar) (Z.of_nat k))
      as [e|] eqn:Er.
    + cbn [n_ err_ stored]. rewrite Hbig, Hpos, Hw, Hchk, Heq.
      do 4 eexists. split; [reflexivity|].
      intros Hacc. rewrite Hacc in Er. discriminate.
    + cbn [n_ err_ stored]. rewrite Hbig, Hpos, Hw, Hchk, Heq.
      destruct (eager s && (length (skipn k (pending s)) =? 0)%nat) eqn:Ee.
      * do 4 eexists. split; [reflexivity|]. intros _.
        apply andb_prop in Ee. destruct Ee as [_ Ee]. apply Nat.eqb_eq in Ee.
        split; [reflexivity|]. f_equal.
        rewrite <- (firstn_skipn k (pending s)) at 2.
        destruct (skipn k (pending s)); [|discriminate].
        rewrite app_nil_r. reflexivity.
      * match goal with
        | |- context [Copy_loop fuel ?p (mkTee ?s' ?b') ?wr] =>
            destruct (IH p s' b' wr) as (wr' & err & part' & tee' & Hrun & Hok)
        end.
        { cbn [pending]. lia. }
        exists wr', err, part', tee'. split; [exact Hrun|].
        intros Hacc. destruct Hok as [Herr Hpart].
        { intros t n. apply Hacc. }
        cbn [ending pending multipart.w multipart.boundary multipart.lastpart]
          in *.
        split; [exact Herr|]. rewrite Hpart, <- app_assoc, firstn_skipn.
        reflexivity.
Qed.

Lemma eof_to_nil_None (e : error) : eof_to_nil e = None -> e = EOF.
Proof. destruct e; cbn; congruence. Qed.

(** When [io.Copy] through the tee returns without an error, the source
    has ended with [EOF], the part has received every byte of it and the
    bar has been given every byte: provided the bar does not answer with
    [io.EOF], which [io.Copy] would take for the end of the source. *)
Lemma Copy_loop_tee_complete (fuel : nat) (part : multipart.Writer)
      (s : Source) (bar : progressbar.ProgressBar) (written : Z)
      written' part' tee' :
  (length (pending s) < fuel)%nat ->
  no_EOF (progressbar.refuses bar) ->
  Copy_loop fuel part (mkTee s bar) written
  = Some (written', None, part', tee') ->
  ending s = EOF
  /\ part' = multipart.mkWriter (multipart.w part ++ pending s)
               (multipart.boundary part) (multipart.lastpart part)
  /\ progressbar.max (tee_w tee') = progressbar.max bar
  /\ (0 <= progressbar.total bar ->
      progressbar.total bar + Z.of_nat (length (pending s))
      <= Int64.max_int ->
      progressbar.total (tee_w tee')
      = progressbar.total bar + Z.of_nat (length (pending s))).
Proof.
  revert part s bar written.
  induction fuel as [|fuel IH]; intros part s bar written Hf Hno; [lia|].
  cbn [Copy_loop]. rewrite tee_Read. cbv zeta.
  pose proof (Source_Read_in_buffer s copy_buf_len) as Hin.
  pose proof (Source_contract s copy_buf_len) as [Hc1 Hc2].
  destruct (pending s) eqn:E.
  - rewrite Source_Read_empty in * by exact E. cbn [fst snd n_ err_ stored].
    replace (0 <? 0) with false by reflexivity.
    cbn [n_ err_]. replace (Z.of_nat copy_buf_len <? 0) with false
      by (symmetry; apply Z.ltb_ge; lia).
    replace (0 <? 0) with false by reflexivity.
    intros Hrun. injection Hrun as _ Hend Hpart Htee. subst part' tee'.
    apply eof_to_nil_None in Hend. cbn [tee_w length Z.of_nat].
    rewrite app_nil_r. repeat split; try assumption; try lia.
    destruct part; reflexivity.
  - assert (Hne : pending s <> []) by (rewrite E; discriminate).
    pose proof (granted_bounds s copy_buf_len Hne copy_buf_len_pos) as Hk.
    rewrite Source_Read_some in * by exact Hne. rewrite <- E in *.
    set (k := granted s copy_buf_len) in *.
    cbn [fst snd n_ err_ stored] in *.
    assert (Hpos : (0 <? Z.of_nat k) = true) by (apply Z.ltb_lt; lia).
    assert (Hbig : (Z.of_nat copy_buf_len <? Z.of_nat k) = false)
      by (apply Z.ltb_ge; lia).
    rewrite Hpos. rewrite <- Hc1.
    assert (Hskip : length (skipn k (pending s)) = (length (pending s) - k)%nat)
      by apply length_skipn.
    assert (Hw : Write part (firstn k (pending s)) =
                 ((Z.of_nat k, None),
                  multipart.mkWriter (multipart.w part ++ firstn k (pending s))
                    (multipart.boundary part) (multipart.lastpart part))).
    { unfold Write, part_Writer, multipart.part_Write. rewrite <- Hc1.
      reflexivity. }
    assert (Hchk : (Z.of_nat k <? 0) || (Z.of_nat k <? Z.of_nat k) = false).
    { apply orb_false_intro; apply Z.ltb_ge; lia. }
    assert (Heq : negb (Z.of_nat k =? Z.of_nat k) = false)
      by (rewrite Z.eqb_refl; reflexivity).
    destruct (progressbar.refuses bar (progressbar.total bar) (Z.of_nat k))
      as [e|] eqn:Er.
    + cbn [n_ err_ stored]. rewrite Hbig, Hpos, Hw, Hchk, Heq.
      intros Hrun. injection Hrun as _ Hend _ _.
      apply eof_to_nil_None in Hend. subst e.
      exfalso. exact (Hno _ _ Er).
    + cbn [n_ err_ stored]. rewrite Hbig, Hpos, Hw, Hchk, Heq.
      destruct (eager s && (length (skipn k (pending s)) =? 0)%nat) eqn:Ee.
      * intros Hrun. injection Hrun as _ Hend Hpart Htee. subst part' tee'.
        apply eof_to_nil_None in Hend.
        apply andb_prop in Ee. destruct Ee as [_ Ee]. apply Nat.eqb_eq in Ee.
        cbn [tee_w snd progressbar.Add progressbar.max progressbar.total].
        split; [exact Hend|]. split; [|split; [reflexivity|]].
        -- f_equal. rewrite <- (firstn_skipn k (pending s)) at 2.
           destruct (skipn k (pending s)); [|discriminate].
           rewrite app_nil_r. reflexivity.
        -- intros H0 Hmax. rewrite add_small by int64_lia. lia.
      * intros Hrun.
        apply IH in Hrun; [| cbn [pending]; lia | exact Hno].
        cbn [ending pending multipart.w multipart.boundary
               multipart.lastpart snd progressbar.Add progressbar.max
               progressbar.total] in Hrun.
        destruct Hrun as (Hend & Hpart & Hmx & Htot).
        split; [exact Hend|]. split; [|split; [exact Hmx|]].
        -- rewrite Hpart, <- app_assoc, firstn_skipn. reflexivity.
        -- intros H0 Hmax. rewrite add_small in Htot by int64_lia.
           rewrite Htot; lia.
Qed.

(** ** The Receiving step *)

Arguments Copy_loop : simpl never.
Arguments ReadAll_loop : simpl never.
Arguments Copy : simpl never.
Arguments ReadAll : simpl never.
Arguments Base : simpl never.
Arguments bytes_of : simpl never.
Arguments receive : simpl never.

Lemma receive_metered (env : Env) (resp : Response) (p : Proc) :
  0 < ContentLength resp ->
  exists bar',
    receive env resp p =
    (Some (pending (Body resp), eof_to_nil (ending (Body resp))),
     mkProc (stdout p) (calls p ++ [CallReadAll true]) (held p) (deferred p)
            (upload_bar p) (Some bar') (exit_status p))
    /\ progressbar.max bar' = ContentLength resp
    /\ (Z.of_nat (length (pending (Body resp))) <= Int64.max_int ->
        progressbar.total bar' = Z.of_nat (length (pending (Body resp)))).
Proof.
  intros Hcl. unfold receive.
  replace (0 <? ContentLength resp) with true by (symmetry; now apply Z.ltb_lt).
  destruct (ReadAll_loop_metered (slack env)
              (S (length (pending (Body resp)))) (Body resp)
              (progressbar.NewOptions64 (ContentLength resp) (bar_refuses env))
              [] 512) as (bar' & Hrun & Hmx & Htot); [lia | cbn; lia |].
  exists bar'. unfold ReadAll. rewrite Hrun. cbn.
  split; [reflexivity|]. split; [exact Hmx|].
  intros Hmax. rewrite Htot; cbn; lia.
Qed.

Lemma receive_plain (env : Env) (resp : Response) (p : Proc) :
  ContentLength resp <= 0 ->
  receive env resp p =
  (Some (pending (Body resp), eof_to_nil (ending (Body resp))),
   mkProc (stdout p) (calls p ++ [CallReadAll false]) (held p) (deferred p)
          (upload_bar p) (download_bar p) (exit_status p)).
Proof.
  intros Hcl. unfold receive.
  replace (0 <? ContentLength resp) with false
    by (symmetry; now apply Z.ltb_ge).
  unfold ReadAll. rewrite ReadAll_loop_Source by (cbn; lia). reflexivity.
Qed.

(** Claim C5.  In the Receiving step the body is read through a metered
    reader exactly when the declared content length is positive: then the
    bar is created with that length as its maximum, and once a body of
    that many bytes has been read the bar's running total equals the
    declared length; otherwise the body is read directly and no bar is
    created.  Either way the step yields all the bytes of the body and the
    body's final status. *)
Theorem C5_receive_meters_iff_length_known
        (env : Env) (resp : Response) (p : Proc) :
  let out := receive env resp p in
  fst out = Some (pending (Body resp), eof_to_nil (ending (Body resp)))
  /\ stdout (snd out) = stdout p
  /\ (0 < ContentLength resp ->
      calls (snd out) = calls p ++ [CallReadAll true]
      /\ exists bar2,
          download_bar (snd out) = Some bar2
          /\ progressbar.max bar2 = ContentLength resp
          /\ (Z.of_nat (length (pending (Body resp))) = ContentLength resp ->
              ContentLength resp <= Int64.max_int ->
              progressbar.total bar2 = ContentLength resp))
  /\ (ContentLength resp <= 0 ->
      calls (snd out) = calls p ++ [CallReadAll false]
      /\ download_bar (snd out) = download_bar p).
Proof.
  cbv zeta. destruct (Z.ltb_spec 0 (ContentLength resp)) as [Hcl|Hcl].
  - destruct (receive_metered env resp p Hcl) as (bar' & Hrun & Hmx & Htot).
    rewrite Hrun. cbn [fst snd stdout calls download_bar].
    repeat split; try lia.
    exists bar'. repeat split; auto.
    intros Hlen Hmax. rewrite Htot; lia.
  - rewrite receive_plain by exact Hcl. cbn [fst snd stdout calls download_bar].
    repeat split; try lia; auto.
Qed.

(** ** Whole runs *)

Arguments multipart.Close : simpl never.
Arguments multipart.FormDataContentType : simpl never.
Arguments multipart.content_disposition : simpl never.
Arguments request_for : simpl never.
Arguments first_failure : simpl never.

(** The runs that end before the file is opened. *)
Lemma run_help (env : Env) :
  flag_Parse env = ParseHelp ->
  run env = mkProc [] [CallUsage; CallExit 0] [] [] None None (Some 0).
Proof. intros H. unfold run, main. rewrite H. reflexivity. Qed.

Lemma run_unreadable (env : Env) :
  flag_Parse env = ParseFails ->
  run env = mkProc [] [CallUsage; CallExit 2] [] [] None None (Some 2).
Proof. intros H. unfold run, main. rewrite H. reflexivity. Qed.

Lemma run_without_flags (env : Env) :
  flag_Parse env = ParseOK ->
  is_empty (flag_file env) || is_empty (flag_url env) = true ->
  run env = mkProc [OutMissingArgs] [CallUsage; CallExit 1] [] [] None None
                   (Some 1).
Proof.
  intros Hp H. unfold run, main. rewrite Hp. unfold transfer. cbv zeta.
  rewrite H. reflexivity.
Qed.

Lemma not_empty (s : list byte) : is_empty s = false -> s <> [].
Proof. destruct s; [discriminate | discriminate]. Qed.

(** What [CreateFormFile], the copied bytes and [Close] leave in the
    buffer is the form written out. *)
Lemma written_form_file (b fn data : list byte) :
  match multipart.CreateFormFile (multipart.NewWriter b)
                                 (bytes_of "file") fn with
  | inr part =>
      multipart.w (multipart.Close
                     (multipart.mkWriter (multipart.w part ++ data)
                        (multipart.boundary part) (multipart.lastpart part)))
      = form_file_body b fn data
      /\ multipart.boundary part = b
  | inl _ => False
  end.
Proof.
  unfold multipart.CreateFormFile, multipart.NewWriter, multipart.Close,
    form_file_body.
  cbn [multipart.w multipart.boundary multipart.lastpart].
  split; [|reflexivity]. rewrite <- !app_assoc. reflexivity.
Qed.

(** Symbolic execution of [run env] for a command line that gives both
    flags.  [exec_send] follows [main] up to the answer of [client.Do],
    leaving one goal for each way of stopping before that and one for a
    response; [exec_receive] then follows the Receiving step. *)
Ltac exec_send env :=
  let Ef := fresh "Ef" in
  let Eu := fresh "Eu" in
  assert (Ef : is_empty (flag_file env) = false)
    by (destruct (flag_file env); [congruence | reflexivity]);
  assert (Eu : is_empty (flag_url env) = false)
    by (destruct (flag_url env); [congruence | reflexivity]);
  match goal with
  | Hp : flag_Parse env = ParseOK |- _ =>
      unfold run, main; rewrite Hp; unfold transfer
  end;
  cbv zeta; rewrite Ef, Eu; cbn;
  let e := fresh "e" in
  let file := fresh "file" in
  let Eo := fresh "Eopen" in
  destruct (os_Open env (flag_file env)) as [e|file] eqn:Eo; cbn;
  [ | let fileSize := fresh "fileSize" in
      let Es := fresh "Estat" in
      destruct (Stat file) as [e|fileSize] eqn:Es; cbn;
      [ | unfold Copy;
          match goal with
          | |- context [Copy_loop ?f ?part (mkTee ?s ?bar) ?wr] =>
              let wr' := fresh "written" in
              let err := fresh "err" in
              let part' := fresh "part'" in
              let tee' := fresh "tee'" in
              let Hrun := fresh "Hcopy" in
              let Hok := fresh "Hcopied" in
              destruct (Copy_loop_tee f part s bar wr) as
                (wr' & err & part' & tee' & Hrun & Hok);
              [ lia
              | rewrite Hrun; cbn;
                destruct err as [e|]; cbn;
                [ | let En := fresh "Enew" in
                    destruct (NewRequest_error env (flag_url env))
                      as [e|] eqn:En; cbn;
                    [ | match goal with
                        | |- context [client_Do env ?req] =>
                            let resp := fresh "resp" in
                            let Ed := fresh "Edo" in
                            destruct (client_Do env req)
                              as [e|resp] eqn:Ed; cbn
                        end ] ] ]
          end ] ].

Ltac exec_receive env :=
  unfold bind;
  match goal with
  | |- context [receive env ?resp ?p] =>
      let Hcl := fresh "Hcl" in
      destruct (Z.ltb_spec 0 (ContentLength resp)) as [Hcl|Hcl];
      [ let bar' := fresh "bar2" in
        let Hrecv := fresh "Hrecv" in
        let Hmx := fresh "Hmax" in
        let Htot := fresh "Htotal" in
        destruct (receive_metered env resp p Hcl)
          as (bar' & Hrecv & Hmx & Htot);
        rewrite Hrecv
      | rewrite (receive_plain env resp p Hcl) ];
      cbn;
      let Ee := fresh "Eend" in
      destruct (eof_to_nil (ending (Body resp))) eqn:Ee; cbn;
      [ | let E200 := fresh "E200" in
          destruct (Z.eqb_spec (StatusCode resp) StatusOK) as [E200|E200];
          cbn ]
  end.

Ltac exec_run env := exec_send env; [ .. | exec_receive env ].

(** Symbolic execution of [run env] whatever the command line. *)
Ltac exec_any env :=
  let Ep := fresh "Eparse" in
  destruct (flag_Parse env) eqn:Ep;
  [ let E := fresh "Eflags" in
    destruct (is_empty (flag_file env) || is_empty (flag_url env)) eqn:E;
    [ rewrite (run_without_flags env Ep E)
    | apply orb_false_elim in E;
      let Hf := fresh "Hfile" in
      let Hu := fresh "Hurl" in
      destruct E as [Hf Hu];
      apply not_empty in Hf; apply not_empty in Hu;
      exec_run env ]
  | rewrite (run_help env Ep)
  | rewrite (run_unreadable env Ep) ].

Ltac split_list :=
  match goal with
  | |- exists pre, ?l = pre ++ ?suf =>
      exists (firstn (length l - length suf) l); reflexivity
  end.

Ltac in_list H :=
  cbn in H;
  repeat match type of H with
         | _ \/ _ => destruct H as [H|H]
         | False => contradiction
         | _ = _ => first [discriminate H | injection H as H]
         end.

(** Two answers of [client.Do] to the same request are the same answer. *)
Ltac same_answer Hdo :=
  match goal with
  | Edo : client_Do _ _ = ?r |- _ =>
      tryif constr_eq Edo Hdo then fail else
        match type of Hdo with
        | _ = ?r' =>
            let H := fresh "Hsame" in
            assert (H : r = r') by (rewrite <- Edo; exact Hdo);
            first [discriminate H | injection H as H; subst]
        end
  end.

Lemma eof_to_nil_Some (e e' : error) : eof_to_nil e = Some e' -> e' = e.
Proof. destruct e; cbn; congruence. Qed.

Lemma not_EOF_of_error (e e' : error) :
  Some e' = eof_to_nil e -> is_EOF e = false.
Proof. destruct e; cbn; congruence. Qed.

Lemma is_EOF_of_nil (e : error) : None = eof_to_nil e -> is_EOF e = true.
Proof. destruct e; cbn; congruence. Qed.

Lemma is_EOF_iff (e : error) : is_EOF e = true <-> eof_to_nil e = None.
Proof. destruct e; cbn; split; congruence. Qed.

(** Claim C1, as the program has it.  When the exchange has completed
    (the run has sent a request, [client.Do] has answered it with a
    response, and the body of the response ends well), the run reaches
    the report and returns: it prints the status code, then the success
    line when the code is 200 and the failure line when it is anything
    else, then the whole response body, byte for byte, and these three
    lines end its output. *)
Theorem C1_success_reported_iff_status_200
        (env : Env) (req : Request) (resp : Response) :
  In (CallDo req) (calls (run env)) ->
  client_Do env req = inr resp ->
  ending (Body resp) = EOF ->
  let p := run env in
  reached_reporting p = true
  /\ exit_status p = Some 0
  /\ (exists pre,
        stdout p = pre ++ [OutStatus (StatusCode resp);
                           if StatusCode resp =? 200
                           then OutUploadSucceeded else OutUploadFailed;
                           OutServerReturned (pending (Body resp))]
        /\ ~ In OutUploadSucceeded pre /\ ~ In OutUploadFailed pre)
  /\ (In OutUploadSucceeded (stdout p) <-> StatusCode resp = 200)
  /\ (In OutUploadFailed (stdout p) <-> StatusCode resp <> 200)
  /\ last (stdout p) OutMissingArgs
     = OutServerReturned (pending (Body resp)).
Proof.
  cbv zeta. unfold reached_reporting.
  exec_any env; intros Hin Hdo Hend; in_list Hin; subst; same_answer Hdo.
  all: try (rewrite Hend in Eend; discriminate Eend).
  all: unfold StatusOK in E200.
  all: split; [reflexivity|]; split; [reflexivity|].
  all: split;
    [ eexists; split;
      [ first [ rewrite E200
              | replace (StatusCode resp =? 200) with false
                  by (symmetry; now apply Z.eqb_neq) ];
        match goal with
        | |- ?l = _ ++ ?suf =>
            instantiate (1 := firstn (length l - length suf) l);
            reflexivity
        end
      | cbn; intuition discriminate ] |].
  all: repeat split; auto 10; try tauto;
    try (intros H; in_list H; congruence).
Qed.

(** Claim C6.  For a run whose command line gives both flags, exactly
    one of two things happens: the run reaches the Reporting step, no
    step has reported a failure and the exit status is 0; or one of
    steps 1-4 has reported its failure, the Reporting step is not
    reached and the exit status is 1.  Which of the two it is rests with
    the surroundings alone, for a progress bar that accepts what it is
    given: the step reported as failed is the first of steps 1-4 that the
    surroundings make fail, and the exit status is 0 exactly when there
    is none, whatever status code the server has answered with. *)
Theorem C6_exit_status_zero_iff_no_step_fails (env : Env) :
  flag_Parse env = ParseOK ->
  flag_file env <> [] -> flag_url env <> [] ->
  let p := run env in
  ((reached_reporting p = true
    /\ failed_step (stdout p) = None
    /\ exit_status p = Some 0)
   \/ (reached_reporting p = false
       /\ failed_step (stdout p) <> None
       /\ exit_status p = Some 1))
  /\ ((forall t n, bar_refuses env t n = None) ->
      failed_step (stdout p) = first_failure env
      /\ reached_reporting p
         = match first_failure env with None => true | Some _ => false end
      /\ exit_status p
         = Some match first_failure env with None => 0 | Some _ => 1 end).
Proof.
  intros Hp Hf Hu. cbv zeta. unfold reached_reporting.
  pose proof (fun data => written_form_file (randomBoundary env)
                (Base (flag_file env)) data) as Hbody.
  unfold multipart.CreateFormFile in Hbody. cbn in Hbody.
  exec_run env.
  all: (split;
        [ solve [ right; repeat split; try reflexivity; discriminate
                | left; repeat split; reflexivity ] |]).
  all: intros Hbar; unfold first_failure; rewrite Eopen.
  all: try rewrite Estat.
  all: try (destruct Hcopied as [Herr Hpart]; [intros t n; apply Hbar|]).
  all: try (rewrite (not_EOF_of_error _ _ Herr)).
  all: try (rewrite (is_EOF_of_nil _ Herr)).
  all: try rewrite Enew.
  all: try (match type of Edo with
            | client_Do _ ?r = _ =>
                assert (Hreq : r = request_for env file)
                  by (cbn in Hpart; subst part'; unfold request_for;
                      rewrite <- (proj1 (Hbody _)); reflexivity);
                rewrite Hreq in Edo; rewrite Edo
            end).
  all: try (rewrite (not_EOF_of_error _ _ (eq_sym Eend))).
  all: try (rewrite (is_EOF_of_nil _ (eq_sym Eend))).
  all: repeat split; reflexivity.
Qed.

(** Claim C9, as the program has it.  When the call of [client.Do] that
    the run makes fails, the run ends there: the failure is the last
    thing reported, the process exits with status 1 right after that one
    call, no second request is made and the response is never read.  The
    file is not closed: its [Close] has been deferred, the exit does not
    run what is deferred, and the handle is still held when the process
    ends. *)
Theorem C9_send_failure_exits_without_closing
        (env : Env) (req : Request) (e : error) :
  In (CallDo req) (calls (run env)) ->
  client_Do env req = inl e ->
  let p := run env in
  exit_status p = Some 1
  /\ last (stdout p) OutMissingArgs = OutSendFailed e
  /\ failed_step (stdout p) = Some Sending
  /\ requests_sent p = 1%nat
  /\ (exists pre, calls p = pre ++ [CallDo req; CallExit 1])
  /\ existsb is_ReadAll (calls p) = false
  /\ ~ In OutReceiving (stdout p)
  /\ deferred p = [HFile]
  /\ existsb is_Close (calls p) = false
  /\ held p = [HFile].
Proof.
  cbv zeta. unfold requests_sent.
  exec_any env; intros Hin Hdo; in_list Hin; subst; same_answer Hdo.
  repeat split; try reflexivity.
  - split_list.
  - cbn. intuition discriminate.
Qed.

(** ** Counts and percentages along a sequence of reads *)

Section Progress.

Context {R : Type} `{Reader R}.
Implicit Types (pr : ProgressReader R (list Float64.t)).

(** With the recording sink and a positive [Size], the updates emitted
    are the percentages of the successive counts. *)
Lemma reads_log pr bufs log :
  OnProgress pr = Some record_progress -> 0 < Size pr ->
  snd (reads pr bufs log) =
  log ++ map (fun c => progress_of c (Size pr)) (counts pr bufs log).
Proof.
  revert pr log. induction bufs as [|len_p bufs IH]; intros pr log Hcb Hs.
  - cbn. now rewrite app_nil_r.
  - rewrite reads_step, counts_step. cbv zeta. cbn [snd map].
    rewrite IH by (rewrite Read_state; assumption).
    rewrite Read_sink, Hcb.
    replace (0 <? Size pr) with true by (symmetry; now apply Z.ltb_lt).
    unfold record_progress. rewrite <- app_assoc. cbn [app].
    rewrite !Read_state. cbn [read Size]. reflexivity.
Qed.

(** While the wrapped reader returns counts that are not negative and
    that fit under [bound] together with the starting count, the count
    never steps down and never passes [bound]. *)
Lemma counts_bounded pr bufs (w : list Float64.t) (bound : Z) :
  0 <= read pr ->
  bound <= Int64.max_int ->
  Forall (fun r => 0 <= n_ r) (fst (Read_seq (Reader_ pr) bufs)) ->
  read pr + Zsum (map n_ (fst (Read_seq (Reader_ pr) bufs))) <= bound ->
  nondecreasing Z.leb (read pr :: counts pr bufs w)
  /\ Forall (fun c => 0 <= c <= bound) (counts pr bufs w).
Proof.
  revert pr w. induction bufs as [|len_p bufs IH]; intros pr w H0 Hb Hn Hsum.
  - cbn. auto.
  - rewrite counts_step. cbv zeta. rewrite Read_seq_step in Hn, Hsum.
    cbv zeta in Hn, Hsum. cbn [fst map] in Hn, Hsum.
    rewrite Zsum_cons in Hsum.
    inversion Hn as [|? ? Hn0 Hn']; subst.
    assert (Hrest : 0 <= Zsum (map n_ (fst (Read_seq (snd (Read (Reader_ pr) len_p)) bufs)))).
    { apply Zsum_nonneg. apply Forall_map. exact Hn'. }
    set (pr1 := snd (fst (ProgressReader_Read pr len_p w))).
    assert (Hread1 : read pr1 = read pr + n_ (fst (Read (Reader_ pr) len_p))).
    { unfold pr1. rewrite Read_state. cbn [read]. apply add_small. int64_lia. }
    assert (Hinner : Reader_ pr1 = snd (Read (Reader_ pr) len_p)).
    { unfold pr1. rewrite Read_state. reflexivity. }
    destruct (IH pr1 (snd (ProgressReader_Read pr len_p w))) as [I1 I2].
    + lia.
    + exact Hb.
    + rewrite Hinner. exact Hn'.
    + rewrite Hinner, Hread1. lia.
    + split.
      * cbn [nondecreasing]. split; [apply Z.leb_le; lia | exact I1].
      * constructor; [lia | exact I2].
Qed.

End Progress.

(** ** The reference receiver on what the writer produces *)

Lemma byte_eqb_refl (b : byte) : byte_eqb b b = true.
Proof. now apply byte_dec_lb. Qed.

Lemma byte_eqb_true (a b : byte) : byte_eqb a b = true -> a = b.
Proof. apply byte_dec_bl. Qed.

Module receiver_facts.

Import receiver.

Lemma strip_prefix_app (p l : list byte) : strip_prefix p (p ++ l) = Some l.
Proof.
  induction p as [|x p IH]; cbn; [reflexivity|].
  now rewrite byte_eqb_refl.
Qed.

Lemma strip_prefix_Some (p l r : list byte) :
  strip_prefix p l = Some r -> l = p ++ r.
Proof.
  revert l. induction p as [|x p IH]; intros l; cbn.
  - now intros [= ->].
  - destruct l as [|y l]; [discriminate|].
    destruct (byte_eqb x y) eqn:E; [|discriminate].
    apply byte_eqb_true in E. subst y. intros Hs.
    now rewrite (IH _ Hs).
Qed.

Lemma split_at_here (d rest : list byte) :
  split_at d (d ++ rest) = Some ([], rest).
Proof.
  destruct d as [|c d]; cbn.
  - destruct rest; reflexivity.
  - rewrite byte_eqb_refl, strip_prefix_app.
    destruct rest; reflexivity.
Qed.

Lemma split_at_skip (d l : list byte) (x : byte) :
  strip_prefix d (x :: l) = None ->
  split_at d (x :: l) =
  match split_at d l with
  | Some (a, b) => Some (x :: a, b)
  | None => None
  end.
Proof. intros Hn. cbn [split_at]. rewrite Hn. reflexivity. Qed.

(** A delimiter that starts with a byte found nowhere else in it, and
    that does not occur in [a], is first met right after [a]. *)
Lemma split_at_first (c : byte) (d a rest : list byte) :
  ~ In c d ->
  ~ occurs (c :: d) a ->
  split_at (c :: d) (a ++ (c :: d) ++ rest) = Some (a, rest).
Proof.
  intros Hc. induction a as [|x a IH]; intros Hocc.
  - apply (split_at_here (c :: d)).
  - change ((x :: a) ++ (c :: d) ++ rest)
      with (x :: (a ++ (c :: d) ++ rest)).
    rewrite split_at_skip.
    + rewrite IH; [reflexivity|].
      intros (u & v & ->). apply Hocc. now exists (x :: u), v.
    + destruct (strip_prefix (c :: d) (x :: a ++ (c :: d) ++ rest))
        as [r|] eqn:E; [exfalso | reflexivity].
      apply strip_prefix_Some in E.
      change (x :: a ++ (c :: d) ++ rest)
        with ((x :: a) ++ (c :: d) ++ rest) in E.
      symmetry in E. apply app_eq_app in E.
      destruct E as (l & [[E1 E2] | [E1 E2]]).
      * (* the delimiter would run past the end of [a] *)
        injection E1 as -> E1.
        destruct l as [|y l].
        -- rewrite app_nil_r in E1. subst d.
           apply Hocc. exists [], []. cbn. now rewrite app_nil_r.
        -- cbn in E2. injection E2 as <- _.
           apply Hc. rewrite E1. apply in_or_app. right. now left.
      * (* the delimiter would start inside [a] and be all in it *)
        apply Hocc. exists [], l. exact E1.
Qed.

Lemma split_at_fresh (c : byte) (d a rest : list byte) :
  ~ In c d -> ~ In c a ->
  split_at (c :: d) (a ++ (c :: d) ++ rest) = Some (a, rest).
Proof.
  intros Hd Ha. apply split_at_first; [exact Hd|].
  intros (u & v & ->). apply Ha.
  apply in_or_app. right. now left.
Qed.

Lemma not_in_head (c x : byte) (s : list byte) :
  ~ In c (x :: s) -> byte_eqb x c = false /\ ~ In c s.
Proof.
  intros Hn. split.
  - destruct (byte_eqb x c) eqn:K; [|reflexivity].
    apply byte_eqb_true in K. subst. exfalso. apply Hn. now left.
  - intros Hin. apply Hn. now right.
Qed.

(** A name without line breaks comes back from its escaped form. *)
Lemma unquote_escape (s rest : list byte) :
  ~ In CR s -> ~ In LF s ->
  unquote (multipart.escapeQuotes s ++ dquote :: rest) = Some (s, rest).
Proof.
  induction s as [|x s IH]; intros Hcr Hlf; cbn.
  - reflexivity.
  - apply not_in_head in Hcr. destruct Hcr as [Xcr Hcr].
    apply not_in_head in Hlf. destruct Hlf as [Xlf Hlf].
    unfold multipart.escapeQuotes in *. cbn [flat_map].
    destruct (byte_eqb x backslash || byte_eqb x dquote) eqn:E.
    + cbn. rewrite IH by assumption. reflexivity.
    + apply orb_false_elim in E. destruct E as [E1 E2].
      rewrite Xcr, Xlf. cbn. rewrite E1, E2, IH by assumption. reflexivity.
Qed.

(** An escaped name holds no carriage return. *)
Lemma escape_has_no_CR (s : list byte) : ~ In CR (multipart.escapeQuotes s).
Proof.
  intros Hin. unfold multipart.escapeQuotes in Hin.
  apply in_flat_map in Hin. destruct Hin as (x & Hx & Hin).
  destruct (byte_eqb x backslash || byte_eqb x dquote) eqn:E.
  - cbn in Hin. destruct Hin as [H|[H|[]]]; [discriminate H|].
    subst x. discriminate E.
  - destruct (byte_eqb x CR) eqn:Ec.
    + vm_compute in Hin. intuition discriminate.
    + destruct (byte_eqb x LF).
      * vm_compute in Hin. intuition discriminate.
      * cbn in Hin. destruct Hin as [H|[]]. subst x.
        vm_compute in Ec. discriminate Ec.
Qed.

Lemma disposition_of_form_file (nm fn : list byte) :
  ~ In CR nm -> ~ In LF nm -> ~ In CR fn -> ~ In LF fn ->
  disposition (multipart.content_disposition nm fn) = Some (nm, Some fn).
Proof.
  intros N1 N2 F1 F2.
  unfold disposition, multipart.content_disposition.
  rewrite (app_assoc (bytes_of "form-data; name=") [dquote]).
  rewrite strip_prefix_app.
  change ([dquote] ++ ?l) with (dquote :: l).
  rewrite unquote_escape by assumption.
  assert (Hp : exists b l, bytes_of "; filename=" = b :: l)
    by (do 2 eexists; reflexivity).
  destruct Hp as (b & l & Hp). rewrite Hp at 1. cbn [app].
  change (dquote :: multipart.escapeQuotes fn ++ [dquote])
    with ([dquote] ++ multipart.escapeQuotes fn ++ [dquote]).
  rewrite (app_assoc (bytes_of "; filename=") [dquote]).
  rewrite strip_prefix_app, unquote_escape by assumption. reflexivity.
Qed.

End receiver_facts.

Module decoding.

Import receiver receiver_facts.

Lemma header_lines_two (fuel : nat) (h1 h2 rest : list byte) :
  ~ In CR h1 -> ~ In CR h2 -> h1 <> [] -> h2 <> [] ->
  (3 <= fuel)%nat ->
  header_lines fuel (h1 ++ CRLF ++ h2 ++ CRLF ++ CRLF ++ rest)
  = Some ([h1; h2], rest).
Proof.
  intros N1 N2 E1 E2 Hf.
  destruct fuel as [|[|[|fuel]]]; try lia.
  assert (HLF : ~ In CR [LF]) by (cbn; intuition discriminate).
  cbn [header_lines]. unfold CRLF at 1 4.
  rewrite (split_at_fresh CR [LF] h1) by assumption.
  destruct h1 as [|x1 h1]; [congruence|].
  unfold CRLF at 1 3.
  rewrite (split_at_fresh CR [LF] h2) by assumption.
  destruct h2 as [|x2 h2]; [congruence|].
  change (CRLF ++ rest) with ((CR :: [LF]) ++ rest).
  rewrite (split_at_here (CR :: [LF])). reflexivity.
Qed.

Lemma line_has_no_CR (fn : list byte) :
  ~ In CR (bytes_of "Content-Disposition: "
             ++ multipart.content_disposition (bytes_of "file") fn).
Proof.
  intros Hin. unfold multipart.content_disposition in Hin.
  repeat (apply in_app_or in Hin; destruct Hin as [Hin|Hin]);
    first [ now apply escape_has_no_CR in Hin
          | vm_compute in Hin; intuition discriminate ].
Qed.

(** Decoding the body of a form file gives back its one part, provided
    the boundary holds no carriage return, the file name holds no line
    break, and the delimiter does not occur in the data, the line break
    before the data counted in. *)
Lemma decode_form_file (b fn data : list byte) :
  ~ In CR b -> ~ In CR fn -> ~ In LF fn ->
  ~ occurs (CRLF ++ bytes_of "--" ++ b) (CRLF ++ data) ->
  decode (bytes_of "multipart/form-data; boundary=" ++ b)
         (form_file_body b fn data)
  = Some [mkPart (bytes_of "file") (Some fn) data].
Proof.
  intros Hb Hfn Hfl Hocc. unfold decode.
  rewrite strip_prefix_app. unfold form_file_body at 1.
  rewrite strip_prefix_app.
  assert (Hlen : exists f, length (form_file_body b fn data) = S (S f)).
  { unfold form_file_body. rewrite !length_app. cbn [length bytes_of].
    change (length (bytes_of "--")) with 2%nat. eexists.
    cbn [Nat.add]. reflexivity. }
  destruct Hlen as (f & ->). cbn [parts].
  change (strip_prefix (bytes_of "--") (CRLF ++ ?l)) with (@None (list byte)).
  cbv iota. rewrite strip_prefix_app.
  set (h1 := bytes_of "Content-Disposition: "
               ++ multipart.content_disposition (bytes_of "file") fn).
  set (h2 := bytes_of "Content-Type: application/octet-stream").
  rewrite header_lines_two.
  - cbn [find_disposition]. unfold h1 at 1.
    rewrite strip_prefix_app, disposition_of_form_file;
      try assumption; try (vm_compute; intuition discriminate).
    rewrite (app_assoc CRLF data).
    change (CRLF ++ bytes_of "--" ++ b)
      with (CR :: (LF :: bytes_of "--" ++ b)) in *.
    rewrite split_at_first.
    + change (strip_prefix (bytes_of "--") (bytes_of "--" ++ CRLF))
        with (Some CRLF). reflexivity.
    + change (LF :: bytes_of "--" ++ b) with ([LF; x2d; x2d] ++ b).
      intros Hin. apply in_app_or in Hin. destruct Hin as [Hin|Hin].
      * cbn in Hin. intuition discriminate.
      * now apply Hb.
    + exact Hocc.
  - apply line_has_no_CR.
  - unfold h2. vm_compute. intuition discriminate.
  - unfold h1. vm_compute. discriminate.
  - unfold h2. vm_compute. discriminate.
  - rewrite !length_app. unfold h2. cbn [length bytes_of].
    change (length (bytes_of "Content-Type: application/octet-stream"))
      with 38%nat. lia.
Qed.

End decoding.

(** ** The request that is sent *)

Lemma hex_is_not_CR (b : list byte) :
  forallb is_hex_digit b = true -> ~ In CR b.
Proof.
  intros Hb Hin. rewrite forallb_forall in Hb.
  specialize (Hb _ Hin). discriminate Hb.
Qed.

(** Claim C3, as the program has it.  When the file is read to its end,
    the bar accepts every write and the URL is accepted, the run sends one
    POST request to the URL with the multipart content type; and, provided
    the delimiter line of the boundary (CRLF, two dashes, the boundary)
    does not occur in the file's bytes with a line break put before them
    (so the file neither holds the delimiter line nor begins with the two
    dashes and the boundary), and the base name holds no line break (CR
    or LF, which the writer puts into the header as [%0D] and [%0A]), a
    reference receiver decodes its body into exactly one part, named
    [file], whose file name is the base name of the path and whose
    content is the file's bytes. *)
Theorem C3_sent_body_decodes_to_the_file
        (env : Env) (file : File) (size : Z) :
  flag_Parse env = ParseOK ->
  flag_file env <> [] -> flag_url env <> [] ->
  os_Open env (flag_file env) = inr file ->
  Stat file = inr size ->
  ending (contents file) = EOF ->
  (forall t n, bar_refuses env t n = None) ->
  NewRequest_error env (flag_url env) = None ->
  random_boundary (randomBoundary env) ->
  ~ In CR (Base (flag_file env)) ->
  ~ In LF (Base (flag_file env)) ->
  ~ occurs (CRLF ++ bytes_of "--" ++ randomBoundary env)
           (CRLF ++ pending (contents file)) ->
  exists req,
    In (CallDo req) (calls (run env))
    /\ requests_sent (run env) = 1%nat
    /\ Method req = bytes_of "POST"
    /\ URL req = flag_url env
    /\ ContentType req
       = bytes_of "multipart/form-data; boundary=" ++ randomBoundary env
    /\ receiver.decode (ContentType req) (sent_body req)
       = Some [receiver.mkPart (bytes_of "file")
                               (Some (Base (flag_file env)))
                               (pending (contents file))].
Proof.
  intros Hp Hf Hu Hopen Hstat Hend Hbar Hnew [_ Hhex] Hname Hname' Hocc.
  apply hex_is_not_CR in Hhex.
  pose proof (written_form_file (randomBoundary env) (Base (flag_file env))
                (pending (contents file))) as Hbody.
  unfold multipart.CreateFormFile in Hbody. cbn in Hbody.
  destruct Hbody as [Hbody _].
  unfold requests_sent.
  exec_run env.
  all: try discriminate Hopen.
  all: injection Hopen as Hopen; subst.
  all: rewrite Hstat in Estat; try discriminate Estat.
  all: injection Estat as Estat; subst.
  all: destruct Hcopied as [Herr Hpart]; [intros t n; apply Hbar|].
  all: rewrite Hend in Herr; try discriminate Herr.
  all: try discriminate Hnew.
  all: cbn in Hpart; subst part'.
  all: eexists; split; [cbn; auto 10|].
  all: repeat (split; [reflexivity|]).
  all: cbn [ContentType sent_body].
  all: rewrite Hbody.
  all: unfold multipart.FormDataContentType, multipart.Close.
  all: cbn [multipart.boundary].
  all: now apply decoding.decode_form_file.
Qed.

(** ** [float64] arithmetic on counts

    The operations of [Float64], in the range the percentages live in,
    compute the correctly rounded results. *)

Module Float64_facts.

Import Reals Lra Psatz Rounding.
Local Open Scope Z_scope.

Lemma bpow_pos e : (0 < bpow e)%R.
Proof. apply powerRZ_lt. lra. Qed.

Lemma bpow_add a b : bpow (a + b) = (bpow a * bpow b)%R.
Proof. apply powerRZ_add. lra. Qed.

Lemma bpow_0 : bpow 0 = 1%R.
Proof. reflexivity. Qed.

Lemma bpow_1 : bpow 1 = 2%R.
Proof. exact (powerRZ_1 2). Qed.

Lemma bpow_succ e : bpow (e + 1) = (2 * bpow e)%R.
Proof. rewrite bpow_add, bpow_1. lra. Qed.

Lemma bpow_nonneg_IZR n : 0 <= n -> bpow n = IZR (2 ^ n).
Proof.
  intros Hn. pattern n. apply natlike_ind; [reflexivity | | exact Hn].
  intros x Hx IH. unfold Z.succ. rewrite bpow_succ, IH, Z.pow_add_r by lia.
  rewrite mult_IZR. change (2 ^ 1) with 2. lra.
Qed.

Lemma bpow_le a b : a <= b -> (bpow a <= bpow b)%R.
Proof.
  intros Hab. replace b with (a + (b - a)) by lia. rewrite bpow_add.
  rewrite (bpow_nonneg_IZR (b - a)) by lia.
  assert (1 <= 2 ^ (b - a)) by (pose proof (Z.pow_pos_nonneg 2 (b - a)); lia).
  apply IZR_le in H. pose proof (bpow_pos a). nra.
Qed.

Lemma bpow_lt a b : a < b -> (bpow a < bpow b)%R.
Proof.
  intros Hab. replace b with (a + 1 + (b - a - 1)) by lia.
  rewrite bpow_add, bpow_succ.
  pose proof (bpow_pos a). pose proof (bpow_le 0 (b - a - 1) ltac:(lia)) as H1.
  rewrite bpow_0 in H1. nra.
Qed.

Lemma bpow_lt_inv a b : (bpow a < bpow b)%R -> a < b.
Proof.
  intros H. destruct (Z_lt_le_dec a b); [assumption|].
  pose proof (bpow_le b a ltac:(lia)). lra.
Qed.

Lemma digits2_bounds p :
  2 ^ (Zpos (digits2_pos p) - 1) <= Zpos p < 2 ^ Zpos (digits2_pos p).
Proof.
  induction p as [p IH|p IH|]; cbn [digits2_pos].
  - rewrite Pos2Z.inj_succ.
    replace (Z.succ (Z.pos (digits2_pos p)) - 1)
      with (Z.succ (Z.pos (digits2_pos p) - 1)) by lia.
    rewrite !Z.pow_succ_r by lia.
    destruct IH as [IH1 IH2]. revert IH1 IH2.
    generalize (2 ^ (Z.pos (digits2_pos p) - 1)) (2 ^ Z.pos (digits2_pos p)). intros; lia.
  - rewrite Pos2Z.inj_succ.
    replace (Z.succ (Z.pos (digits2_pos p)) - 1)
      with (Z.succ (Z.pos (digits2_pos p) - 1)) by lia.
    rewrite !Z.pow_succ_r by lia.
    destruct IH as [IH1 IH2]. revert IH1 IH2.
    generalize (2 ^ (Z.pos (digits2_pos p) - 1)) (2 ^ Z.pos (digits2_pos p)). intros; lia.
  - cbn. lia.
Qed.

Lemma digits2_unique p d :
  2 ^ (d - 1) <= Zpos p < 2 ^ d -> Zpos (digits2_pos p) = d.
Proof.
  intros [H1 H2]. pose proof (digits2_bounds p) as [B1 B2].
  assert (0 < d).
  { destruct (Z_lt_le_dec 0 d); [assumption|].
    destruct (Z.eq_dec d 0) as [->|]; [cbn in H2; lia|].
    rewrite Z.pow_neg_r in H2 by lia. lia. }
  destruct (Z.lt_trichotomy (Zpos (digits2_pos p)) d) as [Hlt|[Heq|Hgt]];
    [exfalso | assumption | exfalso].
  - assert (2 ^ Z.pos (digits2_pos p) <= 2 ^ (d - 1))
      by (apply Z.pow_le_mono_r; lia). lia.
  - assert (2 ^ d <= 2 ^ (Z.pos (digits2_pos p) - 1))
      by (apply Z.pow_le_mono_r; lia). lia.
Qed.

Lemma shr_1_m mrs : 0 <= shr_m mrs -> shr_m (shr_1 mrs) = shr_m mrs / 2.
Proof.
  destruct mrs as [m r s]. cbn [shr_m]. intros Hm.
  destruct m as [|[p|p|]|p]; try lia; cbn [shr_1 shr_m].
  - reflexivity.
  - apply Z.div_unique with 1; lia.
  - apply Z.div_unique with 0; lia.
  - reflexivity.
Qed.

Lemma shr_1_inb x mrs e :
  0 <= shr_m mrs ->
  inb x (shr_m mrs) e (loc_of_shr_record mrs) ->
  inb x (shr_m (shr_1 mrs)) (e + 1) (loc_of_shr_record (shr_1 mrs)).
Proof.
  destruct mrs as [m r s]. cbn [shr_m]. intros Hm.
  pose proof (bpow_pos e) as Hb.
  destruct m as [|[p|p|]|p]; try lia;
    destruct r, s; cbn [shr_1 shr_m loc_of_shr_record orb inb];
    rewrite ?bpow_succ;
    try (rewrite (Pos2Z.inj_xI p), plus_IZR, mult_IZR);
    try (rewrite (Pos2Z.inj_xO p), mult_IZR);
    intros Hx; nra.
Qed.

Lemma iter_shr x n : forall mrs e,
  0 <= shr_m mrs -> inb x (shr_m mrs) e (loc_of_shr_record mrs) ->
  0 <= shr_m (SpecFloat.iter_pos shr_1 n mrs)
  /\ shr_m (SpecFloat.iter_pos shr_1 n mrs) = shr_m mrs / 2 ^ Zpos n
  /\ inb x (shr_m (SpecFloat.iter_pos shr_1 n mrs)) (e + Zpos n)
         (loc_of_shr_record (SpecFloat.iter_pos shr_1 n mrs)).
Proof.
  assert (Hone : forall mrs e,
    0 <= shr_m mrs -> inb x (shr_m mrs) e (loc_of_shr_record mrs) ->
    0 <= shr_m (shr_1 mrs)
    /\ shr_m (shr_1 mrs) = shr_m mrs / 2 ^ 1
    /\ inb x (shr_m (shr_1 mrs)) (e + 1) (loc_of_shr_record (shr_1 mrs))).
  { intros mrs e Hm Hx. rewrite shr_1_m by assumption.
    split; [apply Z.div_pos; lia|]. split; [reflexivity|].
    rewrite <- shr_1_m by assumption. now apply shr_1_inb. }
  assert (Htwice : forall (f : shr_record -> shr_record) (a b : Z),
    0 < a -> 0 < b ->
    (forall mrs e,
      0 <= shr_m mrs -> inb x (shr_m mrs) e (loc_of_shr_record mrs) ->
      0 <= shr_m (f mrs) /\ shr_m (f mrs) = shr_m mrs / 2 ^ a
      /\ inb x (shr_m (f mrs)) (e + a) (loc_of_shr_record (f mrs))) ->
    forall (g : shr_record -> shr_record),
    (forall mrs e,
      0 <= shr_m mrs -> inb x (shr_m mrs) e (loc_of_shr_record mrs) ->
      0 <= shr_m (g mrs) /\ shr_m (g mrs) = shr_m mrs / 2 ^ b
      /\ inb x (shr_m (g mrs)) (e + b) (loc_of_shr_record (g mrs))) ->
    forall mrs e,
      0 <= shr_m mrs -> inb x (shr_m mrs) e (loc_of_shr_record mrs) ->
      0 <= shr_m (g (f mrs)) /\ shr_m (g (f mrs)) = shr_m mrs / 2 ^ (a + b)
      /\ inb x (shr_m (g (f mrs))) (e + (a + b)) (loc_of_shr_record (g (f mrs)))).
  { intros f a b Ha Hb Hf g Hg mrs e Hm Hx.
    destruct (Hf mrs e Hm Hx) as (F1 & F2 & F3).
    destruct (Hg (f mrs) (e + a) F1 F3) as (G1 & G2 & G3).
    split; [assumption|]. split.
    - rewrite G2, F2, Z.div_div, <- Z.pow_add_r by (try apply Z.pow_pos_nonneg; lia).
      reflexivity.
    - now rewrite Z.add_assoc. }
  induction n as [n IH|n IH|]; intros mrs e Hm Hx; cbn [SpecFloat.iter_pos].
  - replace (Z.pos n~1) with (1 + (Z.pos n + Z.pos n)) by lia.
    apply (Htwice shr_1 1 (Z.pos n + Z.pos n) ltac:(lia) ltac:(lia) Hone
             (fun m => SpecFloat.iter_pos shr_1 n (SpecFloat.iter_pos shr_1 n m))); try assumption.
    intros mrs0 e0. apply (Htwice (SpecFloat.iter_pos shr_1 n) (Z.pos n) (Z.pos n)
                             ltac:(lia) ltac:(lia) IH _ IH).
  - replace (Z.pos n~0) with (Z.pos n + Z.pos n) by lia.
    apply (Htwice (SpecFloat.iter_pos shr_1 n) (Z.pos n) (Z.pos n)
                  ltac:(lia) ltac:(lia) IH _ IH); assumption.
  - apply Hone; assumption.
Qed.

Lemma fexp_normal k : -1021 <= k -> fexp Float64.prec Float64.emax k = k - 53.
Proof. unfold fexp, emin, Float64.prec, Float64.emax. lia. Qed.

Lemma loc_of_record m l :
  loc_of_shr_record (shr_record_of_loc m l) = l
  /\ shr_m (shr_record_of_loc m l) = m.
Proof. destruct l as [|[]]; split; reflexivity. Qed.

Lemma shr_fexp_normal x p e l :
  inb x (Zpos p) e l ->
  -1021 <= Zpos (digits2_pos p) + e ->
  53 <= Zpos (digits2_pos p) ->
  let k := Zpos (digits2_pos p) + e in
  let out := shr_fexp Float64.prec Float64.emax (Zpos p) e l in
  snd out = k - 53
  /\ 2 ^ 52 <= shr_m (fst out) < 2 ^ 53
  /\ inb x (shr_m (fst out)) (k - 53) (loc_of_shr_record (fst out)).
Proof.
  intros Hx Hk Hd. cbv zeta. unfold shr_fexp. cbn [Zdigits2].
  rewrite fexp_normal by assumption.
  pose proof (digits2_bounds p) as [B1 B2].
  destruct (loc_of_record (Zpos p) l) as [L1 L2].
  set (d := Zpos (digits2_pos p)) in *.
  replace (d + e - 53 - e) with (d - 53) by lia.
  unfold shr. destruct (d - 53) as [|n|n] eqn:En; try lia.
  - cbn [fst snd]. rewrite L1, L2. replace d with 53 in * by lia.
    replace (53 + e - 53) with e by lia. repeat split; try lia. exact Hx.
  - cbn [fst snd].
    destruct (iter_shr x n (shr_record_of_loc (Zpos p) l) e) as (I1 & I2 & I3).
    + rewrite L2. lia.
    + rewrite L1, L2. exact Hx.
    + rewrite L2 in I2. replace (d + e - 53) with (e + Z.pos n) by lia.
      split; [lia|]. split; [|exact I3]. rewrite I2.
      assert (Hp : 0 < 2 ^ Z.pos n) by (apply Z.pow_pos_nonneg; lia).
      assert (E1 : 2 ^ (d - 1) = 2 ^ 52 * 2 ^ Z.pos n).
      { rewrite <- Z.pow_add_r by lia. f_equal. lia. }
      assert (E2 : 2 ^ d = 2 ^ 53 * 2 ^ Z.pos n).
      { rewrite <- Z.pow_add_r by lia. f_equal. lia. }
      split.
      * apply Z.div_le_lower_bound; [assumption|]. rewrite Z.mul_comm. lia.
      * apply Z.div_lt_upper_bound; [assumption|]. rewrite Z.mul_comm. lia.
Qed.

Lemma rne_of_inb x m1 e l :
  inb x m1 e l -> rne x (bpow e) m1 (round_nearest_even m1 l).
Proof.
  pose proof (bpow_pos e) as Hb. unfold rne.
  destruct l as [|[]]; cbn [inb round_nearest_even]; intros Hx.
  - split; [nra|]. left. split; [nra | reflexivity].
  - split; [nra|]. right. right. split; [exact Hx | reflexivity].
  - split; [nra|]. left. split; [nra | reflexivity].
  - split; [nra|]. right. left. split; [nra | reflexivity].
Qed.

Lemma rne_range x g m1 m2 : rne x g m1 m2 -> m1 <= m2 <= m1 + 1.
Proof.
  intros [_ [[_ ->]|[[_ ->]|[_ ->]]]]; try lia.
  destruct (Z.even m1); lia.
Qed.

Lemma round_aux_normal x p e l :
  inb x (Zpos p) e l ->
  53 <= Zpos (digits2_pos p) ->
  -1021 <= Zpos (digits2_pos p) + e <= 1023 ->
  exists m3 e3,
    binary_round_aux Float64.prec Float64.emax false (Zpos p) e l = S754_finite false m3 e3
    /\ 2 ^ 52 <= Zpos m3 < 2 ^ 53
    /\ Zpos (digits2_pos p) + e - 53 <= e3 <= Zpos (digits2_pos p) + e - 52
    /\ RN x (IZR (Zpos m3) * bpow e3).
Proof.
  intros Hx Hd Hk.
  destruct (shr_fexp_normal x p e l Hx ltac:(lia) Hd) as (S1 & S2 & S3).
  set (k := Zpos (digits2_pos p) + e) in *.
  unfold binary_round_aux.
  destruct (shr_fexp Float64.prec Float64.emax (Z.pos p) e l) as [mrs1 e1].
  cbn [fst snd] in S1, S2, S3. subst e1.
  set (m1 := shr_m mrs1) in *.
  pose proof (rne_of_inb _ _ _ _ S3) as Hr.
  set (m2 := round_nearest_even m1 (loc_of_shr_record mrs1)) in *.
  pose proof (rne_range _ _ _ _ Hr) as Hm2.
  assert (HRN : RN x (IZR m2 * bpow (k - 53))).
  { exists k, m1, m2. repeat split; try lia; try apply Hr. }
  destruct (Z.eq_dec m2 (2 ^ 53)) as [E|NE].
  - (* the rounded mantissa has spilled into the next binade *)
    rewrite E in *. 
    replace (shr_fexp Float64.prec Float64.emax (2 ^ 53) (k - 53) loc_Exact)
      with (Build_shr_record (2 ^ 52) false false, k - 52).
    + cbn [shr_m]. change (2 ^ 52) with (Zpos (2 ^ 52)%positive) at 1.
      cbv iota beta.
      replace (k - 52 <=? Float64.emax - Float64.prec) with true
        by (symmetry; apply Z.leb_le; unfold Float64.emax, Float64.prec; lia).
      exists (2 ^ 52)%positive, (k - 52). split; [reflexivity|].
      split; [cbn; lia|]. split; [lia|].
      replace (IZR (Z.pos (2 ^ 52)) * bpow (k - 52))%R
        with (IZR (2 ^ 53) * bpow (k - 53))%R; [exact HRN|].
      replace (k - 52) with (k - 53 + 1) by lia. rewrite bpow_succ.
      change (2 ^ 53) with (2 * 2 ^ 52). rewrite mult_IZR.
      change (Z.pos (2 ^ 52)) with (2 ^ 52). lra.
    + unfold shr_fexp. change (Zdigits2 (2 ^ 53)) with 54.
      rewrite fexp_normal by lia.
      replace (54 + (k - 53) - 53 - (k - 53)) with 1 by lia.
      cbn. f_equal. lia.
  - assert (Hm2' : 2 ^ 52 <= m2 < 2 ^ 53) by lia.
    destruct m2 as [|q|q] eqn:Eq; try lia.
    assert (Hdq : Zpos (digits2_pos q) = 53) by (apply digits2_unique; lia).
    replace (shr_fexp Float64.prec Float64.emax (Z.pos q) (k - 53) loc_Exact)
      with (Build_shr_record (Zpos q) false false, k - 53).
    + cbn [shr_m]. cbv iota beta.
      replace (k - 53 <=? Float64.emax - Float64.prec) with true
        by (symmetry; apply Z.leb_le; unfold Float64.emax, Float64.prec; lia).
      exists q, (k - 53). repeat split; try lia. exact HRN.
    + unfold shr_fexp. cbn [Zdigits2]. rewrite Hdq.
      rewrite fexp_normal by lia.
      replace (53 + (k - 53) - 53 - (k - 53)) with 0 by lia.
      reflexivity.
Qed.

Lemma bpow_52 k : (IZR (2 ^ 52) * bpow (k - 53) = bpow (k - 1))%R.
Proof.
  rewrite <- (bpow_nonneg_IZR 52) by lia. rewrite <- bpow_add.
  f_equal. lia.
Qed.

Lemma bpow_53 k : (IZR (2 ^ 53) * bpow (k - 53) = bpow k)%R.
Proof.
  rewrite <- (bpow_nonneg_IZR 53) by lia. rewrite <- bpow_add.
  f_equal. lia.
Qed.

Lemma RN_bounds x v :
  RN x v ->
  exists k, (bpow (k - 1) <= x < bpow k)%R /\ (bpow (k - 1) <= v <= bpow k)%R.
Proof.
  intros (k & m1 & m2 & Hm1 & Hr & ->). exists k.
  pose proof (rne_range _ _ _ _ Hr) as Hm2. destruct Hr as [Hb _].
  pose proof (bpow_pos (k - 53)) as Hg.
  rewrite <- (bpow_52 k), <- (bpow_53 k).
  assert (IZR (2 ^ 52) <= IZR m1)%R by (apply IZR_le; lia).
  assert (IZR m1 + 1 <= IZR (2 ^ 53))%R
    by (rewrite <- plus_IZR; apply IZR_le; lia).
  assert (IZR m1 <= IZR m2 <= IZR m1 + 1)%R
    by (rewrite <- plus_IZR; split; apply IZR_le; lia).
  nra.
Qed.

Lemma RN_mono x x' v v' :
  RN x v -> RN x' v' -> (x <= x')%R -> (v <= v')%R.
Proof.
  intros H H' Hxx.
  destruct (RN_bounds _ _ H) as (k0 & Bx & Bv).
  destruct (RN_bounds _ _ H') as (k0' & Bx' & Bv').
  destruct H as (k & m1 & m2 & Hm1 & Hr & ->).
  destruct H' as (k' & m1' & m2' & Hm1' & Hr' & ->).
  pose proof (rne_range _ _ _ _ Hr) as Hm2.
  pose proof (rne_range _ _ _ _ Hr') as Hm2'.
  pose proof (bpow_pos (k - 53)) as Hg.
  pose proof (bpow_pos (k' - 53)) as Hg'.
  assert (Hx1 : (bpow (k - 1) <= x)%R).
  { rewrite <- bpow_52. destruct Hr as [[? ?] _].
    assert (IZR (2 ^ 52) <= IZR m1)%R by (apply IZR_le; lia). nra. }
  assert (Hx2 : (x' < bpow k')%R).
  { rewrite <- bpow_53. destruct Hr' as [[? ?] _].
    assert (IZR m1' + 1 <= IZR (2 ^ 53))%R
      by (rewrite <- plus_IZR; apply IZR_le; lia). nra. }
  assert (Hk : k <= k').
  { assert (k - 1 < k') by (apply bpow_lt_inv; lra). lia. }
  destruct (Z.eq_dec k k') as [<-|Hne].
  - (* same binade *)
    destruct Hr as [[L U] C], Hr' as [[L' U'] C'].
    assert (Hm : m1 <= m1').
    { assert (IZR m1 < IZR m1' + 1)%R by nra.
      rewrite <- plus_IZR in H. apply lt_IZR in H. lia. }
    assert (Hz : m2 <= m2').
    { destruct (Z.eq_dec m1 m1') as [<-|Hlt]; [|lia].
      destruct C as [[C ->]|[[C ->]|[C ->]]],
               C' as [[C' ->]|[[C' ->]|[C' ->]]];
        try lia; try (exfalso; nra); destruct (Z.even m1); lia. }
    apply IZR_le in Hz. nra.
  - (* a lower binade *)
    assert (Hkk : (bpow k <= bpow (k' - 1))%R) by (apply bpow_le; lia).
    assert (E1 : (IZR m2 * bpow (k - 53) <= bpow k)%R).
    { rewrite <- (bpow_53 k).
      assert (IZR m2 <= IZR (2 ^ 53))%R by (apply IZR_le; lia). nra. }
    assert (E2 : (bpow (k' - 1) <= IZR m2' * bpow (k' - 53))%R).
    { rewrite <- (bpow_52 k').
      assert (IZR (2 ^ 52) <= IZR m2')%R by (apply IZR_le; lia). nra. }
    lra.
Qed.

Lemma leb_of_values (p p' : positive) (e e' : Z) :
  2 ^ 52 <= Zpos p < 2 ^ 53 -> 2 ^ 52 <= Zpos p' < 2 ^ 53 ->
  (IZR (Zpos p) * bpow e <= IZR (Zpos p') * bpow e')%R ->
  Float64.leb (S754_finite false p e) (S754_finite false p' e') = true.
Proof.
  intros Hp Hp' Hv. unfold Float64.leb, SFleb, SFcompare.
  pose proof (bpow_pos e) as Hg. pose proof (bpow_pos e') as Hg'.
  destruct (Z.compare_spec e e') as [<-|Hlt|Hgt].
  - change (Pos.compare_cont Eq p p') with (Pos.compare p p').
    destruct (Pos.compare_spec p p') as [_|_|Hgt]; try reflexivity.
    exfalso. assert (IZR (Zpos p') < IZR (Zpos p))%R by (apply IZR_lt; lia).
    nra.
  - reflexivity.
  - exfalso.
    assert (H1 : (2 * bpow e' <= bpow e)%R).
    { rewrite <- bpow_succ. apply bpow_le. lia. }
    assert (H2 : (IZR (2 ^ 52) <= IZR (Zpos p))%R) by (apply IZR_le; lia).
    assert (H3 : (IZR (Zpos p') + 1 <= IZR (2 ^ 53))%R)
      by (rewrite <- plus_IZR; apply IZR_le; lia).
    change (2 ^ 53) with (2 * 2 ^ 52) in H3. rewrite mult_IZR in H3.
    assert (0 < IZR (2 ^ 52))%R by (apply IZR_lt; lia).
    nra.
Qed.

Lemma RN_exact m e :
  2 ^ 52 <= m < 2 ^ 53 -> RN (IZR m * bpow e) (IZR m * bpow e).
Proof.
  intros Hm. exists (e + 53), m, m.
  replace (e + 53 - 53) with e by lia.
  pose proof (bpow_pos e). split; [assumption|]. split; [|reflexivity].
  split; [nra|]. left. split; [nra | reflexivity].
Qed.

Lemma pos_iter_xO p n : Zpos (Pos.iter xO p n) = Zpos p * 2 ^ Zpos n.
Proof.
  induction n as [|n IH] using Pos.peano_ind.
  - cbn. lia.
  - rewrite Pos.iter_succ, Pos2Z.inj_succ, Z.pow_succ_r by lia.
    change (Z.pos (Pos.iter xO p n)~0) with (2 * Z.pos (Pos.iter xO p n)).
    rewrite IH. lia.
Qed.

Lemma bpow_neg_cancel n : 0 <= n -> (IZR (2 ^ n) * bpow (- n) = 1)%R.
Proof.
  intros Hn. rewrite <- bpow_nonneg_IZR by assumption.
  rewrite <- bpow_add. replace (n + - n) with 0 by lia. reflexivity.
Qed.

Lemma of_int64_spec p :
  Zpos p < 2 ^ 63 ->
  exists m e,
    Float64.of_int64 (Zpos p) = S754_finite false m e
    /\ 2 ^ 52 <= Zpos m < 2 ^ 53
    /\ -52 <= e <= 11
    /\ RN (IZR (Zpos p)) (IZR (Zpos m) * bpow e).
Proof.
  intros Hp. unfold Float64.of_int64, binary_normalize, binary_round.
  pose proof (digits2_bounds p) as [B1 B2].
  set (d := Zpos (digits2_pos p)) in *.
  assert (Hd : 1 <= d <= 63).
  { split; [unfold d; lia|].
    destruct (Z_lt_le_dec 63 d); [|lia].
    assert (2 ^ 63 <= 2 ^ (d - 1)) by (apply Z.pow_le_mono_r; lia). lia. }
  rewrite Z.add_0_r. fold d. rewrite fexp_normal by lia.
  unfold shl_align. replace (d - 53 - 0) with (d - 53) by lia.
  destruct (d - 53) as [|n|n] eqn:En.
  - destruct (round_aux_normal (IZR (Zpos p)) p 0 loc_Exact)
      as (m3 & e3 & E & N & B & HRN).
    + cbn [inb]. rewrite bpow_0. lra.
    + fold d. lia.
    + fold d. lia.
    + exists m3, e3. fold d in B. repeat split; try assumption; lia.
  - destruct (round_aux_normal (IZR (Zpos p)) p 0 loc_Exact)
      as (m3 & e3 & E & N & B & HRN).
    + cbn [inb]. rewrite bpow_0. lra.
    + fold d. lia.
    + fold d. lia.
    + exists m3, e3. fold d in B. repeat split; try assumption; lia.
  - pose proof (pos_iter_xO p n) as Hz.
    set (mz := Pos.iter xO p n) in *.
    assert (Hn : Zpos n = 53 - d) by lia.
    assert (Hdz : Zpos (digits2_pos mz) = 53).
    { apply digits2_unique. rewrite Hz.
      assert (0 < 2 ^ Z.pos n) by (apply Z.pow_pos_nonneg; lia).
      replace (2 ^ (53 - 1)) with (2 ^ (d - 1) * 2 ^ Z.pos n)
        by (rewrite <- Z.pow_add_r by lia; f_equal; lia).
      replace (2 ^ 53) with (2 ^ d * 2 ^ Z.pos n)
        by (rewrite <- Z.pow_add_r by lia; f_equal; lia).
      nia. }
    replace (Z.neg n) with (d - 53) by lia.
    destruct (round_aux_normal (IZR (Zpos p)) mz (d - 53) loc_Exact)
      as (m3 & e3 & E & N & B & HRN).
    + cbn [inb]. rewrite Hz, mult_IZR.
      replace (d - 53) with (- Zpos n) by lia.
      rewrite Rmult_assoc, bpow_neg_cancel by lia. lra.
    + lia.
    + lia.
    + exists m3, e3. rewrite Hdz in B. repeat split; try assumption; lia.
Qed.

Lemma new_location_inb (x : R) (q r my e : Z) :
  0 < my -> 0 <= r < my ->
  (x * IZR my = IZR (q * my + r) * bpow e)%R ->
  inb x q e (new_location my r).
Proof.
  intros Hmy Hr Hx. pose proof (bpow_pos e) as Hg.
  assert (Hmy' : (0 < IZR my)%R) by (apply IZR_lt; lia).
  rewrite plus_IZR, mult_IZR in Hx.
  assert (Hr0 : (0 <= IZR r)%R) by (apply IZR_le; lia).
  assert (Hr1 : (IZR r < IZR my)%R) by (apply IZR_lt; lia).
  assert (Key : forall y : R,
             (y * IZR my = (IZR q * IZR my + IZR r) * bpow e)%R -> y = x).
  { intros y Hy. apply Rmult_eq_reg_r with (IZR my); lra. }
  unfold new_location.
  destruct (Z.even my) eqn:Ev.
  - unfold new_location_even. destruct (Z.eqb_spec r 0) as [->|Hne].
    + cbn [inb]. apply Rmult_eq_reg_r with (IZR my); lra.
    + assert (0 < IZR r)%R by (apply IZR_lt; lia).
      destruct (Z.compare_spec (2 * r) my) as [E|L|G]; cbn [inb].
      * apply Rmult_eq_reg_r with (IZR my); [|lra].
        rewrite <- E in *. rewrite mult_IZR in *. nra.
      * apply IZR_lt in L. rewrite mult_IZR in L.
        split; apply Rmult_lt_reg_r with (IZR my); nra.
      * apply IZR_lt in G. rewrite mult_IZR in G.
        split; apply Rmult_lt_reg_r with (IZR my); nra.
  - unfold new_location_odd. destruct (Z.eqb_spec r 0) as [->|Hne].
    + cbn [inb]. apply Rmult_eq_reg_r with (IZR my); lra.
    + assert (0 < IZR r)%R by (apply IZR_lt; lia).
      assert (Hodd : 2 * r <> my).
      { intros <-. rewrite Z.even_mul in Ev. discriminate. }
      destruct (Z.compare_spec (2 * r + 1) my) as [E|L|G]; cbn [inb].
      * assert (L : 2 * r < my) by lia.
        apply IZR_lt in L. rewrite mult_IZR in L.
        split; apply Rmult_lt_reg_r with (IZR my); nra.
      * assert (L' : 2 * r < my) by lia.
        apply IZR_lt in L'. rewrite mult_IZR in L'.
        split; apply Rmult_lt_reg_r with (IZR my); nra.
      * assert (G' : my < 2 * r) by lia.
        apply IZR_lt in G'. rewrite mult_IZR in G'.
        split; apply Rmult_lt_reg_r with (IZR my); nra.
Qed.

Lemma bpow_opp e : bpow (- e) = (/ bpow e)%R.
Proof. apply powerRZ_neg'. Qed.

Lemma div_spec (mx my : positive) (ex ey : Z) :
  2 ^ 52 <= Zpos mx < 2 ^ 53 -> 2 ^ 52 <= Zpos my < 2 ^ 53 ->
  -400 <= ex <= 400 -> -400 <= ey <= 400 ->
  exists m e,
    Float64.div (S754_finite false mx ex) (S754_finite false my ey)
    = S754_finite false m e
    /\ 2 ^ 52 <= Zpos m < 2 ^ 53
    /\ ex - ey - 53 <= e <= ex - ey - 51
    /\ RN (IZR (Zpos mx) * bpow ex / (IZR (Zpos my) * bpow ey))
          (IZR (Zpos m) * bpow e).
Proof.
  intros Hmx Hmy Hex Hey. unfold Float64.div, SFdiv. cbn [xorb].
  unfold SFdiv_core_binary. cbn [Zdigits2].
  rewrite (digits2_unique mx 53), (digits2_unique my 53) by lia.
  replace (53 + ex - (53 + ey)) with (ex - ey) by lia.
  rewrite fexp_normal by lia.
  rewrite Z.min_l by lia.
  replace (ex - ey - (ex - ey - 53)) with 53 by lia. cbv iota.
  rewrite Z.shiftl_mul_pow2 by lia.
  pose proof (Z_div_mod (Zpos mx * 2 ^ 53) (Zpos my) ltac:(lia)) as Hdm.
  destruct (Z.div_eucl (Z.pos mx * 2 ^ 53) (Z.pos my)) as [q r].
  destruct Hdm as [Hdm Hr].
  assert (Hq : 2 ^ 52 <= q < 2 ^ 54).
  { change (2 ^ 54) with (2 * 2 ^ 53). change (2 ^ 53) with (2 * 2 ^ 52) in *.
    generalize dependent (2 ^ 52). intros. nia. }
  destruct q as [|pq|pq]; try lia.
  assert (Hd : 53 <= Zpos (digits2_pos pq) <= 54).
  { pose proof (digits2_bounds pq) as [B1 B2]. split.
    - destruct (Z_lt_le_dec (Zpos (digits2_pos pq)) 53); [|lia].
      assert (2 ^ Zpos (digits2_pos pq) <= 2 ^ 52)
        by (apply Z.pow_le_mono_r; lia). lia.
    - destruct (Z_lt_le_dec 54 (Zpos (digits2_pos pq))); [|lia].
      assert (2 ^ 54 <= 2 ^ (Zpos (digits2_pos pq) - 1))
        by (apply Z.pow_le_mono_r; lia). lia. }
  destruct (round_aux_normal
              (IZR (Zpos mx) * bpow ex / (IZR (Zpos my) * bpow ey))
              pq (ex - ey - 53) (new_location (Zpos my) r))
    as (m3 & e3 & E & N & B & HRN).
  - apply new_location_inb; [lia | lia |].
    rewrite (Z.mul_comm (Zpos pq)), <- Hdm, mult_IZR.
    rewrite <- (bpow_nonneg_IZR 53) by lia.
    rewrite Rmult_assoc, <- bpow_add.
    replace (53 + (ex - ey - 53)) with (ex + - ey) by lia.
    rewrite bpow_add, bpow_opp.
    pose proof (bpow_pos ey).
    assert (0 < IZR (Zpos my))%R by (apply IZR_lt; lia).
    field. split; lra.
  - lia.
  - lia.
  - exists m3, e3. repeat split; try assumption; lia.
Qed.

Lemma mul_spec (mx my : positive) (ex ey : Z) :
  2 ^ 52 <= Zpos mx < 2 ^ 53 -> 2 ^ 52 <= Zpos my < 2 ^ 53 ->
  -400 <= ex <= 400 -> -400 <= ey <= 400 ->
  exists m e,
    Float64.mul (S754_finite false mx ex) (S754_finite false my ey)
    = S754_finite false m e
    /\ 2 ^ 52 <= Zpos m < 2 ^ 53
    /\ RN (IZR (Zpos mx) * bpow ex * (IZR (Zpos my) * bpow ey))
          (IZR (Zpos m) * bpow e).
Proof.
  intros Hmx Hmy Hex Hey. unfold Float64.mul, SFmul. cbn [xorb].
  assert (Hp : 2 ^ 104 <= Zpos (mx * my) < 2 ^ 106).
  { rewrite Pos2Z.inj_mul.
    change (2 ^ 104) with (2 ^ 52 * 2 ^ 52).
    change (2 ^ 106) with (2 ^ 53 * 2 ^ 53).
    split; [apply Z.mul_le_mono_nonneg | apply Z.mul_lt_mono_nonneg]; lia. }
  assert (Hd : 105 <= Zpos (digits2_pos (mx * my)) <= 106).
  { pose proof (digits2_bounds (mx * my)) as [B1 B2]. split.
    - destruct (Z_lt_le_dec (Zpos (digits2_pos (mx * my))) 105); [|lia].
      assert (2 ^ Zpos (digits2_pos (mx * my)) <= 2 ^ 104)
        by (apply Z.pow_le_mono_r; lia). lia.
    - destruct (Z_lt_le_dec 106 (Zpos (digits2_pos (mx * my)))); [|lia].
      assert (2 ^ 106 <= 2 ^ (Zpos (digits2_pos (mx * my)) - 1))
        by (apply Z.pow_le_mono_r; lia). lia. }
  destruct (round_aux_normal
              (IZR (Zpos mx) * bpow ex * (IZR (Zpos my) * bpow ey))
              (mx * my) (ex + ey) loc_Exact)
    as (m3 & e3 & E & N & B & HRN).
  - cbn [inb]. rewrite Pos2Z.inj_mul, mult_IZR, bpow_add. ring.
  - lia.
  - lia.
  - exists m3, e3. split; [exact E|]. split; [exact N | exact HRN].
Qed.

Lemma hundred_finite :
  Float64.hundred = S754_finite false 7036874417766400 (-46).
Proof. reflexivity. Qed.

Lemma hundred_value : (IZR (Zpos 7036874417766400) * bpow (-46) = 100)%R.
Proof.
  change (Zpos 7036874417766400) with (100 * 2 ^ 46). rewrite mult_IZR.
  rewrite Rmult_assoc, bpow_neg_cancel by lia. lra.
Qed.

Lemma one_value : (IZR (2 ^ 52) * bpow (-52) = 1)%R.
Proof. apply bpow_neg_cancel. lia. Qed.

Lemma RN_pos x v : (0 < x)%R -> RN x v -> (0 < v)%R.
Proof.
  intros Hx H. destruct (RN_bounds _ _ H) as (k & _ & Bv).
  pose proof (bpow_pos (k - 1)). lra.
Qed.

(** The percentage of a positive count, against a total already
    converted. *)
Lemma progress_chain (mS : positive) (eS : Z) (p : positive) :
  2 ^ 52 <= Zpos mS < 2 ^ 53 -> -52 <= eS <= 11 ->
  Zpos p < 2 ^ 63 ->
  exists m e va vq,
    Float64.mul (Float64.div (Float64.of_int64 (Zpos p)) (S754_finite false mS eS)) Float64.hundred
    = S754_finite false m e
    /\ 2 ^ 52 <= Zpos m < 2 ^ 53
    /\ RN (IZR (Zpos p)) va
    /\ RN (va / (IZR (Zpos mS) * bpow eS)) vq
    /\ RN (vq * 100) (IZR (Zpos m) * bpow e).
Proof.
  intros HmS HeS Hp.
  destruct (of_int64_spec p Hp) as (ma & ea & Ea & Na & Ba & Ra).
  destruct (div_spec ma mS ea eS Na HmS ltac:(lia) ltac:(lia))
    as (mq & eq & Eq & Nq & Bq & Rq).
  destruct (mul_spec mq 7036874417766400 eq (-46) Nq ltac:(cbn; lia)
                     ltac:(lia) ltac:(lia))
    as (m & e & Em & Nm & Rm).
  exists m, e, (IZR (Zpos ma) * bpow ea)%R, (IZR (Zpos mq) * bpow eq)%R.
  rewrite Ea, Eq, hundred_finite, Em.
  rewrite hundred_value in Rm. repeat split; try assumption; try lia.
Qed.

Lemma progress_zero (S : positive) :
  Zpos S < 2 ^ 63 -> progress_of 0 (Zpos S) = S754_zero false.
Proof.
  intros HS. unfold progress_of.
  destruct (of_int64_spec S HS) as (mS & eS & ES & _). rewrite ES.
  reflexivity.
Qed.

Theorem progress_mono (a b S : Z) :
  0 <= a <= b -> b < 2 ^ 63 -> 0 < S < 2 ^ 63 ->
  Float64.leb (progress_of a S) (progress_of b S) = true.
Proof.
  intros Hab Hb HS. destruct S as [|S|S]; try lia.
  destruct a as [|pa|pa]; try lia.
  - rewrite progress_zero by lia. destruct b as [|pb|pb]; try lia.
    + rewrite progress_zero by lia. reflexivity.
    + unfold progress_of.
      destruct (of_int64_spec S ltac:(lia)) as (mS & eS & ES & NS & BS & RS).
      rewrite ES.
      destruct (progress_chain mS eS pb NS BS ltac:(lia))
        as (m & e & va & vq & E & _). rewrite E. reflexivity.
  - destruct b as [|pb|pb]; try lia. unfold progress_of.
    destruct (of_int64_spec S ltac:(lia)) as (mS & eS & ES & NS & BS & RS).
    rewrite ES.
    destruct (progress_chain mS eS pa NS BS ltac:(lia))
      as (m & e & va & vq & E & N & Ra & Rq & Rv).
    destruct (progress_chain mS eS pb NS BS ltac:(lia))
      as (m' & e' & va' & vq' & E' & N' & Ra' & Rq' & Rv').
    rewrite E, E'. apply leb_of_values; try assumption.
    assert (HvS : (0 < IZR (Zpos mS) * bpow eS)%R).
    { apply RN_pos with (IZR (Zpos S)); [apply IZR_lt; lia | exact RS]. }
    assert (Hva : (va <= va')%R).
    { apply (RN_mono _ _ _ _ Ra Ra'). apply IZR_le. lia. }
    assert (Hvq : (vq <= vq')%R).
    { apply (RN_mono _ _ _ _ Rq Rq').
      unfold Rdiv. apply Rmult_le_compat_r; [|exact Hva].
      apply Rlt_le, Rinv_0_lt_compat, HvS. }
    apply (RN_mono _ _ _ _ Rv Rv'). lra.
Qed.

Theorem progress_le_100 (a S : Z) :
  0 <= a <= S -> 0 < S < 2 ^ 63 ->
  Float64.leb (progress_of a S) Float64.hundred = true.
Proof.
  intros Ha HS. destruct S as [|S|S]; try lia.
  destruct a as [|pa|pa]; try lia.
  - rewrite progress_zero by lia. reflexivity.
  - unfold progress_of.
    destruct (of_int64_spec S ltac:(lia)) as (mS & eS & ES & NS & BS & RS).
    rewrite ES.
    destruct (progress_chain mS eS pa NS BS ltac:(lia))
      as (m & e & va & vq & E & N & Ra & Rq & Rv).
    rewrite E, hundred_finite. apply leb_of_values; [assumption | cbn; lia |].
    rewrite hundred_value.
    assert (HvS : (0 < IZR (Zpos mS) * bpow eS)%R).
    { apply RN_pos with (IZR (Zpos S)); [apply IZR_lt; lia | exact RS]. }
    assert (Hva : (va <= IZR (Zpos mS) * bpow eS)%R).
    { apply (RN_mono _ _ _ _ Ra RS). apply IZR_le. lia. }
    assert (Hvq : (vq <= 1)%R).
    { rewrite <- one_value at 1.
      apply (RN_mono _ _ _ _ Rq (RN_exact (2 ^ 52) (-52) ltac:(lia))).
      rewrite one_value.
      apply Rmult_le_reg_r with (IZR (Zpos mS) * bpow eS)%R; [exact HvS|].
      unfold Rdiv. rewrite Rmult_assoc, Rinv_l by lra. lra. }
    rewrite <- hundred_value.
    apply (RN_mono _ _ _ _ Rv
             (RN_exact (Zpos 7036874417766400) (-46) ltac:(cbn; lia))).
    rewrite hundred_value. lra.
Qed.

End Float64_facts.

(** ** Percentages along a sequence of reads *)

Lemma percentages_nondecreasing (size : Z) (c0 : Z) (cs : list Z) :
  0 < size <= Int64.max_int ->
  0 <= c0 ->
  nondecreasing Z.leb (c0 :: cs) ->
  Forall (fun c => 0 <= c <= size) cs ->
  nondecreasing Float64.leb (map (fun c => progress_of c size) cs)
  /\ Forall (fun x => Float64.leb x Float64.hundred = true)
            (map (fun c => progress_of c size) cs).
Proof.
  intros Hs. revert c0. induction cs as [|c cs IH]; intros c0 H0 Hnd Hb.
  - cbn. auto.
  - inversion Hb as [|? ? Hc Hb']; subst.
    cbn [nondecreasing] in Hnd. destruct Hnd as [_ Hnd].
    destruct (IH c ltac:(lia) Hnd Hb') as [I1 I2].
    split.
    + cbn [map nondecreasing]. destruct cs as [|c' cs]; [exact I|].
      cbn [map] in *. split; [|exact I1].
      cbn [nondecreasing] in Hnd. destruct Hnd as [Hcc _].
      apply Z.leb_le in Hcc. inversion Hb' as [|? ? Hc' _]; subst.
      apply Float64_facts.progress_mono; int64_lia.
    + cbn [map]. constructor; [|exact I2].
      apply Float64_facts.progress_le_100; int64_lia.
Qed.

(** Percentages of counts that never step down never step down
    themselves, whatever the size. *)
Lemma percentages_never_step_down (size : Z) (c0 : Z) (cs : list Z) :
  0 < size <= Int64.max_int ->
  0 <= c0 ->
  nondecreasing Z.leb (c0 :: cs) ->
  Forall (fun c => 0 <= c <= Int64.max_int) cs ->
  nondecreasing Float64.leb (map (fun c => progress_of c size) cs).
Proof.
  intros Hs. revert c0. induction cs as [|c cs IH]; intros c0 H0 Hnd Hb.
  - exact I.
  - inversion Hb as [|? ? Hc Hb']; subst.
    cbn [nondecreasing] in Hnd. destruct Hnd as [_ Hnd].
    pose proof (IH c ltac:(lia) Hnd Hb') as I1.
    cbn [map nondecreasing]. destruct cs as [|c' cs]; [exact I|].
    cbn [map] in *. split; [|exact I1].
    cbn [nondecreasing] in Hnd. destruct Hnd as [Hcc _].
    apply Z.leb_le in Hcc. inversion Hb' as [|? ? Hc' _]; subst.
    apply Float64_facts.progress_mono; int64_lia.
Qed.

(** Claim C2, as the program has it.  While the wrapped reader returns
    counts that are not negative and the count stays within [int64], the
    count never steps down, and the percentages emitted, which are
    [float64(read)/float64(Size)*100] for the successive counts, never
    step down either: for every source, one that yields more than [Size]
    included.  For a source whose bytes, with the starting count, do not
    exceed [Size], the count stays within [Size] and no percentage
    exceeds 100. *)
Theorem C2_progress_monotone_and_bounded_while_source_fits
        {R : Type} `{Reader R}
        (pr : ProgressReader R (list Float64.t)) (bufs : list nat) :
  OnProgress pr = Some record_progress ->
  0 < Size pr <= Int64.max_int ->
  0 <= read pr ->
  Forall (fun r => 0 <= n_ r) (fst (Read_seq (Reader_ pr) bufs)) ->
  read pr + Zsum (map n_ (fst (Read_seq (Reader_ pr) bufs)))
  <= Int64.max_int ->
  let cs := counts pr bufs [] in
  let log := snd (reads pr bufs []) in
  nondecreasing Z.leb (read pr :: cs)
  /\ log = map (fun c => progress_of c (Size pr)) cs
  /\ nondecreasing Float64.leb log
  /\ (read pr + Zsum (map n_ (fst (Read_seq (Reader_ pr) bufs)))
      <= Size pr ->
      Forall (fun c => c <= Size pr) cs
      /\ Forall (fun x => Float64.leb x Float64.hundred = true) log).
Proof.
  intros Hcb Hs H0 Hn Hsum. cbv zeta.
  destruct (counts_bounded pr bufs [] Int64.max_int H0 ltac:(lia) Hn Hsum)
    as [C1 C2].
  rewrite (reads_log pr bufs [] Hcb ltac:(lia)). cbn [app].
  split; [exact C1|]. split; [reflexivity|]. split.
  - exact (percentages_never_step_down (Size pr) (read pr)
             (counts pr bufs []) Hs H0 C1 C2).
  - intros Hfit.
    destruct (counts_bounded pr bufs [] (Size pr) H0 ltac:(lia) Hn Hfit)
      as [_ C3].
    destruct (percentages_nondecreasing (Size pr) (read pr)
                (counts pr bufs []) Hs H0 C1 C3) as [_ P2].
    split; [|exact P2].
    eapply Forall_impl; [|exact C3]. cbn. intros c Hc. lia.
Qed.

(** ** [formatBytes] *)

(** The loop stops after [i] turns, where [unit ^ i <= n < unit ^ (i+1)],
    with [div] multiplied by [unit ^ i] and [exp] raised by [i]; nothing
    wraps around on the way. *)
Lemma formatBytes_loop_spec (fuel : nat) (n div exp : Z) :
  1 <= n < unit_ ^ (Z.of_nat fuel + 1) ->
  0 < div -> div * n <= Int64.max_int ->
  0 <= exp -> exp + Z.of_nat fuel <= Int64.max_int ->
  exists i, 0 <= i <= Z.of_nat fuel
    /\ unit_ ^ i <= n < unit_ ^ (i + 1)
    /\ formatBytes_loop fuel n div exp = Some (div * unit_ ^ i, exp + i).
Proof.
  revert n div exp.
  induction fuel as [|fuel IH]; intros n div exp Hn Hd Hdn He Hef.
  - exists 0. cbn [formatBytes_loop].
    change (unit_ ^ (Z.of_nat 0 + 1)) with unit_ in Hn.
    change (unit_ ^ (0 + 1)) with unit_. change (unit_ ^ 0) with 1.
    replace (unit_ <=? n) with false by (symmetry; apply Z.leb_gt; lia).
    repeat split; try lia. repeat f_equal; lia.
  - cbn [formatBytes_loop]. destruct (Z.leb_spec unit_ n) as [Hge|Hlt].
    + assert (Hu : unit_ = 1024) by reflexivity.
      assert (Hq : Z.quot n unit_ = n / unit_).
      { apply Z.quot_div_nonneg; lia. }
      rewrite Hq.
      assert (Hdiv : unit_ * (n / unit_) <= n < unit_ * (n / unit_) + unit_).
      { pose proof (Z.mul_div_le n unit_ ltac:(lia)).
        pose proof (Z.mul_succ_div_gt n unit_ ltac:(lia)).
        lia. }
      assert (H1 : 1 <= n / unit_).
      { apply Z.div_le_lower_bound; lia. }
      assert (Hpow : unit_ ^ (Z.of_nat (S fuel) + 1)
                     = unit_ * unit_ ^ (Z.of_nat fuel + 1)).
      { replace (Z.of_nat (S fuel) + 1) with (Z.succ (Z.of_nat fuel + 1)) by lia.
        apply Z.pow_succ_r. lia. }
      rewrite Hpow in Hn.
      assert (Hmul : mul64 div unit_ = div * unit_).
      { apply wrap_small. unfold Int64.in_range, Int64.min_int, Int64.max_int in *. nia. }
      assert (Hexp : Int64.add exp 1 = exp + 1).
      { apply add_small. int64_lia. }
      rewrite Hmul, Hexp.
      destruct (IH (n / unit_) (div * unit_) (exp + 1)) as (i & Hi & Hb & Hrun).
      * split; [lia|]. 
        generalize dependent (unit_ ^ (Z.of_nat fuel + 1)). intros P. intros. nia.
      * nia.
      * nia.
      * lia.
      * lia.
      * exists (i + 1). split; [lia|]. split.
        -- replace (i + 1 + 1) with (Z.succ (i + 1)) by lia.
           replace (i + 1) with (Z.succ i) at 1 by lia.
           rewrite !Z.pow_succ_r by lia.
           generalize dependent (unit_ ^ (i + 1)).
           generalize dependent (unit_ ^ i). intros. nia.
        -- rewrite Hrun. f_equal. f_equal; [|lia].
           replace (i + 1) with (Z.succ i) by lia.
           rewrite Z.pow_succ_r by lia. ring.
    + exists 0. change (unit_ ^ 0) with 1.
      change (unit_ ^ (0 + 1)) with unit_.
      repeat split; try lia. repeat f_equal; lia.
Qed.

Module Float64_exact.

Import Reals Lra Psatz Rounding Float64_facts.
Local Open Scope Z_scope.

(** Rounding is a function. *)
Lemma RN_fun x v v' : RN x v -> RN x v' -> v = v'.
Proof.
  intros H H'. apply Rle_antisym.
  - apply (RN_mono _ _ _ _ H H'). lra.
  - apply (RN_mono _ _ _ _ H' H). lra.
Qed.

Lemma bpow_ge_2 d : 1 <= d -> (2 <= bpow d)%R.
Proof. intros Hd. rewrite <- bpow_1. now apply bpow_le. Qed.

Lemma normal_lt_exp (m m' e e' : Z) :
  2 ^ 52 <= m < 2 ^ 53 -> 2 ^ 52 <= m' < 2 ^ 53 -> e < e' ->
  (IZR m * bpow e < IZR m' * bpow e')%R.
Proof.
  intros Hm Hm' He.
  replace e' with ((e' - e) + e) by lia. rewrite bpow_add.
  pose proof (bpow_ge_2 (e' - e) ltac:(lia)) as H2.
  pose proof (bpow_pos e) as He0.
  assert (IZR m < IZR (2 ^ 53))%R by (apply IZR_lt; lia).
  assert (IZR (2 ^ 52) <= IZR m')%R by (apply IZR_le; lia).
  assert (IZR (2 ^ 53) = 2 * IZR (2 ^ 52))%R.
  { rewrite <- mult_IZR. reflexivity. }
  rewrite <- Rmult_assoc. apply Rmult_lt_compat_r; [exact He0|]. nra.
Qed.

(** A number has one normal representation. *)
Lemma normal_unique (m m' e e' : Z) :
  2 ^ 52 <= m < 2 ^ 53 -> 2 ^ 52 <= m' < 2 ^ 53 ->
  (IZR m * bpow e = IZR m' * bpow e')%R -> m = m' /\ e = e'.
Proof.
  intros Hm Hm' Hv.
  destruct (Z.lt_trichotomy e e') as [Hlt|[Heq|Hgt]].
  - pose proof (normal_lt_exp m m' e e' Hm Hm' Hlt). lra.
  - subst e'. split; [|reflexivity]. apply eq_IZR.
    pose proof (bpow_pos e). nra.
  - pose proof (normal_lt_exp m' m e' e Hm' Hm Hgt). lra.
Qed.

(** When the count has reached the size, the percentage is exactly
    100. *)
Lemma progress_full (size : Z) :
  0 < size < 2 ^ 63 -> progress_of size size = Float64.hundred.
Proof.
  intros HS. destruct size as [|S|S]; try lia. unfold progress_of.
  destruct (of_int64_spec S ltac:(lia)) as (mS & eS & ES & NS & BS & RS).
  rewrite ES.
  destruct (div_spec mS mS eS eS NS NS ltac:(lia) ltac:(lia))
    as (mq & eq & Eq & Nq & Bq & Rq).
  rewrite Eq.
  assert (HvS : (0 < IZR (Zpos mS) * bpow eS)%R).
  { apply RN_pos with (IZR (Zpos S)); [apply IZR_lt; lia | exact RS]. }
  assert (H1 : (IZR (Z.pos mS) * bpow eS / (IZR (Z.pos mS) * bpow eS) = 1)%R).
  { unfold Rdiv. apply Rinv_r. lra. }
  rewrite H1 in Rq. rewrite <- one_value in Rq at 1.
  pose proof (RN_fun _ _ _ Rq (RN_exact (2 ^ 52) (-52) ltac:(lia))) as Hv.
  destruct (normal_unique (Z.pos mq) (2 ^ 52) eq (-52) Nq ltac:(lia) Hv)
    as [Hm He].
  subst eq. change (2 ^ 52) with (Z.pos 4503599627370496) in Hm.
  injection Hm as Hm. subst mq.
  reflexivity.
Qed.

Lemma pow2_value (j : Z) :
  0 <= j -> (IZR (2 ^ 52) * bpow (j - 52) = IZR (2 ^ j))%R.
Proof.
  intros Hj. replace (j - 52) with (-52 + j) by lia.
  rewrite bpow_add, <- Rmult_assoc, one_value, Rmult_1_l.
  now apply bpow_nonneg_IZR.
Qed.

Lemma of_int64_unit_pow (k : Z) :
  0 <= k <= 5 ->
  Float64.of_int64 (unit_ ^ (k + 1))
  = S754_finite false 4503599627370496 (10 * (k + 1) - 52).
Proof.
  intros Hk.
  assert (Hc : k = 0 \/ k = 1 \/ k = 2 \/ k = 3 \/ k = 4 \/ k = 5) by lia.
  destruct Hc as [->|[->|[->|[->|[->| ->]]]]]; reflexivity.
Qed.

(** The quotient that [formatBytes] computes for a count in the range
    of the [k]-th unit. *)
Lemma scaled_quotient_range (bytes k : Z) :
  0 <= k <= 5 ->
  unit_ ^ (k + 1) <= bytes < unit_ ^ (k + 2) ->
  bytes <= Int64.max_int ->
  let q := Float64.div (Float64.of_int64 bytes)
                       (Float64.of_int64 (unit_ ^ (k + 1))) in
  Float64.leb float_1 q = true /\ Float64.leb q float_1024 = true.
Proof.
  intros Hk Hb Hmax. cbv zeta.
  assert (Hu : forall j, 0 <= j -> unit_ ^ j = 2 ^ (10 * j)).
  { intros j Hj. unfold unit_. change 1024 with (2 ^ 10).
    rewrite <- Z.pow_mul_r by lia. reflexivity. }
  rewrite (Hu (k + 1)), (Hu (k + 2)) in Hb by lia.
  assert (Hpos : 0 < 2 ^ (10 * (k + 1))) by (apply Z.pow_pos_nonneg; lia).
  destruct bytes as [|p|p]; try lia.
  rewrite of_int64_unit_pow by exact Hk.
  destruct (of_int64_spec p ltac:(unfold Int64.max_int in Hmax; lia))
    as (m & e & E & N & B & Rb).
  rewrite E.
  destruct (div_spec m 4503599627370496 e (10 * (k + 1) - 52) N
                     ltac:(cbn; lia) ltac:(lia) ltac:(lia))
    as (mq & eq & Eq & Nq & Bq & Rq).
  rewrite Eq.
  change (Z.pos 4503599627370496) with (2 ^ 52) in Rq.
  rewrite pow2_value in Rq by lia.
  set (D := IZR (2 ^ (10 * (k + 1)))) in *.
  assert (HD : (0 < D)%R) by (apply IZR_lt; exact Hpos).
  assert (Hlo : (D <= IZR (Z.pos m) * bpow e)%R).
  { unfold D. rewrite <- pow2_value by lia.
    apply (RN_mono _ _ _ _ (RN_exact (2 ^ 52) _ ltac:(lia)) Rb).
    rewrite pow2_value by lia. apply IZR_le. lia. }
  assert (Hhi : (IZR (Z.pos m) * bpow e <= 1024 * D)%R).
  { replace (1024 * D)%R with (IZR (2 ^ (10 * (k + 2)))).
    - rewrite <- (pow2_value (10 * (k + 2))) by lia.
      apply (RN_mono _ _ _ _ Rb (RN_exact (2 ^ 52) _ ltac:(lia))).
      rewrite pow2_value by lia. apply IZR_le. lia.
    - unfold D. rewrite <- mult_IZR. f_equal.
      replace (10 * (k + 2)) with (10 + 10 * (k + 1)) by lia.
      rewrite Z.pow_add_r by lia. reflexivity. }
  assert (Hq1 : (1 <= IZR (Z.pos m) * bpow e / D)%R).
  { apply Rmult_le_reg_r with D; [exact HD|].
    unfold Rdiv. rewrite Rmult_assoc, Rinv_l by lra. lra. }
  assert (Hq2 : (IZR (Z.pos m) * bpow e / D <= 1024)%R).
  { apply Rmult_le_reg_r with D; [exact HD|].
    unfold Rdiv. rewrite Rmult_assoc, Rinv_l by lra. lra. }
  split.
  - apply (leb_of_values 4503599627370496 mq (-52) eq);
      [cbn; lia | exact Nq |].
    apply (RN_mono _ _ _ _ (RN_exact (2 ^ 52) (-52) ltac:(lia)) Rq).
    rewrite one_value. exact Hq1.
  - apply (leb_of_values mq 4503599627370496 eq (-42));
      [exact Nq | cbn; lia |].
    apply (RN_mono _ _ _ _ Rq (RN_exact (2 ^ 52) (-42) ltac:(lia))).
    change (-42) with (10 - 52). rewrite pow2_value by lia.
    change (IZR (2 ^ 10)) with 1024%R. exact Hq2.
Qed.

End Float64_exact.

Lemma formatBytes_scaled (bytes : Z) :
  unit_ <= bytes <= Int64.max_int ->
  exists k c,
    0 <= k <= 5
    /\ unit_ ^ (k + 1) <= bytes < unit_ ^ (k + 2)
    /\ nth_error (bytes_of "KMGTPE") (Z.to_nat k) = Some c
    /\ formatBytes bytes =
       Some (Scaled (Float64.div (Float64.of_int64 bytes)
                                 (Float64.of_int64 (unit_ ^ (k + 1)))) c).
Proof.
  intros Hb. assert (Hu : unit_ = 1024) by reflexivity.
  unfold formatBytes.
  replace (bytes <? unit_) with false by (symmetry; apply Z.ltb_ge; lia).
  assert (Hq : Z.quot bytes unit_ = bytes / unit_).
  { apply Z.quot_div_nonneg; lia. }
  rewrite Hq.
  assert (Hdiv : unit_ * (bytes / unit_) <= bytes
                 < unit_ * (bytes / unit_) + unit_).
  { pose proof (Z.mul_div_le bytes unit_ ltac:(lia)).
    pose proof (Z.mul_succ_div_gt bytes unit_ ltac:(lia)). lia. }
  assert (H1 : 1 <= bytes / unit_).
  { apply Z.div_le_lower_bound; lia. }
  set (n := bytes / unit_) in *.
  assert (Hn : n < 2 ^ 53) by (unfold Int64.max_int in Hb; lia).
  destruct (formatBytes_loop_spec 64 n unit_ 0) as (i & Hi & Hin & Hrun).
  - split; [lia|]. eapply Z.lt_trans; [exact Hn|]. reflexivity.
  - lia.
  - lia.
  - lia.
  - unfold Int64.max_int. lia.
  - rewrite Hrun.
    assert (Hi5 : i <= 5).
    { destruct (Z.le_gt_cases i 5) as [|Hgt]; [assumption|exfalso].
      assert (unit_ ^ 6 <= unit_ ^ i) by (apply Z.pow_le_mono_r; lia).
      change (unit_ ^ 6) with (2 ^ 60) in *. lia. }
    assert (Hp : unit_ * unit_ ^ i = unit_ ^ (i + 1)).
    { replace (i + 1) with (Z.succ i) by lia.
      rewrite Z.pow_succ_r by lia. reflexivity. }
    assert (Hp' : unit_ * unit_ ^ (i + 1) = unit_ ^ (i + 2)).
    { replace (i + 2) with (Z.succ (i + 1)) by lia.
      rewrite Z.pow_succ_r by lia. reflexivity. }
    rewrite Hp. replace (0 + i) with i by lia.
    assert (Hc : i = 0 \/ i = 1 \/ i = 2 \/ i = 3 \/ i = 4 \/ i = 5) by lia.
    assert (Hidx : exists c, index (bytes_of "KMGTPE") i = Some c
                   /\ nth_error (bytes_of "KMGTPE") (Z.to_nat i) = Some c).
    { destruct Hc as [->|[->|[->|[->|[->| ->]]]]];
        eexists; split; reflexivity. }
    destruct Hidx as (c & Hidx & Hnth). rewrite Hidx.
    exists i, c. repeat split; try lia; assumption.
Qed.

(** Property X1.  [formatBytes] never fails on an [int64], and picks the
    unit by powers of 1024: a count below 1024 (negative ones included) is
    printed as it is, in bytes; a count from [1024^(k+1)] up to, but not
    including, [1024^(k+2)] is divided by [1024^(k+1)] and gets the
    [k]-th letter of [KMGTPE].  [k] never passes 5, so the index into the
    six letters is always in range. *)
Theorem X1_formatBytes_selects_the_unit (bytes : Z) :
  Int64.in_range bytes ->
  (bytes < 1024 -> formatBytes bytes = Some (Plain bytes))
  /\ (1024 <= bytes ->
      exists k c,
        0 <= k <= 5
        /\ 1024 ^ (k + 1) <= bytes < 1024 ^ (k + 2)
        /\ nth_error (bytes_of "KMGTPE") (Z.to_nat k) = Some c
        /\ formatBytes bytes =
           Some (Scaled (Float64.div (Float64.of_int64 bytes)
                                     (Float64.of_int64 (1024 ^ (k + 1))))
                        c)).
Proof.
  intros [_ Hmax]. split.
  - intros Hlt. unfold formatBytes.
    replace (bytes <? unit_) with true
      by (symmetry; apply Z.ltb_lt; exact Hlt).
    reflexivity.
  - intros Hge. apply formatBytes_scaled. unfold unit_. lia.
Qed.

(** Property X2.  For a count of 1024 or more, the number [formatBytes]
    hands to [%.1f] is a [float64] between 1 and 1024, both included:
    the scaled value never falls below one unit and never passes 1024 of
    them. *)
Theorem X2_formatBytes_quotient_between_1_and_1024 (bytes : Z) :
  Int64.in_range bytes -> 1024 <= bytes ->
  exists x c,
    formatBytes bytes = Some (Scaled x c)
    /\ Float64.leb float_1 x = true
    /\ Float64.leb x float_1024 = true.
Proof.
  intros [_ Hmax] Hge.
  destruct (formatBytes_scaled bytes ltac:(unfold unit_; lia))
    as (k & c & Hk & Hb & _ & Hrun).
  rewrite Hrun. eexists. exists c. split; [reflexivity|].
  now apply Float64_exact.scaled_quotient_range.
Qed.

(** ** [filepath.Base] *)

Lemma take_while_all (f : byte -> bool) (l : list byte) :
  Forall (fun b => f b = true) (take_while f l).
Proof.
  induction l as [|x l IH]; cbn; [constructor|].
  destruct (f x) eqn:E; constructor; assumption.
Qed.

Lemma take_while_app (f : byte -> bool) (l r : list byte) (x : byte) :
  Forall (fun b => f b = true) l -> f x = false ->
  take_while f (l ++ x :: r) = l.
Proof.
  intros Hl Hx. induction Hl as [|y l Hy _ IH]; cbn.
  - now rewrite Hx.
  - now rewrite Hy, IH.
Qed.

Lemma take_while_whole (f : byte -> bool) (l : list byte) :
  Forall (fun b => f b = true) l -> take_while f l = l.
Proof.
  intros Hl. induction Hl as [|y l Hy _ IH]; cbn; [reflexivity|].
  now rewrite Hy, IH.
Qed.

Lemma drop_while_repeat (k : nat) (l : list byte) :
  drop_while is_slash (repeat slash k ++ l) = drop_while is_slash l.
Proof. induction k as [|k IH]; cbn; [reflexivity | exact IH]. Qed.

Lemma drop_while_stop (f : byte -> bool) (x : byte) (l : list byte) :
  f x = false -> drop_while f (x :: l) = x :: l.
Proof. intros Hx. cbn. now rewrite Hx. Qed.

Lemma is_slash_spec (b : byte) : is_slash b = true <-> b = slash.
Proof.
  unfold is_slash. split.
  - apply byte_eqb_true.
  - intros ->. apply byte_eqb_refl.
Qed.

Lemma not_slash (b : byte) : b <> slash -> negb (is_slash b) = true.
Proof.
  intros Hb. destruct (is_slash b) eqn:E; [|reflexivity].
  apply is_slash_spec in E. contradiction.
Qed.

Lemma Base_unfold (path : list byte) :
  path <> [] ->
  Base path =
  match rev (take_while (fun b => negb (is_slash b))
                        (drop_while is_slash (rev path))) with
  | [] => [slash]
  | name => name
  end.
Proof. destruct path; [congruence | reflexivity]. Qed.

Lemma rev_repeat (b : byte) (k : nat) : rev (repeat b k) = repeat b k.
Proof.
  induction k as [|k IH]; [reflexivity|].
  cbn [repeat rev]. rewrite IH. symmetry. apply (repeat_cons k b).
Qed.

(** The last element of a path, after any directories before it and any
    slashes after it. *)
Lemma Base_of_name (prefix name : list byte) (k : nat) :
  name <> [] -> ~ In slash name ->
  prefix = [] \/ (exists dir, prefix = dir ++ [slash]) ->
  Base (prefix ++ name ++ repeat slash k) = name.
Proof.
  intros Hne Hns Hpre.
  assert (Hall : Forall (fun b => negb (is_slash b) = true) (rev name)).
  { apply Forall_forall. intros b Hb. apply not_slash. intros ->.
    apply Hns. now apply in_rev. }
  rewrite Base_unfold.
  2:{ destruct name; [congruence|]. destruct prefix; discriminate. }
  rewrite !rev_app_distr, rev_repeat, <- app_assoc, drop_while_repeat.
  assert (Hdrop : forall r, drop_while is_slash (rev name ++ r) = rev name ++ r).
  { intros r. destruct (rev name) as [|x l] eqn:E.
    - apply (f_equal (@rev byte)) in E. rewrite rev_involutive in E.
      cbn in E. congruence.
    - cbn [app]. apply drop_while_stop.
      inversion Hall as [|? ? Hx _]; subst.
      now destruct (is_slash x). }
  rewrite Hdrop.
  assert (Htake : take_while (fun b => negb (is_slash b))
                             (rev name ++ rev prefix) = rev name).
  { destruct Hpre as [->|[dir ->]].
    - cbn [rev]. rewrite app_nil_r. now apply take_while_whole.
    - rewrite rev_app_distr. cbn [rev app].
      apply take_while_app; [exact Hall|].
      unfold is_slash. now rewrite byte_eqb_refl. }
  rewrite Htake, rev_involutive.
  destruct name; [congruence | reflexivity].
Qed.

Lemma Base_shape (path : list byte) :
  Base path <> [] /\ (In slash (Base path) -> Base path = [slash]).
Proof.
  destruct path as [|x path].
  - split; [discriminate|]. cbn. intros [H|[]]. discriminate H.
  - rewrite Base_unfold by discriminate.
    set (t := take_while (fun b => negb (is_slash b))
                         (drop_while is_slash (rev (x :: path)))).
    pose proof (take_while_all (fun b => negb (is_slash b))
                  (drop_while is_slash (rev (x :: path)))) as Hall.
    fold t in Hall.
    destruct (rev t) as [|y l] eqn:E.
    + split; [discriminate | reflexivity].
    + split; [discriminate|]. intros Hin. exfalso.
      rewrite <- E in Hin. apply in_rev in Hin.
      rewrite Forall_forall in Hall. specialize (Hall _ Hin).
      unfold is_slash in Hall. now rewrite byte_eqb_refl in Hall.
Qed.

Lemma drop_while_nil (f : byte -> bool) (l : list byte) :
  drop_while f l = [] <-> forall b, In b l -> f b = true.
Proof.
  induction l as [|x l IH]; cbn.
  - split; [intros _ b [] | reflexivity].
  - destruct (f x) eqn:E.
    + rewrite IH. split.
      * intros Hl b [<-|Hb]; [exact E | now apply Hl].
      * intros Hl b Hb. apply Hl. now right.
    + split; [discriminate|]. intros Hl.
      rewrite (Hl x (or_introl eq_refl)) in E. discriminate E.
Qed.

Lemma drop_while_head (f : byte -> bool) (l r : list byte) (x : byte) :
  drop_while f l = x :: r -> f x = false.
Proof.
  induction l as [|y l IH]; cbn; [discriminate|].
  destruct (f y) eqn:E; [exact IH|]. now intros [= <- _].
Qed.

(** The base name is the single slash exactly for the paths that are
    made of slashes. *)
Lemma Base_root (path : list byte) :
  Base path = [slash]
  <-> path <> [] /\ (forall b, In b path -> b = slash).
Proof.
  destruct path as [|x path].
  - split; [discriminate | intros [H _]; congruence].
  - rewrite Base_unfold by discriminate.
    set (stripped := drop_while is_slash (rev (x :: path))).
    split.
    + intros Hb. split; [discriminate|].
      assert (Ht : take_while (fun b => negb (is_slash b)) stripped = []).
      { pose proof (take_while_all (fun b => negb (is_slash b)) stripped)
          as Hall.
        destruct (take_while (fun b => negb (is_slash b)) stripped)
          as [|y t] eqn:Et; [reflexivity | exfalso].
        destruct (rev (y :: t)) as [|z l] eqn:Er.
        - apply (f_equal (@rev byte)) in Er. rewrite rev_involutive in Er.
          discriminate Er.
        - injection Hb as -> ->.
          assert (Hin : In slash (y :: t)).
          { apply in_rev. rewrite Er. now left. }
          rewrite Forall_forall in Hall. specialize (Hall _ Hin).
          unfold is_slash in Hall. now rewrite byte_eqb_refl in Hall. }
      assert (Hs : stripped = []).
      { destruct stripped as [|y r] eqn:Es; [reflexivity | exfalso].
        pose proof (drop_while_head _ _ _ _ Es) as Hy.
        cbn in Ht. rewrite Hy in Ht. discriminate Ht. }
      unfold stripped in Hs. rewrite drop_while_nil in Hs.
      intros b Hb'. apply is_slash_spec. apply Hs. now apply in_rev in Hb'.
    + intros [_ Hall].
      assert (Hs : stripped = []).
      { unfold stripped. apply drop_while_nil. intros b Hb.
        apply is_slash_spec. apply Hall. now apply in_rev. }
      rewrite Hs. reflexivity.
Qed.

(** Property X3.  The file name that [main] announces and puts into the
    form is never empty, and it holds a slash exactly when the path is
    made of slashes only, in which case it is the single slash; taking
    the base name again changes nothing. *)
Theorem X3_Base_holds_no_separator (path : list byte) :
  Base path <> []
  /\ (In slash (Base path)
      <-> path <> [] /\ (forall b, In b path -> b = slash))
  /\ (In slash (Base path) -> Base path = [slash])
  /\ Base (Base path) = Base path.
Proof.
  destruct (Base_shape path) as [Hne Hroot].
  split; [exact Hne|]. split; [|split; [exact Hroot|]].
  - split.
    + intros Hin. apply Base_root. now apply Hroot.
    + intros Hall. apply Base_root in Hall. rewrite Hall. now left.
  - destruct (in_dec byte_eq_dec slash (Base path)) as [Hin|Hout].
    + rewrite (Hroot Hin). reflexivity.
    + pose proof (Base_of_name [] (Base path) 0 Hne Hout (or_introl eq_refl))
        as Hb.
      cbn [app repeat] in Hb. rewrite app_nil_r in Hb. exact Hb.
Qed.

(** Property X4.  The base name of a path is its last element: the
    directories before it and any slashes after it are dropped, and a
    name without directories stands for itself. *)
Theorem X4_Base_is_the_last_element (prefix name : list byte) (k : nat) :
  name <> [] -> ~ In slash name ->
  prefix = [] \/ (exists dir, prefix = dir ++ [slash]) ->
  Base (prefix ++ name ++ repeat slash k) = name.
Proof. apply Base_of_name. Qed.

(** ** Runs from any surroundings *)

(** Property X5.  A request is sent only after the whole file has been
    read: whenever a run calls [client.Do], the file was opened and read
    to [EOF], the URL was accepted, and the request is the POST to the
    URL whose body is the complete form, every byte of the file between
    the part's header and the closing delimiter.  (The progress bar is
    taken not to answer [io.EOF], which [io.Copy] would read as the end
    of the file.) *)
Theorem X5_request_carries_the_whole_file (env : Env) (req : Request) :
  no_EOF (bar_refuses env) ->
  In (CallDo req) (calls (run env)) ->
  exists file,
    os_Open env (flag_file env) = inr file
    /\ ending (contents file) = EOF
    /\ NewRequest_error env (flag_url env) = None
    /\ req = mkRequest (bytes_of "POST") (flag_url env)
               (bytes_of "multipart/form-data; boundary="
                  ++ randomBoundary env)
               (form_file_body (randomBoundary env) (Base (flag_file env))
                               (pending (contents file))).
Proof.
  intros Hno.
  pose proof (fun data => written_form_file (randomBoundary env)
                (Base (flag_file env)) data) as Hbody.
  unfold multipart.CreateFormFile in Hbody. cbn in Hbody.
  exec_any env; intros Hin; in_list Hin; subst req.
  all: apply Copy_loop_tee_complete in Hcopy; [| lia | exact Hno].
  all: destruct Hcopy as (Hend & Hpart & _).
  all: cbn in Hpart; subst part'.
  all: exists file; repeat (split; [first [reflexivity | assumption]|]).
  all: rewrite <- (proj1 (Hbody _)); reflexivity.
Qed.

(** Property X6.  When a request has been sent, the upload bar was
    created with the size [Stat] reported as its maximum and has been
    given exactly the number of bytes read from the file, so it stands at
    its maximum exactly when the two agree. *)
Theorem X6_upload_bar_ends_at_bytes_read (env : Env) (req : Request) :
  no_EOF (bar_refuses env) ->
  In (CallDo req) (calls (run env)) ->
  exists file size bar,
    os_Open env (flag_file env) = inr file
    /\ Stat file = inr size
    /\ upload_bar (run env) = Some bar
    /\ progressbar.max bar = size
    /\ (Z.of_nat (length (pending (contents file))) <= Int64.max_int ->
        progressbar.total bar = Z.of_nat (length (pending (contents file)))).
Proof.
  intros Hno.
  exec_any env; intros Hin; in_list Hin; subst req.
  all: apply Copy_loop_tee_complete in Hcopy; [| lia | exact Hno].
  all: destruct Hcopy as (_ & _ & Hmx & Htot).
  all: exists file, fileSize, (tee_w tee').
  all: split; [reflexivity|]; split; [assumption|].
  all: split; [reflexivity|]; split; [exact Hmx|].
  all: intros Hfit; apply Htot; cbn; lia.
Qed.

(** Property X7.  The calls of a run, the closing of handles and the
    exit apart, are an initial part of Open, Stat, Copy, NewRequest, Do,
    ReadAll, in this order and each at most once: nothing is retried, the
    form is complete before the request is made, and the response is
    read only after the request.  When [flag.Parse] ends the process (a
    command line it cannot read, or a call for help) the usage is the
    only call and nothing is printed on standard output, with exit
    status 2 or 0; when it returns without one of the two flags the run
    only prints the complaint and the usage and exits with status 1. *)
Theorem X7_steps_in_order_each_at_most_once (env : Env) :
  let p := run env in
  (flag_Parse env = ParseHelp ->
   calls p = [CallUsage; CallExit 0] /\ stdout p = [])
  /\ (flag_Parse env = ParseFails ->
      calls p = [CallUsage; CallExit 2] /\ stdout p = [])
  /\ (flag_Parse env = ParseOK ->
      flag_file env = [] \/ flag_url env = [] ->
      calls p = [CallUsage; CallExit 1] /\ stdout p = [OutMissingArgs])
  /\ (flag_Parse env = ParseOK ->
      flag_file env <> [] -> flag_url env <> [] ->
      exists req metered k,
        (1 <= k <= 6)%nat /\ work p = firstn k (pipeline env req metered)).
Proof.
  cbv zeta. split; [|split; [|split]].
  - intros Hp. rewrite run_help by exact Hp. split; reflexivity.
  - intros Hp. rewrite run_unreadable by exact Hp. split; reflexivity.
  - intros Hp H. rewrite run_without_flags; [split; reflexivity | exact Hp |].
    destruct H as [H|H]; rewrite H; [reflexivity | apply orb_true_r].
  - intros Hp Hf Hu. unfold work, pipeline.
    exec_run env;
      first [ exists no_request, false, 1%nat; split; [lia | reflexivity]
            | exists no_request, false, 2%nat; split; [lia | reflexivity]
            | exists no_request, false, 3%nat; split; [lia | reflexivity]
            | exists no_request, false, 4%nat; split; [lia | reflexivity]
            | eexists; exists false, 5%nat; split; [lia | reflexivity]
            | eexists; eexists; exists 6%nat; split; [lia | reflexivity] ].
Qed.

Ltac split_calls :=
  match goal with
  | |- exists pre, ?l = pre ++ ?suf /\ _ =>
      exists (firstn (length l - length suf) l); split; reflexivity
  end.

(** Property X8.  Every run ends with exit status 0, 1 or 2.  The
    deferred [Close] calls run exactly in the runs that reach the report:
    there the response body is closed first and the file second, right
    before the exit with status 0, and no handle is left.  Every other
    run exits without a single [Close]: the file is still open at the
    exit once it had been opened, and so is the response body once a
    response had been received. *)
Theorem X8_handles_closed_only_on_normal_return (env : Env) :
  let p := run env in
  (exit_status p = Some 0 \/ exit_status p = Some 1
   \/ exit_status p = Some 2)
  /\ (reached_reporting p = true ->
      (exists pre,
         calls p = pre ++ [CallClose HBody; CallClose HFile; CallExit 0]
         /\ existsb is_Close pre = false)
      /\ held p = [])
  /\ (reached_reporting p = false ->
      existsb is_Close (calls p) = false
      /\ (In CallStat (calls p) -> In HFile (held p))
      /\ (In OutReceiving (stdout p) -> In HBody (held p))).
Proof.
  cbv zeta. unfold reached_reporting.
  exec_any env.
  all: split; [auto|].
  all: split; intros Hst; try discriminate Hst.
  all: try (split; [split_calls | reflexivity]).
  all: split; [reflexivity|].
  all: split; intros Hin; in_list Hin; cbn; auto.
Qed.

(** Property X9.  A response whose body breaks off is a failure of the
    run whatever its status code: the read error is the last thing
    printed, the exit status is 1, and neither the status line, nor a
    success, nor the part of the body that did arrive is printed. *)
Theorem X9_truncated_response_is_a_failure
        (env : Env) (req : Request) (resp : Response) :
  In (CallDo req) (calls (run env)) ->
  client_Do env req = inr resp ->
  ending (Body resp) <> EOF ->
  let p := run env in
  exit_status p = Some 1
  /\ last (stdout p) OutMissingArgs
     = OutReadResponseFailed (ending (Body resp))
  /\ reached_reporting p = false
  /\ ~ In OutUploadSucceeded (stdout p)
  /\ (forall b, ~ In (OutServerReturned b) (stdout p)).
Proof.
  cbv zeta. unfold reached_reporting.
  exec_any env; intros Hin Hdo Hend; in_list Hin; subst; same_answer Hdo.
  all: try (apply eof_to_nil_None in Eend; contradiction).
  all: apply eof_to_nil_Some in Eend; subst.
  all: repeat split; try reflexivity.
  all: match goal with
       | |- ~ _ => intros Hsaid; in_list Hsaid
       | |- forall b, _ => intros b Hsaid; in_list Hsaid
       end.
Qed.

(** ** Updates of a [ProgressReader] *)

Section Updates.

Context {R : Type} `{Reader R}.
Implicit Types (pr : ProgressReader R (list Float64.t)).

Lemma counts_length pr bufs log : length (counts pr bufs log) = length bufs.
Proof.
  revert pr log. induction bufs as [|b bufs IH]; intros pr log;
    [reflexivity|].
  rewrite counts_step. cbv zeta. cbn [length]. now rewrite IH.
Qed.

Lemma reads_length pr bufs log :
  length (fst (fst (reads pr bufs log))) = length bufs.
Proof.
  revert pr log. induction bufs as [|b bufs IH]; intros pr log;
    [reflexivity|].
  rewrite reads_step. cbv zeta. cbn [fst length]. now rewrite IH.
Qed.

(** Property X10.  With a callback and a positive [Size], every call of
    [Read] emits exactly one update, whatever the call returns: reads of
    no bytes and failing reads included, nothing is held back or
    merged. *)
Theorem X10_one_update_for_every_read pr (bufs : list nat)
        (log : list Float64.t) :
  OnProgress pr = Some record_progress -> 0 < Size pr ->
  length (fst (fst (reads pr bufs log))) = length bufs
  /\ length (snd (reads pr bufs log)) = (length log + length bufs)%nat.
Proof.
  intros Hcb Hs. split; [apply reads_length|].
  rewrite reads_log by assumption.
  now rewrite length_app, length_map, counts_length.
Qed.

End Updates.

Section LastUpdate.

Implicit Types (pr : ProgressReader Source (list Float64.t)).

(** The last update a drain emits is the percentage of the final
    count. *)
Lemma drain_last pr (bufs : list nat) (log : list Float64.t)
      (d : Float64.t) :
  OnProgress pr = Some record_progress -> 0 < Size pr -> bufs <> [] ->
  let out := drain pr bufs log in
  last (snd out) d = progress_of (read (snd (fst out))) (Size pr).
Proof.
  revert pr log. induction bufs as [|b bufs IH]; intros pr log Hcb Hs Hne;
    [congruence|].
  cbv zeta. rewrite drain_step. cbv zeta.
  assert (Hsink : snd (ProgressReader_Read pr b log)
                  = log ++ [progress_of
                              (read (snd (fst (ProgressReader_Read pr b log))))
                              (Size pr)]).
  { rewrite Read_sink, Read_state, Hcb.
    replace (0 <? Size pr) with true by (symmetry; now apply Z.ltb_lt).
    reflexivity. }
  destruct (err_ (fst (fst (ProgressReader_Read pr b log)))) as [e|].
  - cbn [fst snd]. rewrite Hsink. apply last_last.
  - destruct bufs as [|b' bufs'].
    + cbn [drain fst snd]. rewrite Hsink. apply last_last.
    + specialize (IH (snd (fst (ProgressReader_Read pr b log)))
                     (snd (ProgressReader_Read pr b log))).
      cbv zeta in IH. rewrite IH.
      * rewrite Read_state at 2. reflexivity.
      * rewrite Read_state. exact Hcb.
      * rewrite Read_state. exact Hs.
      * discriminate.
Qed.

End LastUpdate.

(** Property X11.  When [Size] is the number of bytes the source holds,
    the last update of a drain is exactly 100. *)
Theorem X11_last_update_is_100_when_size_matches
        (data : list byte) (g : nat -> nat -> nat) (eg : bool)
        (bufs : list nat) (d : Float64.t) :
  data <> [] ->
  Z.of_nat (length data) <= Int64.max_int ->
  Forall (fun b => (0 < b)%nat) bufs ->
  (length data < length bufs)%nat ->
  let pr := mkProgressReader (mkSource data g eg EOF)
                             (Z.of_nat (length data)) 0
                             (Some record_progress) in
  last (snd (drain pr bufs [])) d = Float64.hundred.
Proof.
  intros Hne Hmax Hpos Hlen. cbv zeta.
  assert (Hs : 0 < Z.of_nat (length data)).
  { destruct data; [congruence | cbn; lia]. }
  rewrite drain_last; cbn [OnProgress Size]; try reflexivity; try assumption.
  - destruct (drain_Source
                (mkProgressReader (mkSource data g eg EOF)
                                  (Z.of_nat (length data)) 0
                                  (Some record_progress)) bufs
                ([] : list Float64.t)) as (_ & Hread & _);
      cbn [read Reader_ pending]; try assumption; try lia.
    cbv zeta in Hread. cbn [read Reader_ pending] in Hread.
    rewrite Hread. apply Float64_exact.progress_full.
    unfold Int64.max_int in Hmax. lia.
  - destruct bufs; [cbn in Hlen; lia | discriminate].
Qed.

(** ** The backup script *)

Module save_sh_facts.

Import save_sh.

(** Unfolding a piece of script down to the tests on statuses. *)
Ltac script_steps :=
  unfold outcome, completes, pre_backup_check, check_command,
    check_disk_space, backup_metadata, backup_data_directories,
    create_gitlab_backup, main, simple, pipe, substitution, errexit, exec,
    print_msg, exit, bind, ret, begin;
  cbn.

Ltac by_status st c :=
  let E := fresh "E" in
  destruct (Z.eqb_spec (st c) 0) as [E|E]; [try rewrite E|]; cbn.

Ltac settle :=
  unfold not; repeat split; intros;
  repeat match goal with
         | H : _ /\ _ |- _ => destruct H
         | H : _ \/ _ |- _ => destruct H
         | H : False |- _ => contradiction
         | H : _ = _ |- _ => discriminate H
         | H : In _ _ |- _ => progress cbn in H
         end;
  solve [ contradiction | congruence | tauto | cbn; auto 20 ].

Ltac settle_code :=
  first [ settle
        | unfold not; repeat split; intros;
          repeat match goal with
                 | H : _ /\ _ |- _ => destruct H
                 | H : _ = _ |- _ => discriminate H
                 end;
          solve [ eexists; split; [reflexivity | assumption]
                | tauto | congruence | auto 20 ] ].

Ltac settle_lia :=
  first [ settle
        | unfold not; repeat split; intros;
          repeat match goal with
                 | H : _ /\ _ |- _ => destruct H
                 | H : _ = _ |- _ => discriminate H
                 end;
          solve [ lia | auto 20 ] ].

Lemma required_space_small (data_size : Z) :
  0 <= data_size -> data_size * 120 <= Int64.max_int ->
  required_space data_size = data_size + data_size / 5.
Proof.
  intros H0 Hmax. unfold required_space. rewrite wrap_small by int64_lia.
  rewrite Z.quot_div_nonneg by lia.
  pose proof (Z.div_mod (data_size * 120) 100 ltac:(lia)).
  pose proof (Z.mod_pos_bound (data_size * 120) 100 ltac:(lia)).
  pose proof (Z.div_mod data_size 5 ltac:(lia)).
  pose proof (Z.mod_pos_bound data_size 5 ltac:(lia)).
  lia.
Qed.

(** Property X12.  For a data size whose product with 120 fits 64 bits,
    [check_disk_space] lets the script go on exactly when the free space
    is at least the data size plus a fifth of it, the fifth rounded down;
    otherwise the script exits with status 1.  When the check passes the
    free space is at least the data size. *)
Theorem X12_disk_check_asks_for_a_fifth_more
        (st : Cmd -> Z) (data_size available_space : Z) :
  0 <= data_size -> data_size * 120 <= Int64.max_int ->
  let out := outcome (check_disk_space st data_size available_space) in
  (exited out = None <-> data_size + data_size / 5 <= available_space)
  /\ (exited out = Some 1 <-> available_space < data_size + data_size / 5)
  /\ (exited out = None -> data_size <= available_space).
Proof.
  intros H0 Hmax. cbv zeta.
  pose proof (required_space_small data_size H0 Hmax) as Hreq.
  assert (0 <= data_size / 5) by (apply Z.div_pos; lia).
  script_steps. rewrite Hreq.
  destruct (Z.ltb_spec available_space (data_size + data_size / 5));
    cbn; repeat split; intros; try discriminate; try lia; try reflexivity.
Qed.

(** Property X16.  [backup_metadata] ends with the listing of images
    piped into [grep gitlab-ee]: the script gets past the function
    exactly when [docker inspect] and [docker logs] succeeded, the
    secrets, if the container has them, and the configuration file, if
    it exists, were copied, and [grep] found a line.  The status of
    reading the version manifest and that of [docker images] change
    nothing. *)
Theorem X16_metadata_ends_with_the_image_listing
        (st : Cmd -> Z) (has_config : bool) :
  let body := backup_metadata st has_config in
  (completes body = true
   <-> st docker_inspect = 0 /\ st docker_logs_500 = 0
       /\ (st test_secrets = 0 -> st cat_secrets = 0)
       /\ (has_config = true -> st cp_config = 0)
       /\ st grep = 0)
  /\ (completes body = false -> exists code, exited (outcome body) = Some code
                                             /\ code <> 0)
  /\ (forall st',
        (forall c, c <> cat_manifest -> c <> docker_images ->
                   st' c = st c) ->
        outcome (backup_metadata st' has_config) = outcome body).
Proof.
  cbv zeta. split; [|split].
  3:{ intros st' Hsame. script_steps.
      rewrite !Hsame by discriminate. reflexivity. }
  all: script_steps.
  all: by_status st docker_inspect; [|settle_code].
  all: by_status st docker_logs_500; [|settle_code].
  all: by_status st test_secrets;
    [by_status st cat_secrets; [|settle_code]|].
  all: destruct has_config; cbn.
  all: try (by_status st cp_config; [|settle_code]).
  all: by_status st grep; settle_code.
Qed.

(** Property X17.  [pre_backup_check] lets the script go on exactly when
    the four tools are installed, the container is listed as running,
    the data directory exists and the disk check passes; in every other
    case the script exits with status 1.  The sizes are measured only
    once the container and the directory have been found. *)
Theorem X17_pre_check_passes_or_exits_with_1
        (st : Cmd -> Z) (has_data_dir : bool)
        (data_size available_space : Z) :
  0 <= data_size -> data_size * 120 <= Int64.max_int ->
  let body := pre_backup_check st has_data_dir data_size available_space in
  (completes body = true
   <-> st (command_v "docker") = 0 /\ st (command_v "rsync") = 0
       /\ st (command_v "tar") = 0 /\ st (command_v "du") = 0
       /\ st grep = 0 /\ has_data_dir = true
       /\ data_size + data_size / 5 <= available_space)
  /\ (completes body = false -> exited (outcome body) = Some 1)
  /\ (In du (ran (outcome body)) -> st grep = 0 /\ has_data_dir = true).
Proof.
  intros H0 Hmax. cbv zeta.
  pose proof (required_space_small data_size H0 Hmax) as Hreq.
  split; [|split].
  all: script_steps; rewrite ?Hreq.
  all: by_status st (command_v "docker"); [|settle].
  all: by_status st (command_v "rsync"); [|settle].
  all: by_status st (command_v "tar"); [|settle].
  all: by_status st (command_v "du"); [|settle].
  all: by_status st grep; [|settle].
  all: destruct has_data_dir; cbn; [|settle].
  all: destruct (Z.ltb_spec available_space (data_size + data_size / 5));
    cbn; settle_lia.
Qed.

(** Property X13.  In [backup_data_directories], [rsync] runs exactly
    when the container has been stopped and the wait has passed; its own
    status changes nothing (it is the status of [tee] that the pipeline
    ends with): the copy is reported as done and the container is started
    again exactly when [docker stop], the wait and [tee] have succeeded.
    When [tee] fails the script exits with the container stopped. *)
Theorem X13_data_copy_passes_over_rsync (st : Cmd -> Z) :
  let out := outcome (backup_data_directories st) in
  (In rsync (ran out) <-> st docker_stop = 0 /\ st (sleep 30) = 0)
  /\ (In MsgCopied (said out)
      <-> st docker_stop = 0 /\ st (sleep 30) = 0 /\ st tee = 0)
  /\ (In docker_start (ran out)
      <-> st docker_stop = 0 /\ st (sleep 30) = 0 /\ st tee = 0)
  /\ (forall st', (forall c, c <> rsync -> st' c = st c) ->
      outcome (backup_data_directories st') = out).
Proof.
  cbv zeta. split; [|split; [|split]].
  4:{ intros st' Hsame. script_steps.
      rewrite !Hsame by discriminate. reflexivity. }
  all: script_steps.
  all: by_status st docker_stop; [|settle].
  all: by_status st (sleep 30); [|settle].
  all: by_status st tee; [|settle].
  all: by_status st docker_start; [|settle].
  all: by_status st (sleep 10); [|settle].
  all: by_status st grep; [settle|].
  all: by_status st docker_logs; settle.
Qed.

(** Property X14.  In [create_gitlab_backup], the status of
    [gitlab-backup create] changes nothing: a backup is reported as
    created whenever the listing finds a backup file.  The maintenance
    page is taken down exactly when it was put up, [tee] succeeded and,
    if a file was found, the copy of it succeeded; when that copy fails
    the script exits with the page still up. *)
Theorem X14_maintenance_page_comes_down (st : Cmd -> Z) (found : bool) :
  let out := outcome (create_gitlab_backup st found) in
  (In MsgCreated (said out)
   <-> st deploy_page_up = 0 /\ st tee = 0 /\ found = true)
  /\ (In deploy_page_down (ran out)
      <-> st deploy_page_up = 0 /\ st tee = 0
          /\ (found = true -> st cp_backup = 0))
  /\ (forall st',
        (forall c, c <> gitlab_backup_create -> st' c = st c) ->
        outcome (create_gitlab_backup st' found) = out).
Proof.
  cbv zeta. split; [|split].
  3:{ intros st' Hsame. script_steps.
      rewrite !Hsame by discriminate. reflexivity. }
  all: script_steps.
  all: by_status st deploy_page_up; [|settle].
  all: by_status st tee; [|settle].
  all: destruct found; cbn.
  all: try (by_status st cp_backup; [|settle]).
  all: by_status st deploy_page_down; settle.
Qed.

Lemma matches_Yy_default (answer : list byte) :
  matches_Yy (or_default answer) = true
  <-> answer = bytes_of "y" \/ answer = bytes_of "Y".
Proof.
  destruct answer as [|c [|c' answer]]; cbn.
  - split; [discriminate | intros [H|H]; discriminate H].
  - rewrite orb_true_iff. split.
    + intros [H|H]; apply byte_eqb_true in H; subst; auto.
    + intros [H|H]; injection H as ->; cbn; auto.
  - split; [discriminate | intros [H|H]; discriminate H].
Qed.

(** Property X15.  Once the backup steps of [main] have gone through,
    the question about the archive is asked.  When [read] fails (it does
    when the 30 seconds pass without an answer) the script exits there
    with the status of [read]: no archive, no clean-up, no summary.  When
    [read] succeeds the archive is made exactly for the answers [y] and
    [Y], and an empty answer goes on to the clean-up without an
    archive. *)
Theorem X15_archive_question (st : Cmd -> Z) (answer : list byte) :
  backups_done st ->
  let out := outcome (main st answer) in
  In read_choice (ran out)
  /\ (st read_choice <> 0 ->
      exited out = Some (st read_choice)
      /\ last (said out) MsgRule = MsgAskArchive
      /\ ~ In (call fn_create_archive) (ran out)
      /\ ~ In (call fn_cleanup_old_backups) (ran out)
      /\ ~ In (call fn_generate_summary) (ran out))
  /\ (st read_choice = 0 ->
      (In (call fn_create_archive) (ran out)
       <-> answer = bytes_of "y" \/ answer = bytes_of "Y")
      /\ (answer = [] -> In (call fn_cleanup_old_backups) (ran out))).
Proof.
  intros (H1 & H2 & H3 & H4 & H5 & H6 & H7). cbv zeta.
  pose proof (matches_Yy_default answer) as Hyy.
  assert (Hn : answer = [] -> matches_Yy (or_default answer) = false)
    by (intros ->; reflexivity).
  unfold outcome, main. cbv zeta.
  destruct (matches_Yy (or_default answer)).
  - assert (Hy : answer = bytes_of "y" \/ answer = bytes_of "Y")
      by (now apply Hyy).
    assert (Hne : answer <> [])
      by (intros K; specialize (Hn K); discriminate Hn).
    clear Hyy Hn.
    script_steps. rewrite H1, H2, H3, H4, H5, H6, H7. cbn.
    by_status st read_choice; [|settle].
    by_status st (call fn_create_archive); [|settle].
    by_status st (call fn_cleanup_old_backups); [|settle].
    by_status st (call fn_generate_summary); [|settle].
    by_status st df; settle.
  - assert (Hy : ~ (answer = bytes_of "y" \/ answer = bytes_of "Y"))
      by (intros K; apply Hyy in K; discriminate K).
    clear Hyy Hn.
    script_steps. rewrite H1, H2, H3, H4, H5, H6, H7. cbn.
    by_status st read_choice; [|settle].
    by_status st (call fn_cleanup_old_backups); [|settle].
    by_status st (call fn_generate_summary); [|settle].
    by_status st df; settle.
Qed.

End save_sh_facts.

(** * Instances *)

(** A server that answers 201 Created is reported as a failure, although
    201 lies in the successful range. *)
Lemma C1_counterexample :
  let p := run (sample_env sample_path sample_data
                           (reply 201 2 (bytes_of "ok"))) in
  reached_reporting p = true
  /\ in_successful_range 201 = true
  /\ In (OutStatus 201) (stdout p)
  /\ In OutUploadFailed (stdout p)
  /\ ~ In OutUploadSucceeded (stdout p).
Proof.
  vm_compute. repeat split; auto 10. intuition discriminate.
Qed.

Lemma C1_witness :
  let env := sample_env sample_path sample_data
                        (reply 500 2 (bytes_of "no")) in
  let resp := mkResponse 500 2 (sample_source (bytes_of "no")) in
  In (CallDo sample_request) (calls (run env))
  /\ client_Do env sample_request = inr resp
  /\ ending (Body resp) = EOF
  /\ reached_reporting (run env) = true
  /\ exit_status (run env) = Some 0
  /\ (exists pre,
        stdout (run env)
        = pre ++ [OutStatus (StatusCode resp);
                  if StatusCode resp =? 200
                  then OutUploadSucceeded else OutUploadFailed;
                  OutServerReturned (pending (Body resp))]
        /\ ~ In OutUploadSucceeded pre /\ ~ In OutUploadFailed pre)
  /\ (In OutUploadSucceeded (stdout (run env)) <-> StatusCode resp = 200)
  /\ (In OutUploadFailed (stdout (run env)) <-> StatusCode resp <> 200)
  /\ last (stdout (run env)) OutMissingArgs
     = OutServerReturned (pending (Body resp)).
Proof.
  cbv zeta.
  assert (Hin : In (CallDo sample_request)
                   (calls (run (sample_env sample_path sample_data
                                  (reply 500 2 (bytes_of "no"))))))
    by (vm_compute; do 4 right; left; reflexivity).
  split; [exact Hin|]. split; [reflexivity|]. split; [reflexivity|].
  exact (C1_success_reported_iff_status_200
           (sample_env sample_path sample_data (reply 500 2 (bytes_of "no")))
           sample_request
           (mkResponse 500 2 (sample_source (bytes_of "no")))
           Hin eq_refl eq_refl).
Defined.

(** A source that holds two bytes, read through a [ProgressReader] whose
    [Size] is one: the count passes [Size] and the percentage passes
    100. *)
Lemma C2_counterexample :
  let pr := mkProgressReader (sample_source [x01; x02]) 1 0
                             (Some record_progress) in
  let out := reads pr [2%nat] [] in
  0 < Size pr
  /\ read (snd (fst out)) = 2
  /\ ~ read (snd (fst out)) <= Size pr
  /\ snd out = [progress_of 2 1]
  /\ Float64.leb (progress_of 2 1) Float64.hundred = false.
Proof.
  cbv zeta. split; [reflexivity|]. split; [reflexivity|].
  split; [intros Hle; vm_compute in Hle; now apply Hle|].
  split; reflexivity.
Qed.

Lemma C2_witness :
  let pr := mkProgressReader (sample_source [x01; x02; x03]) 2 0
                             (Some record_progress) in
  let bufs := [2%nat; 2%nat; 2%nat] in
  OnProgress pr = Some record_progress
  /\ 0 < Size pr <= Int64.max_int
  /\ 0 <= read pr
  /\ Forall (fun r => 0 <= n_ r) (fst (Read_seq (Reader_ pr) bufs))
  /\ read pr + Zsum (map n_ (fst (Read_seq (Reader_ pr) bufs)))
     <= Int64.max_int
  /\ (nondecreasing Z.leb (read pr :: counts pr bufs [])
      /\ snd (reads pr bufs [])
         = map (fun c => progress_of c (Size pr)) (counts pr bufs [])
      /\ nondecreasing Float64.leb (snd (reads pr bufs []))
      /\ (read pr + Zsum (map n_ (fst (Read_seq (Reader_ pr) bufs)))
          <= Size pr ->
          Forall (fun c => c <= Size pr) (counts pr bufs [])
          /\ Forall (fun x => Float64.leb x Float64.hundred = true)
                    (snd (reads pr bufs [])))).
Proof.
  cbv zeta.
  assert (Hn : Forall (fun r => 0 <= n_ r)
                 (fst (Read_seq (sample_source [x01; x02; x03])
                                [2%nat; 2%nat; 2%nat]))).
  { vm_compute. repeat constructor; discriminate. }
  split; [reflexivity|]. split; [vm_compute; split; [reflexivity | discriminate]|].
  split; [vm_compute; discriminate|]. split; [exact Hn|].
  split; [vm_compute; discriminate|].
  apply (C2_progress_monotone_and_bounded_while_source_fits
           (mkProgressReader (sample_source [x01; x02; x03]) 2 0
                             (Some record_progress))
           [2%nat; 2%nat; 2%nat]).
  - reflexivity.
  - vm_compute. split; [reflexivity | discriminate].
  - vm_compute. discriminate.
  - exact Hn.
  - vm_compute. discriminate.
Defined.

(** The file that begins with the dashes and the boundary holds no line
    break at all. *)
Lemma leading_data_has_no_line :
  ~ occurs (CRLF ++ bytes_of "--" ++ sample_boundary) leading_data.
Proof.
  intros (a & b & Hab).
  assert (Hin : In CR leading_data -> False).
  { vm_compute. intuition discriminate. }
  apply Hin. rewrite Hab. apply in_or_app. right. now left.
Qed.

(** A path whose base name holds a line break: the receiver gets the
    name with [%0D%0A] in place of the line break.  And, for a boundary
    that happens to be the one written in the file, a file that holds the
    delimiter line, and a file that begins with the two dashes and the
    boundary: the receiver gets back a shorter content, and none. *)
Lemma C3_counterexample :
  (let env := sample_env broken_path sample_data
                         (reply 200 2 (bytes_of "ok")) in
   exists req,
     In (CallDo req) (calls (run env))
     /\ requests_sent (run env) = 1%nat
     /\ Base broken_path = bytes_of "a" ++ CRLF ++ bytes_of "b"
     /\ receiver.decode (ContentType req) (sent_body req)
        = Some [receiver.mkPart (bytes_of "file")
                                (Some (bytes_of "a%0D%0Ab"))
                                sample_data]
     /\ bytes_of "a%0D%0Ab" <> Base broken_path)
  /\ (let env := sample_env sample_path clashing_data
                            (reply 200 2 (bytes_of "ok")) in
      exists req,
        In (CallDo req) (calls (run env))
        /\ requests_sent (run env) = 1%nat
        /\ receiver.decode (ContentType req) (sent_body req)
           = Some [receiver.mkPart (bytes_of "file")
                                   (Some (bytes_of "backup.tar"))
                                   (bytes_of "tail")]
        /\ bytes_of "tail" <> clashing_data)
  /\ (let env := sample_env sample_path leading_data
                            (reply 200 2 (bytes_of "ok")) in
      exists req,
        In (CallDo req) (calls (run env))
        /\ requests_sent (run env) = 1%nat
        /\ ~ occurs (CRLF ++ bytes_of "--" ++ sample_boundary) leading_data
        /\ receiver.decode (ContentType req) (sent_body req)
           = Some [receiver.mkPart (bytes_of "file")
                                   (Some (bytes_of "backup.tar")) []]
        /\ [] <> leading_data).
Proof.
  split; [|split]; cbv zeta.
  - eexists. split; [vm_compute; do 4 right; left; reflexivity|].
    split; [reflexivity|]. split; [vm_compute; reflexivity|].
    split; [vm_compute; reflexivity|]. vm_compute. discriminate.
  - eexists. split; [vm_compute; do 4 right; left; reflexivity|].
    split; [reflexivity|]. split; [vm_compute; reflexivity|].
    vm_compute. discriminate.
  - eexists. split; [vm_compute; do 4 right; left; reflexivity|].
    split; [reflexivity|]. split; [exact leading_data_has_no_line|].
    split; [vm_compute; reflexivity|]. vm_compute. discriminate.
Qed.

Lemma sample_data_is_clean :
  ~ occurs (CRLF ++ bytes_of "--" ++ sample_boundary) (CRLF ++ sample_data).
Proof.
  intros (a & b & Hab). apply (f_equal (@length byte)) in Hab.
  rewrite !length_app in Hab.
  change (length sample_data) with 6%nat in Hab.
  change (length CRLF) with 2%nat in Hab.
  change (length (bytes_of "--")) with 2%nat in Hab.
  change (length sample_boundary) with 60%nat in Hab. lia.
Qed.

Lemma C3_witness :
  let env := sample_env sample_path sample_data
                        (reply 200 2 (bytes_of "ok")) in
  let file := sample_file sample_data in
  flag_Parse env = ParseOK
  /\ flag_file env <> [] /\ flag_url env <> []
  /\ os_Open env (flag_file env) = inr file
  /\ Stat file = inr 6
  /\ ending (contents file) = EOF
  /\ (forall t n, bar_refuses env t n = None)
  /\ NewRequest_error env (flag_url env) = None
  /\ random_boundary (randomBoundary env)
  /\ ~ In CR (Base (flag_file env))
  /\ ~ In LF (Base (flag_file env))
  /\ ~ occurs (CRLF ++ bytes_of "--" ++ randomBoundary env)
              (CRLF ++ pending (contents file))
  /\ exists req,
      In (CallDo req) (calls (run env))
      /\ requests_sent (run env) = 1%nat
      /\ Method req = bytes_of "POST"
      /\ URL req = flag_url env
      /\ ContentType req
         = bytes_of "multipart/form-data; boundary=" ++ randomBoundary env
      /\ receiver.decode (ContentType req) (sent_body req)
         = Some [receiver.mkPart (bytes_of "file")
                                 (Some (Base (flag_file env)))
                                 (pending (contents file))].
Proof.
  cbv zeta.
  assert (Hcr : ~ In CR (Base sample_path))
    by (vm_compute; intuition discriminate).
  assert (Hlf : ~ In LF (Base sample_path))
    by (vm_compute; intuition discriminate).
  assert (Hb : random_boundary sample_boundary) by (split; reflexivity).
  split; [reflexivity|].
  split; [discriminate|]. split; [discriminate|].
  split; [reflexivity|]. split; [reflexivity|]. split; [reflexivity|].
  split; [reflexivity|]. split; [reflexivity|]. split; [exact Hb|].
  split; [exact Hcr|]. split; [exact Hlf|].
  split; [exact sample_data_is_clean|].
  exact (C3_sent_body_decodes_to_the_file
           (sample_env sample_path sample_data (reply 200 2 (bytes_of "ok")))
           (sample_file sample_data) 6
           eq_refl ltac:(discriminate) ltac:(discriminate)
           eq_refl eq_refl eq_refl (fun _ _ => eq_refl) eq_refl
           Hb Hcr Hlf sample_data_is_clean).
Defined.

Lemma C4_witness :
  let bufs := [4; 4; 4; 4; 4; 4; 4]%nat in
  let out := drain (mkProgressReader
                      (mkSource sample_data whole_buffer false EOF) 6 0
                      (Some record_progress))
                   bufs [] in
  Z.of_nat (length sample_data) <= Int64.max_int
  /\ Forall (fun b => (0 < b)%nat) bufs
  /\ (length sample_data < length bufs)%nat
  /\ fst (fst out) = Some EOF
  /\ read (snd (fst out)) = Z.of_nat (length sample_data)
  /\ pending (Reader_ (snd (fst out))) = [].
Proof.
  cbv zeta.
  assert (H1 : Z.of_nat (length sample_data) <= Int64.max_int)
    by (vm_compute; discriminate).
  assert (H2 : Forall (fun b => (0 < b)%nat) [4; 4; 4; 4; 4; 4; 4]%nat)
    by (repeat constructor).
  assert (H3 : (length sample_data < length [4; 4; 4; 4; 4; 4; 4]%nat)%nat)
    by (cbn; lia).
  split; [exact H1|]. split; [exact H2|]. split; [exact H3|].
  exact (C4_drained_count_is_source_size sample_data whole_buffer false 6
           (Some record_progress) [4; 4; 4; 4; 4; 4; 4]%nat [] H1 H2 H3).
Defined.

Lemma C6_witness :
  let env := sample_env sample_path sample_data
                        (reply 500 (-1) (bytes_of "{}")) in
  flag_Parse env = ParseOK
  /\ flag_file env <> [] /\ flag_url env <> []
  /\ (forall t n, bar_refuses env t n = None)
  /\ first_failure env = None
  /\ failed_step (stdout (run env)) = None
  /\ reached_reporting (run env) = true
  /\ exit_status (run env) = Some 0.
Proof.
  cbv zeta.
  assert (Hf : flag_file (sample_env sample_path sample_data
                            (reply 500 (-1) (bytes_of "{}"))) <> [])
    by discriminate.
  assert (Hu : flag_url (sample_env sample_path sample_data
                           (reply 500 (-1) (bytes_of "{}"))) <> [])
    by discriminate.
  assert (Hnone : first_failure (sample_env sample_path sample_data
                                   (reply 500 (-1) (bytes_of "{}"))) = None)
    by reflexivity.
  split; [reflexivity|]. split; [exact Hf|]. split; [exact Hu|].
  split; [reflexivity|]. split; [exact Hnone|].
  destruct (C6_exit_status_zero_iff_no_step_fails
              (sample_env sample_path sample_data
                          (reply 500 (-1) (bytes_of "{}")))
              eq_refl Hf Hu) as [_ Hfate].
  destruct (Hfate (fun _ _ => eq_refl)) as (H1 & H2 & H3).
  rewrite Hnone in H1, H2, H3. repeat split; assumption.
Defined.

Lemma C8_witness :
  let pr := mkProgressReader (sample_source sample_data) (-1) 0
                             (Some record_progress) in
  let bufs := [4; 4; 4]%nat in
  let out := reads pr bufs [] in
  let rs := fst (fst out) in
  Size pr <= 0
  /\ snd out = []
  /\ rs = fst (Read_seq (Reader_ pr) bufs)
  /\ read (snd (fst out)) = fold_left Int64.add (map n_ rs) (read pr)
  /\ (Forall (fun n => 0 <= n) (map n_ rs) -> 0 <= read pr ->
      read pr + Zsum (map n_ rs) <= Int64.max_int ->
      read (snd (fst out)) = read pr + Zsum (map n_ rs)).
Proof.
  cbv zeta.
  assert (Hs : Size (mkProgressReader (sample_source sample_data) (-1) 0
                                      (Some record_progress)) <= 0)
    by (cbn; lia).
  split; [exact Hs|].
  exact (C8_unknown_size_is_silent_but_counts
           (mkProgressReader (sample_source sample_data) (-1) 0
                             (Some record_progress))
           [4; 4; 4]%nat [] Hs).
Defined.

Lemma C9_witness :
  let env := sample_env sample_path sample_data refuse in
  let e := ErrOther "connection refused"%string in
  let p := run env in
  In (CallDo sample_request) (calls (run env))
  /\ client_Do env sample_request = inl e
  /\ exit_status p = Some 1
  /\ last (stdout p) OutMissingArgs = OutSendFailed e
  /\ failed_step (stdout p) = Some Sending
  /\ requests_sent p = 1%nat
  /\ (exists pre, calls p = pre ++ [CallDo sample_request; CallExit 1])
  /\ existsb is_ReadAll (calls p) = false
  /\ ~ In OutReceiving (stdout p)
  /\ deferred p = [HFile]
  /\ existsb is_Close (calls p) = false
  /\ held p = [HFile].
Proof.
  cbv zeta.
  assert (Hin : In (CallDo sample_request)
                   (calls (run (sample_env sample_path sample_data refuse))))
    by (vm_compute; do 4 right; left; reflexivity).
  split; [exact Hin|]. split; [reflexivity|].
  exact (C9_send_failure_exits_without_closing
           (sample_env sample_path sample_data refuse) sample_request
           (ErrOther "connection refused"%string) Hin eq_refl).
Defined.

Lemma C10_witness :
  let res := mkResult [x01; x02] 2 (Some ErrUnexpectedEOF) in
  let pr : ProgressReader Script (list Float64.t) :=
    mkProgressReader [res] 4 0 (Some record_progress) in
  let out := ProgressReader_Read pr 8 [] in
  let pr' := snd (fst out) in
  Read (Reader_ pr) 8 = (res, [])
  /\ 0 < n_ res
  /\ err_ res = Some ErrUnexpectedEOF
  /\ fst (fst out) = res
  /\ err_ (fst (fst out)) = Some ErrUnexpectedEOF
  /\ read pr' = Int64.add (read pr) (n_ res)
  /\ (Int64.in_range (read pr + n_ res) -> read pr < read pr')
  /\ (forall f, OnProgress pr = Some f -> 0 < Size pr ->
      snd out = f (progress_of (read pr') (Size pr)) []).
Proof.
  cbv zeta. split; [reflexivity|]. split; [reflexivity|].
  split; [reflexivity|].
  apply (C10_counts_bytes_of_failing_read
           (mkProgressReader
              [mkResult [x01; x02] 2 (Some ErrUnexpectedEOF)] 4 0
              (Some record_progress) : ProgressReader Script (list Float64.t))
           8%nat [] (mkResult [x01; x02] 2 (Some ErrUnexpectedEOF)) []
           ErrUnexpectedEOF);
    reflexivity.
Defined.

Lemma X1_witness :
  Int64.in_range 1536 /\
  ((1536 < 1024 -> formatBytes 1536 = Some (Plain 1536))
  /\ (1024 <= 1536 ->
      exists k c,
        0 <= k <= 5
        /\ 1024 ^ (k + 1) <= 1536 < 1024 ^ (k + 2)
        /\ nth_error (bytes_of "KMGTPE") (Z.to_nat k) = Some c
        /\ formatBytes 1536 =
           Some (Scaled (Float64.div (Float64.of_int64 1536)
                                     (Float64.of_int64 (1024 ^ (k + 1))))
                        c))).
Proof.
  split; [vm_compute; split; discriminate|].
  apply (X1_formatBytes_selects_the_unit 1536).
  vm_compute; split; discriminate.
Defined.

Lemma X2_witness :
  Int64.in_range 1536 /\ 1024 <= 1536
  /\ exists x c,
      formatBytes 1536 = Some (Scaled x c)
      /\ Float64.leb float_1 x = true
      /\ Float64.leb x float_1024 = true.
Proof.
  assert (Hr : Int64.in_range 1536) by (vm_compute; split; discriminate).
  assert (Hge : 1024 <= 1536) by lia.
  split; [exact Hr|]. split; [exact Hge|].
  exact (X2_formatBytes_quotient_between_1_and_1024 1536 Hr Hge).
Defined.

Lemma X4_witness :
  let prefix := bytes_of "/tmp/" in
  let name := bytes_of "backup.tar" in
  name <> [] /\ ~ In slash name
  /\ (prefix = [] \/ (exists dir, prefix = dir ++ [slash]))
  /\ Base (prefix ++ name ++ repeat slash 1) = name.
Proof.
  cbv zeta.
  assert (H1 : bytes_of "backup.tar" <> []) by discriminate.
  assert (H2 : ~ In slash (bytes_of "backup.tar"))
    by (vm_compute; intuition discriminate).
  assert (H3 : bytes_of "/tmp/" = []
               \/ (exists dir, bytes_of "/tmp/" = dir ++ [slash]))
    by (right; exists (bytes_of "/tmp"); reflexivity).
  split; [exact H1|]. split; [exact H2|]. split; [exact H3|].
  exact (X4_Base_is_the_last_element (bytes_of "/tmp/")
           (bytes_of "backup.tar") 1 H1 H2 H3).
Defined.

Lemma X5_witness :
  let env := sample_env sample_path sample_data
                        (reply 200 2 (bytes_of "ok")) in
  no_EOF (bar_refuses env)
  /\ In (CallDo sample_request) (calls (run env))
  /\ exists file,
      os_Open env (flag_file env) = inr file
      /\ ending (contents file) = EOF
      /\ NewRequest_error env (flag_url env) = None
      /\ sample_request
         = mkRequest (bytes_of "POST") (flag_url env)
             (bytes_of "multipart/form-data; boundary="
                ++ randomBoundary env)
             (form_file_body (randomBoundary env) (Base (flag_file env))
                             (pending (contents file))).
Proof.
  cbv zeta.
  assert (Hno : no_EOF (bar_refuses (sample_env sample_path sample_data
                                       (reply 200 2 (bytes_of "ok")))))
    by (intros t n; discriminate).
  assert (Hin : In (CallDo sample_request)
                   (calls (run (sample_env sample_path sample_data
                                  (reply 200 2 (bytes_of "ok"))))))
    by (vm_compute; do 4 right; left; reflexivity).
  split; [exact Hno|]. split; [exact Hin|].
  exact (X5_request_carries_the_whole_file
           (sample_env sample_path sample_data (reply 200 2 (bytes_of "ok")))
           sample_request Hno Hin).
Defined.

Lemma X6_witness :
  let env := sample_env sample_path sample_data
                        (reply 200 2 (bytes_of "ok")) in
  no_EOF (bar_refuses env)
  /\ In (CallDo sample_request) (calls (run env))
  /\ exists file size bar,
      os_Open env (flag_file env) = inr file
      /\ Stat file = inr size
      /\ upload_bar (run env) = Some bar
      /\ progressbar.max bar = size
      /\ (Z.of_nat (length (pending (contents file))) <= Int64.max_int ->
          progressbar.total bar
          = Z.of_nat (length (pending (contents file)))).
Proof.
  cbv zeta.
  assert (Hno : no_EOF (bar_refuses (sample_env sample_path sample_data
                                       (reply 200 2 (bytes_of "ok")))))
    by (intros t n; discriminate).
  assert (Hin : In (CallDo sample_request)
                   (calls (run (sample_env sample_path sample_data
                                  (reply 200 2 (bytes_of "ok"))))))
    by (vm_compute; do 4 right; left; reflexivity).
  split; [exact Hno|]. split; [exact Hin|].
  exact (X6_upload_bar_ends_at_bytes_read
           (sample_env sample_path sample_data (reply 200 2 (bytes_of "ok")))
           sample_request Hno Hin).
Defined.

Lemma X9_witness :
  let env := sample_env sample_path sample_data
                        (cut_short 200 10 (bytes_of "par")) in
  let resp := mkResponse 200 10
                (mkSource (bytes_of "par") whole_buffer false
                          ErrUnexpectedEOF) in
  In (CallDo sample_request) (calls (run env))
  /\ client_Do env sample_request = inr resp
  /\ ending (Body resp) <> EOF
  /\ exit_status (run env) = Some 1
  /\ last (stdout (run env)) OutMissingArgs
     = OutReadResponseFailed (ending (Body resp))
  /\ reached_reporting (run env) = false
  /\ ~ In OutUploadSucceeded (stdout (run env))
  /\ (forall b, ~ In (OutServerReturned b) (stdout (run env))).
Proof.
  cbv zeta.
  assert (Hin : In (CallDo sample_request)
                   (calls (run (sample_env sample_path sample_data
                                  (cut_short 200 10 (bytes_of "par"))))))
    by (vm_compute; do 4 right; left; reflexivity).
  split; [exact Hin|]. split; [reflexivity|]. split; [discriminate|].
  apply (X9_truncated_response_is_a_failure
           (sample_env sample_path sample_data
                       (cut_short 200 10 (bytes_of "par")))
           sample_request
           (mkResponse 200 10
              (mkSource (bytes_of "par") whole_buffer false
                        ErrUnexpectedEOF)));
    [exact Hin | reflexivity | discriminate].
Defined.

Lemma X10_witness :
  let pr := mkProgressReader (sample_source sample_data) 6 0
                             (Some record_progress) in
  let bufs := [4; 4; 4]%nat in
  OnProgress pr = Some record_progress /\ 0 < Size pr
  /\ length (fst (fst (reads pr bufs []))) = length bufs
  /\ length (snd (reads pr bufs [])) = (length ([] : list Float64.t)
                                        + length bufs)%nat.
Proof.
  cbv zeta. split; [reflexivity|]. split; [reflexivity|].
  apply (X10_one_update_for_every_read
           (mkProgressReader (sample_source sample_data) 6 0
                             (Some record_progress))
           [4; 4; 4]%nat []); reflexivity.
Defined.

Lemma X11_witness :
  let bufs := [4; 4; 4; 4; 4; 4; 4]%nat in
  sample_data <> []
  /\ Z.of_nat (length sample_data) <= Int64.max_int
  /\ Forall (fun b => (0 < b)%nat) bufs
  /\ (length sample_data < length bufs)%nat
  /\ last (snd (drain (mkProgressReader
                         (mkSource sample_data whole_buffer false EOF)
                         (Z.of_nat (length sample_data)) 0
                         (Some record_progress))
                      bufs []))
          (progress_of 0 1)
     = Float64.hundred.
Proof.
  cbv zeta.
  assert (H0 : sample_data <> []) by discriminate.
  assert (H1 : Z.of_nat (length sample_data) <= Int64.max_int)
    by (vm_compute; discriminate).
  assert (H2 : Forall (fun b => (0 < b)%nat) [4; 4; 4; 4; 4; 4; 4]%nat)
    by (repeat constructor).
  assert (H3 : (length sample_data < length [4; 4; 4; 4; 4; 4; 4]%nat)%nat)
    by (cbn; lia).
  split; [exact H0|]. split; [exact H1|]. split; [exact H2|].
  split; [exact H3|].
  exact (X11_last_update_is_100_when_size_matches sample_data whole_buffer
           false [4; 4; 4; 4; 4; 4; 4]%nat (progress_of 0 1) H0 H1 H2 H3).
Defined.

Lemma X12_witness :
  let out := save_sh.outcome
               (save_sh.check_disk_space save_sh.all_succeed 1000 1200) in
  0 <= 1000 /\ 1000 * 120 <= Int64.max_int
  /\ (save_sh.exited out = None <-> 1000 + 1000 / 5 <= 1200)
  /\ (save_sh.exited out = Some 1 <-> 1200 < 1000 + 1000 / 5)
  /\ (save_sh.exited out = None -> 1000 <= 1200).
Proof.
  cbv zeta.
  assert (H0 : 0 <= 1000) by lia.
  assert (H1 : 1000 * 120 <= Int64.max_int) by (vm_compute; discriminate).
  split; [exact H0|]. split; [exact H1|].
  exact (save_sh_facts.X12_disk_check_asks_for_a_fifth_more
           save_sh.all_succeed 1000 1200 H0 H1).
Defined.

Lemma X15_witness :
  let out := save_sh.outcome (save_sh.main save_sh.read_times_out []) in
  save_sh.backups_done save_sh.read_times_out
  /\ In save_sh.read_choice (save_sh.ran out)
  /\ (save_sh.read_times_out save_sh.read_choice <> 0 ->
      save_sh.exited out = Some (save_sh.read_times_out save_sh.read_choice)
      /\ last (save_sh.said out) save_sh.MsgRule = save_sh.MsgAskArchive
      /\ ~ In (save_sh.call save_sh.fn_create_archive) (save_sh.ran out)
      /\ ~ In (save_sh.call save_sh.fn_cleanup_old_backups)
              (save_sh.ran out)
      /\ ~ In (save_sh.call save_sh.fn_generate_summary) (save_sh.ran out))
  /\ (save_sh.read_times_out save_sh.read_choice = 0 ->
      (In (save_sh.call save_sh.fn_create_archive) (save_sh.ran out)
       <-> [] = bytes_of "y" \/ [] = bytes_of "Y")
      /\ (@nil byte = [] ->
          In (save_sh.call save_sh.fn_cleanup_old_backups)
             (save_sh.ran out))).
Proof.
  cbv zeta.
  assert (Hd : save_sh.backups_done save_sh.read_times_out)
    by (repeat split; reflexivity).
  split; [exact Hd|].
  exact (save_sh_facts.X15_archive_question save_sh.read_times_out [] Hd).
Defined.

Lemma X17_witness :
  let body := save_sh.pre_backup_check save_sh.all_succeed true 1000 1200 in
  0 <= 1000 /\ 1000 * 120 <= Int64.max_int
  /\ (save_sh.completes body = true
      <-> save_sh.all_succeed (save_sh.command_v "docker") = 0
          /\ save_sh.all_succeed (save_sh.command_v "rsync") = 0
          /\ save_sh.all_succeed (save_sh.command_v "tar") = 0
          /\ save_sh.all_succeed (save_sh.command_v "du") = 0
          /\ save_sh.all_succeed save_sh.grep = 0 /\ true = true
          /\ 1000 + 1000 / 5 <= 1200)
  /\ (save_sh.completes body = false ->
      save_sh.exited (save_sh.outcome body) = Some 1)
  /\ (In save_sh.du (save_sh.ran (save_sh.outcome body)) ->
      save_sh.all_succeed save_sh.grep = 0 /\ true = true).
Proof.
  cbv zeta.
  assert (H0 : 0 <= 1000) by lia.
  assert (H1 : 1000 * 120 <= Int64.max_int) by (vm_compute; discriminate).
  split; [exact H0|]. split; [exact H1|].
  exact (save_sh_facts.X17_pre_check_passes_or_exits_with_1
           save_sh.all_succeed true 1000 1200 H0 H1).
Defined.
